(** * vortx directory scanner: a shallow embedding of [scanner.py]

    The development follows the source file function by function:
    [fnmatch] (the library matcher the scanner calls), the [pathlib]
    operations it uses, [load_dirignore], [should_ignore],
    [scan_directory], [get_stats] and [scan].

    Modelling choices.
    - Python [str] is [string]; a character is one [ascii] code.
    - A [Path] is the list of its components below the filesystem anchor;
      the host is POSIX, so [os.path.normcase] is the identity and the
      separator is "/".
    - The filesystem is a finite tree [Entry]: what [is_dir], [iterdir] and
      [stat] answer along the walk.  A symbolic link is seen through these
      three calls only, so a link to a directory is a directory here and a
      broken link is a non-directory whose [stat] raises.  Cyclic links are
      outside the model.  [is_dir] is total: it answers [False] where the
      entry cannot be examined, as [pathlib] does from Python 3.12 on
      (before, [is_dir] itself raises the [PermissionError] that the size
      query raises here, inside the same [try]).
    - Exceptions are an error monad [res]; the [try/except PermissionError]
      of [scan_directory] is written out.
    - The [stats] dictionary is a record threaded through [count_items];
      its two dictionaries are [gmap string Z]. *)

From stdpp Require Import base gmap sets list strings sorting.
From Stdlib Require Import ZArith Lia Ascii.
From Stdlib Require String.

Local Open Scope Z_scope.

(** ** Exceptions *)

Inductive exn : Set :=
| PermissionError
| FileNotFoundError
| NotADirectoryError
| OSError
| ValueError.

Global Instance exn_eq_dec : EqDecision exn.
Proof. solve_decision. Defined.

Inductive res (A : Type) : Type :=
| Ok (a : A)
| Raise (e : exn).
Arguments Ok {A} a.
Arguments Raise {A} e.

Global Instance res_ret : MRet res := λ A a, Ok a.

Global Instance res_fmap : FMap res := λ A B f m,
  match m with
  | Ok a => Ok (f a)
  | Raise e => Raise e
  end.

Global Instance res_bind : MBind res := λ A B k m,
  match m with
  | Ok a => k a
  | Raise e => Raise e
  end.

(** ** Strings *)

Module Str.

Fixpoint replace (old new : ascii) (s : string) : string :=
  match s with
  | EmptyString => EmptyString
  | String c s' =>
      String (if Ascii.eqb c old then new else c) (replace old new s')
  end.

Fixpoint endswith (s : string) (c : ascii) : bool :=
  match s with
  | EmptyString => false
  | String a EmptyString => Ascii.eqb a c
  | String _ s' => endswith s' c
  end.

Definition startswith (s : string) (c : ascii) : bool :=
  match s with
  | EmptyString => false
  | String a _ => Ascii.eqb a c
  end.

(** [s[:-1]] *)
Fixpoint drop_last (s : string) : string :=
  match s with
  | EmptyString => EmptyString
  | String _ EmptyString => EmptyString
  | String a s' => String a (drop_last s')
  end.

Fixpoint contains (c : ascii) (s : string) : bool :=
  match s with
  | EmptyString => false
  | String a s' => Ascii.eqb a c || contains c s'
  end.

(** [sep.join(parts)] for a one-character separator. *)
Fixpoint join (sep : ascii) (parts : list string) : string :=
  match parts with
  | [] => EmptyString
  | [x] => x
  | x :: xs => x +:+ String sep (join sep xs)
  end.

(** [s.split(sep)]: always at least one piece. *)
Fixpoint split (sep : ascii) (s : string) : list string :=
  match s with
  | EmptyString => [EmptyString]
  | String c s' =>
      if Ascii.eqb c sep then EmptyString :: split sep s'
      else match split sep s' with
           | [] => [String c EmptyString]
           | x :: xs => String c x :: xs
           end
  end.

(** [str.lower] on one character, exact for the code points below 256:
    A-Z, and the Latin-1 capitals 192-222 except the multiplication
    sign 215. *)
Definition lower_char (c : ascii) : ascii :=
  let n := N_of_ascii c in
  if ((65 <=? n) && (n <=? 90))%N then ascii_of_N (n + 32)
  else if ((192 <=? n) && (n <=? 222) && negb (n =? 215))%N
       then ascii_of_N (n + 32)
       else c.

Fixpoint lower (s : string) : string :=
  match s with
  | EmptyString => EmptyString
  | String c s' => String (lower_char c) (lower s')
  end.

(** [str.strip()] with the default whitespace set. *)
Definition is_space (c : ascii) : bool :=
  let n := N_of_ascii c in
  ((9 <=? n) && (n <=? 13) || (28 <=? n) && (n <=? 32) || (n =? 133)
   || (n =? 160))%N.

Fixpoint lstrip (s : string) : string :=
  match s with
  | EmptyString => EmptyString
  | String c s' => if is_space c then lstrip s' else s
  end.

Fixpoint rstrip (s : string) : string :=
  match s with
  | EmptyString => EmptyString
  | String c s' =>
      match rstrip s' with
      | EmptyString => if is_space c then EmptyString else String c EmptyString
      | r => String c r
      end
  end.

Definition strip (s : string) : string := rstrip (lstrip s).

End Str.

(** ** [fnmatch.fnmatch] on a POSIX host

    [fnmatch.translate] turns the pattern into a regular expression that
    must match the whole name: [*] is any run of characters, [?] any one
    character, [[...]] a character class and every other character stands
    for itself.  The tokens below are that regular expression. *)

Module Fnmatch.

Inductive tok : Type :=
| TStar
| TAny
| TLit (c : ascii)
| TSet (negated : bool) (chunks : list (list ascii))
| TNever.

(** The text up to the closing bracket, and what follows it. *)
Fixpoint until_rbracket (p : list ascii) : option (list ascii * list ascii) :=
  match p with
  | [] => None
  | c :: q =>
      if Ascii.eqb c "]" then Some ([], q)
      else match until_rbracket q with
           | Some (s, r) => Some (c :: s, r)
           | None => None
           end
  end.

(** After an opening bracket: a leading [!] and then a leading []] belong
    to the class text. *)
Definition class_stuff (p : list ascii) : option (list ascii * list ascii) :=
  let '(neg, p1) :=
    match p with
    | c :: q => if Ascii.eqb c "!" then ([c], q) else ([], p)
    | [] => ([], p)
    end in
  let '(br, p2) :=
    match p1 with
    | c :: q => if Ascii.eqb c "]" then ([c], q) else ([], p1)
    | [] => ([], p1)
    end in
  match until_rbracket p2 with
  | Some (mid, rest) => Some (neg ++ br ++ mid, rest)
  | None => None
  end.

(** The class text is cut at the hyphens that make ranges: a hyphen is
    looked for from the second character on (the third after [!]), and
    after one is found the next two characters are skipped.  A hyphen in
    last position stays in the chunk before it. *)
Fixpoint split_chunks (skip : nat) (cur stuff : list ascii) : list (list ascii) :=
  match stuff with
  | [] => [cur]
  | c :: q =>
      match skip with
      | S k => split_chunks k (cur ++ [c]) q
      | O =>
          if Ascii.eqb c "-" then
            match q with
            | [] => [cur ++ [c]]
            | _ => cur :: split_chunks 2 [] q
            end
          else split_chunks 0 (cur ++ [c]) q
      end
  end.

(** Empty ranges are removed, from the right. *)
Definition merge_chunk (c : list ascii) (acc : list (list ascii)) : list (list ascii) :=
  match acc with
  | [] => [c]
  | d :: rest =>
      match last c, head d with
      | Some a, Some b =>
          if Ascii.ltb b a then (removelast c ++ tail d) :: rest else c :: acc
      | _, _ => c :: acc
      end
  end.

Definition class_tok (stuff : list ascii) : tok :=
  let skip := match stuff with
              | c :: _ => if Ascii.eqb c "!" then 2%nat else 1%nat
              | [] => 1%nat
              end in
  let chunks := foldr merge_chunk [] (split_chunks skip [] stuff) in
  match chunks with
  | [[]] => TNever
  | (c :: first) :: more =>
      if Ascii.eqb c "!" then
        match first, more with
        | [], [] => TAny
        | _, _ => TSet true (first :: more)
        end
      else TSet false chunks
  | _ => TSet false chunks
  end.

(** [fuel] bounds the number of tokens; a pattern of length [n] has at
    most [n]. *)
Fixpoint translate_go (fuel : nat) (p : list ascii) : list tok :=
  match fuel, p with
  | O, _ => []
  | _, [] => []
  | S fuel', c :: q =>
      if Ascii.eqb c "*" then TStar :: translate_go fuel' q
      else if Ascii.eqb c "?" then TAny :: translate_go fuel' q
      else if Ascii.eqb c "[" then
        match class_stuff q with
        | Some (stuff, rest) => class_tok stuff :: translate_go fuel' rest
        | None => TLit c :: translate_go fuel' q
        end
      else TLit c :: translate_go fuel' q
  end.

Definition translate (pat : string) : list tok :=
  let p := String.list_ascii_of_string pat in
  translate_go (length p) p.

Fixpoint in_ranges (x : ascii) (chunks : list (list ascii)) : bool :=
  match chunks with
  | c :: ((d :: _) as more) =>
      match last c, head d with
      | Some a, Some b => Ascii.leb a x && Ascii.leb x b
      | _, _ => false
      end || in_ranges x more
  | _ => false
  end.

Definition in_set (x : ascii) (chunks : list (list ascii)) : bool :=
  existsb (existsb (Ascii.eqb x)) chunks || in_ranges x chunks.

Definition tok_char (t : tok) (x : ascii) : bool :=
  match t with
  | TStar => true
  | TAny => true
  | TLit c => Ascii.eqb x c
  | TSet negated chunks => xorb negated (in_set x chunks)
  | TNever => false
  end.

(** Whole-string match of the token list. *)
Fixpoint matches (ts : list tok) (s : list ascii) : bool :=
  match ts with
  | [] => match s with [] => true | _ => false end
  | TStar :: ts' =>
      (fix star (s : list ascii) : bool :=
         matches ts' s ||
         match s with
         | [] => false
         | _ :: s' => star s'
         end) s
  | t :: ts' =>
      match s with
      | [] => false
      | x :: s' => tok_char t x && matches ts' s'
      end
  end.

Definition fnmatch (name pat : string) : bool :=
  matches (translate pat) (String.list_ascii_of_string name).

End Fnmatch.

Import Fnmatch.

(** ** Stable sorting

    [sorted(...)] and [list.sort(...)] are stable; insertion from the
    right into the sorted tail puts an element ahead of the later elements
    it is not greater than. *)

Section Sorting.
Context {A : Type} (le : A → A → bool).

Fixpoint insert_by (x : A) (l : list A) : list A :=
  match l with
  | [] => [x]
  | y :: l' => if le x y then x :: l else y :: insert_by x l'
  end.

Definition sorted_by (l : list A) : list A := foldr insert_by [] l.
End Sorting.

(** ** [pathlib] *)

Definition Path : Type := list string.

(** [path / name] *)
Definition joinpath (path : Path) (name : string) : Path := path ++ [name].

(** [path.name]: the last component, or the empty string. *)
Definition Path_name (path : Path) : string := default "" (last path).

(** [path.relative_to(root_path)]; [ValueError] when [root_path] is not a
    prefix of [path]. *)
Fixpoint relative_to (path root_path : Path) {struct root_path} : res Path :=
  match root_path with
  | [] => Ok path
  | r :: root' =>
      match path with
      | p :: path' =>
          if decide (p = r) then relative_to path' root' else Raise ValueError
      | [] => Raise ValueError
      end
  end.

(** [str(p)] for a relative path: ["."] when it has no component. *)
Definition Path_str (rel : Path) : string :=
  match rel with
  | [] => "."
  | _ => Str.join "/" rel
  end.

(** [p.parents] for a relative path: every proper prefix, longest first. *)
Definition Path_parents (rel : Path) : list Path :=
  map (λ k, take k rel) (reverse (seq 0 (length rel))).

(** [Path(s).parts]: the anchor if [s] is absolute (two leading slashes,
    and no more, are an anchor of their own), then the pieces between
    slashes that are neither empty nor ["."]. *)
Definition anchor_of (s : string) : list string :=
  match s with
  | String c0 s1 =>
      if Ascii.eqb c0 "/" then
        match s1 with
        | String c1 s2 =>
            if Ascii.eqb c1 "/"
            then if Str.startswith s2 "/" then ["/"] else ["//"]
            else ["/"]
        | EmptyString => ["/"]
        end
      else []
  | EmptyString => []
  end.

Definition Path_parts (s : string) : list string :=
  anchor_of s ++ filter (λ x, x ≠ "" ∧ x ≠ ".") (Str.split "/" s).

(** [os.path.splitext(p)]: the extension starts at the last dot of the last
    component, unless only dots come before it. *)
Fixpoint rfind_go (c : ascii) (l : list ascii) (i found : Z) : Z :=
  match l with
  | [] => found
  | a :: l' => rfind_go c l' (i + 1) (if Ascii.eqb a c then i else found)
  end.

Definition rfind (c : ascii) (l : list ascii) : Z := rfind_go c l 0 (-1).

Definition splitext (p : string) : string * string :=
  let l := String.list_ascii_of_string p in
  let sepIndex := rfind "/" l in
  let dotIndex := rfind "." l in
  if sepIndex <? dotIndex then
    let filenameIndex := sepIndex + 1 in
    let before := take (Z.to_nat (dotIndex - filenameIndex))
                       (drop (Z.to_nat filenameIndex) l) in
    if existsb (λ c, negb (Ascii.eqb c ".")) before
    then (String.string_of_list_ascii (take (Z.to_nat dotIndex) l),
          String.string_of_list_ascii (drop (Z.to_nat dotIndex) l))
    else (p, "")
  else (p, "").

(** ** The filesystem seen by the walk *)

Unset Elimination Schemes.

Inductive Entry : Type :=
| EFile (size : res Z)
    (** not a directory; [stat().st_size] or the exception [stat] raises *)
| EDir (listing : list (string * Entry))
    (** a directory and what [iterdir] yields, in the host's order *)
| EDirErr (e : exn).
    (** a directory whose [iterdir] raises [e]; for the root of the scan,
        also a path that does not exist ([FileNotFoundError]) *)

Definition is_dir (e : Entry) : bool :=
  match e with
  | EFile _ => false
  | EDir _ | EDirErr _ => true
  end.

(** [item.stat().st_size]; the walk asks it of no directory. *)
Definition st_size (e : Entry) : res Z :=
  match e with
  | EFile size => size
  | EDir _ | EDirErr _ => Ok 0
  end.

(** ** The tree that the scan builds *)

Inductive Node : Type :=
| File (name path : string) (size : Z)
| Directory (name path : string) (children : list Node) (error : option string).

Set Elimination Schemes.

Definition node_name (n : Node) : string :=
  match n with
  | File name _ _ | Directory name _ _ _ => name
  end.

Definition node_path (n : Node) : string :=
  match n with
  | File _ path _ | Directory _ path _ _ => path
  end.

(** ** [load_dirignore]

    The argument is the content of [.dirignore] in the working directory,
    line by line, or [None] when the file does not exist. *)
Definition load_dirignore (dirignore : option (list string)) : gset string :=
  match dirignore with
  | Some lines =>
      foldl (λ (patterns : gset string) line,
               let line := Str.strip line in
               if bool_decide (line ≠ "") && negb (Str.startswith line "#")
               then patterns ∪ {[ line ]}
               else patterns)
            ∅ lines
  | None => ∅
  end.

(** ** [should_ignore] *)

(** The body of the loop over the patterns. [dir] is [path.is_dir()]. *)
Definition pattern_ignores (path relative_path : Path) (dir : bool)
    (pattern : string) : bool :=
  let path_str := Str.replace "\" "/" (Path_str relative_path) in
  fnmatch path_str pattern
  || (Str.endswith pattern "/"
      && ((dir && fnmatch (Path_name path) (Str.drop_last pattern))
          || existsb (λ parent, fnmatch (Path_str parent +:+ "/") pattern)
                     (Path_parents relative_path)))
  || fnmatch (Path_name path) pattern.

Definition should_ignore (path root_path : Path) (dir : bool)
    (patterns : gset string) : res bool :=
  relative_path ← relative_to path root_path;
  Ok (existsb (pattern_ignores path relative_path dir) (elements patterns)).

(** ** [should_ignore] with the query it makes

    [should_ignore] asks [path.is_dir()] itself, inside the loop over the
    patterns: for a pattern that ends with [/], once the direct match has
    failed and before the parents and the name are tried.  The query can
    raise: up to Python 3.12 [Path.is_dir] re-raises [PermissionError] and
    every [OSError] other than a missing or unreachable path.  [kind] is the
    outcome of the query, should it be made, and [order] lists the patterns
    in the order in which the set yields them.  [should_ignore] above is
    this function for a query that answers. *)

(** One turn of the loop: [Ok true] returns [True], [Ok false] goes on. *)
Definition ignore_step (path relative_path : Path) (kind : res bool)
    (pattern : string) : res bool :=
  let path_str := Str.replace "\" "/" (Path_str relative_path) in
  if fnmatch path_str pattern then Ok true
  else if Str.endswith pattern "/" then
    dir ← kind;
    if dir && fnmatch (Path_name path) (Str.drop_last pattern) then Ok true
    else if existsb (λ parent, fnmatch (Path_str parent +:+ "/") pattern)
                    (Path_parents relative_path) then Ok true
    else Ok (fnmatch (Path_name path) pattern)
  else Ok (fnmatch (Path_name path) pattern).

Fixpoint ignore_loop (path relative_path : Path) (kind : res bool)
    (order : list string) : res bool :=
  match order with
  | [] => Ok false
  | pattern :: rest =>
      match ignore_step path relative_path kind pattern with
      | Raise ex => Raise ex
      | Ok true => Ok true
      | Ok false => ignore_loop path relative_path kind rest
      end
  end.

Definition should_ignore_asking (path root_path : Path) (kind : res bool)
    (order : list string) : res bool :=
  relative_path ← relative_to path root_path;
  ignore_loop path relative_path kind order.

(** ** [scan_directory] *)

Definition permission_denied : string := "Permission denied".

(** One listed item: its name, the filesystem entry, and the result of the
    recursive call on it, tabulated so that the recursion is structural on
    the filesystem tree; only the branch for directories reads it. *)
Definition Item : Type := string * Entry * res Node.

Definition item_le (x y : Item) : bool := String.leb x.1.1 y.1.1.

(** The [for] loop: the children appended so far, and the exception that
    stopped the loop if one did. *)
Fixpoint scan_items (path root_path : Path) (patterns : gset string)
    (items : list Item) (children : list Node) : list Node * option exn :=
  match items with
  | [] => (children, None)
  | (name, e, sub) :: rest =>
      let item := joinpath path name in
      match should_ignore item root_path (is_dir e) patterns with
      | Raise ex => (children, Some ex)
      | Ok true => scan_items path root_path patterns rest children
      | Ok false =>
          if is_dir e then
            match sub with
            | Ok node => scan_items path root_path patterns rest (children ++ [node])
            | Raise ex => (children, Some ex)
            end
          else
            match relative_to item root_path with
            | Raise ex => (children, Some ex)
            | Ok rel =>
                match st_size e with
                | Ok size =>
                    scan_items path root_path patterns rest
                      (children ++ [File name (Path_str rel) size])
                | Raise ex => (children, Some ex)
                end
            end
      end
  end.

Fixpoint scan_directory (e : Entry) (path root_path : Path)
    (patterns : gset string) {struct e} : res Node :=
  rel ← relative_to path root_path;
  let name := Path_name path in
  match e with
  | EFile _ => Raise NotADirectoryError
  | EDirErr PermissionError =>
      Ok (Directory name (Path_str rel) [] (Some permission_denied))
  | EDirErr ex => Raise ex
  | EDir listing =>
      let items :=
        sorted_by item_le
          (map (λ it : string * Entry,
                  (it.1, it.2,
                   scan_directory it.2 (joinpath path it.1) root_path patterns))
               listing) in
      match scan_items path root_path patterns items [] with
      | (children, None) => Ok (Directory name (Path_str rel) children None)
      | (children, Some PermissionError) =>
          Ok (Directory name (Path_str rel) children (Some permission_denied))
      | (_, Some ex) => Raise ex
      end
  end.

(** ** [scan] *)
Definition scan (fs : Entry) (root_path : Path)
    (dirignore : option (list string)) : res Node :=
  let patterns := load_dirignore dirignore in
  scan_directory fs root_path root_path patterns.

(** ** [get_stats] *)

Record Stats : Type := mkStats {
  files : Z;
  directories : Z;
  total_size : Z;
  extensions : gmap string Z;
  size_by_ext : gmap string Z;
  largest_files : list (string * Z);
  max_depth : Z
}.

(** The key of [largest_files.sort(key=lambda x: x[1], reverse=True)]:
    [x] goes ahead of [y] when [y] is not larger. *)
Definition size_ge (x y : string * Z) : bool := y.2 <=? x.2.

(** What [count_items] does at a file node. *)
Definition count_file (name path : string) (size : Z) (stats : Stats) : Stats :=
  let ext := Str.lower (splitext name).2 in
  let counted ext_map amount :=
    if decide (ext = "") then ext_map
    else <[ ext := default 0 (ext_map !! ext) + amount ]> ext_map in
  {| files := files stats + 1;
     directories := directories stats;
     total_size := total_size stats + size;
     extensions := counted (extensions stats) 1;
     size_by_ext := counted (size_by_ext stats) size;
     largest_files :=
       take 10 (sorted_by size_ge (largest_files stats ++ [(path, size)]));
     max_depth := max_depth stats |}.

(** [len(Path(node['path']).parts)] *)
Definition depth_of (path : string) : Z := Z.of_nat (length (Path_parts path)).

(** What [count_items] does at a directory node, before its children. *)
Definition count_dir (path : string) (stats : Stats) : Stats :=
  {| files := files stats;
     directories := directories stats + 1;
     total_size := total_size stats;
     extensions := extensions stats;
     size_by_ext := size_by_ext stats;
     largest_files := largest_files stats;
     max_depth := Z.max (max_depth stats) (depth_of path) |}.

Fixpoint count_items (node : Node) (stats : Stats) : Stats :=
  match node with
  | File name path size => count_file name path size stats
  | Directory name path children error =>
      foldl (λ stats child, count_items child stats) (count_dir path stats) children
  end.

Definition initial_stats : Stats :=
  {| files := 0;
     directories := 0;
     total_size := 0;
     extensions := ∅;
     size_by_ext := ∅;
     largest_files := [];
     max_depth := 0 |}.

Definition get_stats (structure : Node) : Stats :=
  count_items structure initial_stats.

(** ** Node counts *)

Fixpoint file_nodes (n : Node) : nat :=
  match n with
  | File _ _ _ => 1
  | Directory _ _ children _ => foldr (λ c k, file_nodes c + k)%nat 0%nat children
  end.

Fixpoint dir_nodes (n : Node) : nat :=
  match n with
  | File _ _ _ => 0
  | Directory _ _ children _ =>
      S (foldr (λ c k, dir_nodes c + k)%nat 0%nat children)
  end.

Fixpoint all_nodes (n : Node) : nat :=
  match n with
  | File _ _ _ => 1
  | Directory _ _ children _ =>
      S (foldr (λ c k, all_nodes c + k)%nat 0%nat children)
  end.


(** ** Induction principles *)

(** Induction over a tree of nodes, with the hypothesis for every child. *)
Fixpoint Node_ind (P : Node → Prop)
    (HFile : ∀ name path size, P (File name path size))
    (HDir : ∀ name path children error,
        Forall P children → P (Directory name path children error))
    (n : Node) {struct n} : P n :=
  match n with
  | File name path size => HFile name path size
  | Directory name path children error =>
      HDir name path children error
        ((fix go (l : list Node) : Forall P l :=
            match l with
            | [] => List.Forall_nil P
            | c :: l' => List.Forall_cons P c l' (Node_ind P HFile HDir c) (go l')
            end) children)
  end.

(** Induction over the filesystem, with the hypothesis for every listed
    entry. *)
Fixpoint Entry_ind (P : Entry → Prop)
    (HFile : ∀ st, P (EFile st))
    (HDir : ∀ listing, Forall (λ it, P it.2) listing → P (EDir listing))
    (HErr : ∀ e, P (EDirErr e))
    (e : Entry) {struct e} : P e :=
  match e with
  | EFile st => HFile st
  | EDir listing =>
      HDir listing
        ((fix go (l : list (string * Entry)) : Forall (λ it, P it.2) l :=
            match l with
            | [] => List.Forall_nil (λ it, P it.2)
            | it :: l' =>
                List.Forall_cons (λ it, P it.2) it l'
                  (Entry_ind P HFile HDir HErr it.2) (go l')
            end) listing)
  | EDirErr e => HErr e
  end.

(** ** The traversal order of [count_items]

    [preorder] lists the nodes in the order in which [count_items] reaches
    them and [visit] is what it does at one node, its children apart. *)

Fixpoint preorder (n : Node) : list Node :=
  match n with
  | File _ _ _ => [n]
  | Directory _ _ children _ => n :: foldr (λ c l, preorder c ++ l) [] children
  end.

Definition visit (stats : Stats) (n : Node) : Stats :=
  match n with
  | File name path size => count_file name path size stats
  | Directory _ path _ _ => count_dir path stats
  end.

(** Descending by size. *)
Definition size_sorted (l : list (string * Z)) : Prop :=
  StronglySorted (λ x y, y.2 ≤ x.2) l.

(** Every character of [s] is a dot (also when [s] is empty). *)
Fixpoint only_dots (s : string) : bool :=
  match s with
  | EmptyString => true
  | String c s' => Ascii.eqb c "." && only_dots s'
  end.

(** [should_ignore] on the entry at the relative path [rel] below the scan
    root, whatever the root is. *)
Definition ignored (rel : Path) (dir : bool) (patterns : gset string) : bool :=
  existsb (pattern_ignores rel rel dir) (elements patterns).

(** The order of [sorted(path.iterdir())] on the listing itself. *)
Definition entry_le (x y : string * Entry) : bool := String.leb x.1 y.1.

(** ** Predicates on the filesystem *)

(** Nothing raises but [PermissionError]: every size query answers or is
    denied, every listing answers or is denied. *)
Fixpoint recoverable (e : Entry) : bool :=
  match e with
  | EFile (Ok _) => true
  | EFile (Raise ex) => bool_decide (ex = PermissionError)
  | EDir listing => forallb (λ it, recoverable it.2) listing
  | EDirErr ex => bool_decide (ex = PermissionError)
  end.

(** Nothing raises at all. *)
Fixpoint error_free (e : Entry) : bool :=
  match e with
  | EFile (Ok _) => true
  | EFile (Raise _) => false
  | EDir listing => forallb (λ it, error_free it.2) listing
  | EDirErr _ => false
  end.

(** The same filesystem with an empty directory in place of every directory
    whose listing is denied. *)
Fixpoint undeny (e : Entry) : Entry :=
  match e with
  | EFile st => EFile st
  | EDir listing => EDir (map (λ it, (it.1, undeny it.2)) listing)
  | EDirErr PermissionError => EDir []
  | EDirErr ex => EDirErr ex
  end.

(** The same tree without its error markers. *)
Fixpoint erase_error (n : Node) : Node :=
  match n with
  | File name path size => File name path size
  | Directory name path children _ =>
      Directory name path (map erase_error children) None
  end.

(** ** The scenario of the specification

    A root that contains [a.txt] (10 bytes), a directory [b] with [c.txt]
    (20 bytes) in it, and an empty directory [d]. *)
Definition scenario_listing : list (string * Entry) :=
  [("a.txt", EFile (Ok 10));
   ("b", EDir [("c.txt", EFile (Ok 20))]);
   ("d", EDir [])].

(** The items of the loop of [scan_directory] at [root ++ rel], for the
    sorted listing [sl]. *)
Definition items_of (root rel : Path) (patterns : gset string)
    (sl : list (string * Entry)) : list Item :=
  map (λ it : string * Entry,
         (it.1, it.2, scan_directory it.2 (root ++ rel ++ [it.1]) root patterns))
      sl.

(** No size query is denied. *)
Fixpoint no_denied_size (e : Entry) : bool :=
  match e with
  | EFile (Raise PermissionError) => false
  | EFile _ => true
  | EDir listing => forallb (λ it, no_denied_size it.2) listing
  | EDirErr _ => true
  end.

(** A node with the error marker has no children. *)
Definition childless_if_marked (n : Node) : Prop :=
  match n with
  | Directory _ _ (_ :: _) (Some _) => False
  | _ => True
  end.

Definition markers_childless (tree : Node) : Prop :=
  Forall childless_if_marked (preorder tree).

(** A name that a directory listing can yield: not empty, not ["."], no
    separator in it. *)
Definition valid_name (name : string) : bool :=
  bool_decide (name ≠ "") && bool_decide (name ≠ ".")
  && negb (Str.contains "/" name).

Fixpoint wf_names (e : Entry) : bool :=
  match e with
  | EDir listing => forallb (λ it, valid_name it.1 && wf_names it.2) listing
  | _ => true
  end.

(** The directory nodes of a tree, in the order of the traversal: the names
    on the way from the root of the tree to the node, after [pos], and the
    [path] field of the node. *)
Fixpoint dir_positions (pos : Path) (n : Node) : list (Path * string) :=
  match n with
  | File _ _ _ => []
  | Directory _ path children _ =>
      (pos, path)
      :: foldr (λ c l, dir_positions (pos ++ [node_name c]) c ++ l) [] children
  end.

(** ** Files of the tree and files of the filesystem *)

(** The file nodes of a tree, in the order of the traversal: [path] and
    [size]. *)
Fixpoint tree_files (n : Node) : list (string * Z) :=
  match n with
  | File _ path size => [(path, size)]
  | Directory _ _ children _ => children ≫= tree_files
  end.

Definition sum_sizes {A} (l : list (A * Z)) : Z := foldr (λ pf k, pf.2 + k) 0 l.

(** The names of every listing are distinct. *)
Fixpoint unique_names (e : Entry) : bool :=
  match e with
  | EDir listing =>
      bool_decide (NoDup listing.*1)
      && forallb (λ it, unique_names it.2) listing
  | _ => true
  end.

(** [kept patterns base e sub size]: below the directory [e], whose
    root-relative path is [base], the path [sub] leads through directories
    that can be listed to a file whose size query answers [size], and
    neither the file nor any directory on the way is matched by the
    patterns. *)
Inductive kept (patterns : gset string) : Path → Entry → Path → Z → Prop :=
| kept_here base listing name size :
    (name, EFile (Ok size)) ∈ listing →
    ignored (base ++ [name]) false patterns = false →
    kept patterns base (EDir listing) [name] size
| kept_below base listing name sub_listing sub size :
    (name, EDir sub_listing) ∈ listing →
    ignored (base ++ [name]) true patterns = false →
    kept patterns (base ++ [name]) (EDir sub_listing) sub size →
    kept patterns base (EDir listing) (name :: sub) size.

(** The kept files below [e], with their root-relative paths, in the order
    of the listings. *)
Fixpoint kept_files (patterns : gset string) (base : Path) (e : Entry)
    : list (Path * Z) :=
  match e with
  | EDir listing =>
      listing ≫= λ it,
        if ignored (base ++ [it.1]) (is_dir it.2) patterns then []
        else match it.2 with
             | EFile (Ok size) => [(base ++ [it.1], size)]
             | EFile (Raise _) => []
             | _ => kept_files patterns (base ++ [it.1]) it.2
             end
  | _ => []
  end.

(** ** Further notions for the properties of the matcher and the loader *)

(** None of the characters that [fnmatch.translate] treats specially. *)
Definition literal (s : string) : bool :=
  negb (Str.contains "*" s) && negb (Str.contains "?" s)
  && negb (Str.contains "[" s).

(** ** Further notions for the properties of the aggregation *)

(** [os.path.splitext(name)[1].lower()] *)
Definition ext_of (name : string) : string := Str.lower (splitext name).2.

(** The extension and the size of every file node, in the order of the
    traversal. *)
Definition file_exts (tree : Node) : list (string * Z) :=
  preorder tree ≫= λ n,
    match n with
    | File name _ size => [(ext_of name, size)]
    | Directory _ _ _ _ => []
    end.

(** The entries of such a list under one key. *)
Definition with_key (key : string) (l : list (string * Z)) : list (string * Z) :=
  filter (λ kv, kv.1 = key) l.

(** [e] put behind the entries of [s] that are at least as large, up to the
    first smaller one. *)
Fixpoint insert_behind (e : string * Z) (s : list (string * Z)) : list (string * Z) :=
  match s with
  | [] => [e]
  | y :: s' => if size_ge y e then y :: insert_behind e s' else e :: s
  end.

(** ** Further notions for the properties of the walk *)

(** [entry_at e sub e']: the names [sub] lead from the directory [e],
    through listings, to the entry [e']. *)
Inductive entry_at : Entry → Path → Entry → Prop :=
| at_here e : entry_at e [] e
| at_below listing name c sub e' :
    (name, c) ∈ listing → entry_at c sub e' →
    entry_at (EDir listing) (name :: sub) e'.

Definition listing_of (e : Entry) : list (string * Entry) :=
  match e with
  | EDir listing => listing
  | EFile _ | EDirErr _ => []
  end.

(** Every node of a tree with the names on the way to it, after [pos], in
    the order of the traversal. *)
Fixpoint node_positions (pos : Path) (n : Node) : list (Path * Node) :=
  (pos, n)
  :: match n with
     | File _ _ _ => []
     | Directory _ _ children _ =>
         children ≫= λ c, node_positions (pos ++ [node_name c]) c
     end.

(** A file node stands for a file with that size; a directory node stands
    for a directory, and the names of its children are names of the
    listing, in sorted order. *)
Definition kind_ok (n : Node) (e : Entry) : Prop :=
  match n with
  | File _ _ size => e = EFile (Ok size)
  | Directory _ _ children _ =>
      is_dir e = true
      ∧ (node_name <$> children)
        `sublist_of` (sorted_by entry_le (listing_of e)).*1
  end.

(** The node [pn.2], at the root-relative path [pn.1], is the image of an
    entry below [e] (which lies at [rel]): same place, same kind, named by
    its last segment, its [path] the joined segments, and not matched by
    the patterns unless it is [e] itself. *)
Definition image_of (root : Path) (patterns : gset string) (e : Entry)
    (rel : Path) (pn : Path * Node) : Prop :=
  ∃ sub e',
    pn.1 = rel ++ sub
    ∧ entry_at e sub e'
    ∧ node_name pn.2 = Path_name (root ++ pn.1)
    ∧ node_path pn.2 = Path_str pn.1
    ∧ kind_ok pn.2 e'
    ∧ (sub ≠ [] → ignored pn.1 (is_dir e') patterns = false).

(** The names of the children of a directory node are in ascending order. *)
Definition children_sorted (n : Node) : Prop :=
  match n with
  | File _ _ _ => True
  | Directory _ _ children _ =>
      StronglySorted (λ a b, String.leb a b = true) (node_name <$> children)
  end.

(** The names of the children of a directory node are distinct. *)
Definition children_distinct (n : Node) : Prop :=
  match n with
  | File _ _ _ => True
  | Directory _ _ children _ => NoDup (node_name <$> children)
  end.

(** The same filesystem, its directories listed in another order. *)
Unset Elimination Schemes.

Inductive reordered : Entry → Entry → Prop :=
| reordered_file size : reordered (EFile size) (EFile size)
| reordered_err ex : reordered (EDirErr ex) (EDirErr ex)
| reordered_dir l1 l l2 :
    Forall2 (λ a b : string * Entry, a.1 = b.1 ∧ reordered a.2 b.2) l1 l →
    l ≡ₚ l2 →
    reordered (EDir l1) (EDir l2).

Set Elimination Schemes.

(** ** [print_tree]

    The texts that [print_tree] passes to [print], one per call, in the
    order of the calls, every call of [print] taken to return.  A file node
    has no [children] key; a directory node always has one. *)

Definition connector (is_last : bool) : string :=
  if is_last then "└── " else "├── ".

Definition extension (is_last : bool) : string :=
  if is_last then "    " else "│   ".

Definition is_last_child (rest : list Node) : bool :=
  match rest with
  | [] => true
  | _ :: _ => false
  end.

Fixpoint print_tree (structure : Node) (prefix : string) (is_last : bool)
    : list string :=
  ((prefix +:+ connector is_last) +:+ node_name structure)
  :: match structure with
     | File _ _ _ => []
     | Directory _ _ children _ =>
         (fix each (children : list Node) : list string :=
            match children with
            | [] => []
            | child :: rest =>
                print_tree child (prefix +:+ extension is_last)
                  (is_last_child rest)
                ++ each rest
            end) children
     end.

(** The loop of [print_tree] over the children that are left. *)
Fixpoint print_children (prefix : string) (children : list Node) : list string :=
  match children with
  | [] => []
  | child :: rest =>
      print_tree child prefix (is_last_child rest) ++ print_children prefix rest
  end.

(** The indentation that the ancestors of a node add, outermost first. *)
Definition indent (lasts : list bool) : string :=
  foldr (λ is_last rest, extension is_last +:+ rest) "" lasts.

(** The text printed for a node: the prefix, one indentation unit for every
    ancestor, a connector, the name. *)
Definition line_of (prefix : string) (lasts : list bool) (is_last : bool)
    (n : Node) : string :=
  prefix +:+ indent lasts +:+ connector is_last +:+ node_name n.

(** ** What the filesystem holds

    The files, the directories and the bytes at and below an entry, as far
    as the listings lead: nothing below a directory that cannot be listed,
    no bytes for a file whose size query fails. *)

Fixpoint fs_files (e : Entry) : nat :=
  match e with
  | EFile _ => 1
  | EDir listing => foldr (λ it k, fs_files it.2 + k)%nat 0%nat listing
  | EDirErr _ => 0
  end.

Fixpoint fs_dirs (e : Entry) : nat :=
  match e with
  | EFile _ => 0
  | EDir listing => S (foldr (λ it k, fs_dirs it.2 + k)%nat 0%nat listing)
  | EDirErr _ => 1
  end.

Fixpoint fs_size (e : Entry) : Z :=
  match e with
  | EFile (Ok size) => size
  | EFile (Raise _) => 0
  | EDir listing => foldr (λ it k, fs_size it.2 + k) 0 listing
  | EDirErr _ => 0
  end.

(** What the calls of [print] write: every text, followed by a newline. *)
Definition newline : ascii := "010"%char.

Definition output (texts : list string) : string :=
  foldr (λ text rest, text +:+ String newline rest) "" texts.

Fixpoint count_char (c : ascii) (s : string) : nat :=
  match s with
  | EmptyString => 0
  | String a s' => (if Ascii.eqb a c then 1 else 0) + count_char c s'
  end.

(** The number of lines of a text that ends with a newline, or is empty. *)
Definition line_count (s : string) : nat := count_char newline s.

(** ** Filesystems whose files all answer

    Every size query answers, so [is_dir] answers for every entry; listings
    may still fail. *)
Fixpoint sizes_answer (e : Entry) : bool :=
  match e with
  | EFile (Ok _) => true
  | EFile (Raise _) => false
  | EDir listing => forallb (λ it, sizes_answer it.2) listing
  | EDirErr _ => true
  end.
(** * Reasoning principles *)

(** ** The library models on known values *)

Example fnmatch_star_crosses_separators :
  fnmatch "sub/dir/app.log" "*.log" = true ∧ fnmatch "app.logs" "*.log" = false.
Proof. by vm_compute. Qed.

Example fnmatch_whole_name :
  fnmatch "sub/build/" "build/" = false ∧ fnmatch "ac" "a*c" = true
  ∧ fnmatch "ab" "a*c" = false ∧ fnmatch "" "" = true.
Proof. by vm_compute. Qed.

Example fnmatch_classes :
  fnmatch "b.c" "[a-c].[!a-b]" = true ∧ fnmatch "h" "[a-fk-z]" = false
  ∧ fnmatch "]" "[]]" = true ∧ fnmatch "]" "[!]]" = false
  ∧ fnmatch "d" "[a-c-e]" = false ∧ fnmatch "-" "[a-c-e]" = true
  ∧ fnmatch "." "[--0]" = true ∧ fnmatch "^" "[^a]" = true.
Proof. by vm_compute. Qed.

Example fnmatch_odd_classes :
  fnmatch "[x" "[?" = true ∧ fnmatch "a" "[z-a]" = false
  ∧ fnmatch "q" "[z-a!]" = true ∧ fnmatch "x" "[b-a!x]" = false
  ∧ fnmatch "b" "[a--]" = false ∧ fnmatch "[!]" "[!]" = true.
Proof. by vm_compute. Qed.

Example splitext_values :
  splitext ".bashrc" = (".bashrc", "") ∧ splitext "file." = ("file", ".")
  ∧ splitext "a..b" = ("a.", ".b") ∧ splitext "..a" = ("..a", "")
  ∧ splitext "x.tar.gz" = ("x.tar", ".gz") ∧ splitext "a.b/c" = ("a.b/c", "").
Proof. by vm_compute. Qed.

Example Path_parts_values :
  Path_parts "." = [] ∧ Path_parts "a/b" = ["a"; "b"]
  ∧ Path_parts "/a" = ["/"; "a"] ∧ Path_parts "//a" = ["//"; "a"]
  ∧ Path_parts "///a" = ["/"; "a"] ∧ Path_parts "a/./b//c" = ["a"; "b"; "c"].
Proof. by vm_compute. Qed.

Example Path_parents_values :
  Path_str <$> Path_parents ["sub"; "dir"; "app.log"] = ["sub/dir"; "sub"; "."]
  ∧ Path_parents [] = [].
Proof. by vm_compute. Qed.

Example sort_is_stable :
  sorted_by size_ge [("a", 3); ("b", 5); ("c", 3); ("d", 5)]
  = [("b", 5); ("d", 5); ("a", 3); ("c", 3)].
Proof. by vm_compute. Qed.

Example load_dirignore_values :
  load_dirignore (Some ["# build outputs"; "  build/ "; ""; "*.log"; "*.log"])
  = {[ "build/"; "*.log" ]}
  ∧ load_dirignore None = ∅.
Proof. split; [|done]. apply set_eq. intros x. vm_compute. set_solver. Qed.

(** ** The fuel of [translate] *)

Lemma until_rbracket_length p : ∀ s r,
  until_rbracket p = Some (s, r) → (length r < length p)%nat.
Proof.
  induction p as [|c p IH]; intros s r; simpl; [done|].
  destruct (Ascii.eqb c "]"); [intros [= <- <-]; lia|].
  destruct (until_rbracket p) as [[s' r']|]; [|done].
  intros [= <- <-]. specialize (IH s' r' eq_refl). lia.
Qed.

Lemma class_stuff_length p s r :
  class_stuff p = Some (s, r) → (length r < length p)%nat.
Proof.
  unfold class_stuff.
  destruct p as [|c p]; simpl; [done|].
  destruct (Ascii.eqb c "!").
  - destruct p as [|c' p]; simpl; [done|].
    destruct (Ascii.eqb c' "]").
    + destruct (until_rbracket p) as [[mid rest]|] eqn:Hp; [|done].
      intros [= <- <-]. apply until_rbracket_length in Hp. simpl. lia.
    + destruct (until_rbracket (c' :: p)) as [[mid rest]|] eqn:Hp; [|done].
      intros [= <- <-]. apply until_rbracket_length in Hp. simpl in *. lia.
  - destruct (Ascii.eqb c "]").
    + destruct (until_rbracket p) as [[mid rest]|] eqn:Hp; [|done].
      intros [= <- <-]. apply until_rbracket_length in Hp. simpl. lia.
    + destruct (until_rbracket (c :: p)) as [[mid rest]|] eqn:Hp; [|done].
      intros [= <- <-]. apply until_rbracket_length in Hp. simpl in *. lia.
Qed.

(** The length of the pattern is fuel enough: more fuel changes nothing. *)
Lemma translate_go_fuel n : ∀ m p,
  (length p ≤ n)%nat → (length p ≤ m)%nat →
  translate_go n p = translate_go m p.
Proof.
  induction n as [|n IH]; intros m p Hn Hm.
  - destruct p; [|simpl in Hn; lia]. by destruct m.
  - destruct p as [|c q]; [by destruct m|].
    destruct m as [|m]; [simpl in Hm; lia|].
    simpl in Hn, Hm. simpl.
    destruct (Ascii.eqb c "*"); [f_equal; apply IH; lia|].
    destruct (Ascii.eqb c "?"); [f_equal; apply IH; lia|].
    destruct (Ascii.eqb c "["); [|f_equal; apply IH; lia].
    destruct (class_stuff q) as [[stuff rest]|] eqn:Hq; [|f_equal; apply IH; lia].
    apply class_stuff_length in Hq. f_equal. apply IH; lia.
Qed.

Lemma translate_literal l :
  Forall (λ c, Ascii.eqb c "*" = false ∧ Ascii.eqb c "?" = false
               ∧ Ascii.eqb c "[" = false) l →
  translate_go (length l) l = map TLit l.
Proof.
  induction 1 as [|c l (H1 & H2 & H3) _ IH]; simpl; [done|].
  by rewrite H1, H2, H3, IH.
Qed.

(** ** Counting nodes *)

Lemma all_nodes_split n : all_nodes n = (file_nodes n + dir_nodes n)%nat.
Proof.
  induction n as [name path size | name path children error IH] using Node_ind;
    [reflexivity|].
  simpl. f_equal. rewrite Nat.add_succ_r. f_equal.
  induction IH as [|c l Hc _ IHl]; simpl; [reflexivity|].
  rewrite Hc. lia.
Qed.

Lemma count_items_files n : ∀ stats,
  files (count_items n stats) = files stats + Z.of_nat (file_nodes n).
Proof.
  induction n as [name path size | name path children error IH] using Node_ind;
    intros stats; simpl; [lia|].
  change (files stats) with (files (count_dir path stats)).
  generalize (count_dir path stats) as st.
  induction IH as [|c l Hc _ IHl]; intros st; simpl; [lia|].
  rewrite IHl, Hc. lia.
Qed.

Lemma count_items_directories n : ∀ stats,
  directories (count_items n stats)
  = directories stats + Z.of_nat (dir_nodes n).
Proof.
  induction n as [name path size | name path children error IH] using Node_ind;
    intros stats; simpl; [lia|].
  rewrite Nat2Z.inj_succ.
  replace (directories stats + Z.succ _) with
    (directories (count_dir path stats)
     + Z.of_nat (foldr (λ c k, dir_nodes c + k)%nat 0%nat children))
    by (simpl; lia).
  generalize (count_dir path stats) as st.
  induction IH as [|c l Hc _ IHl]; intros st; simpl; [lia|].
  rewrite IHl, Hc. lia.
Qed.

(** C10: the aggregation counts every node once, a file node as a file and
    a directory node as a directory, so [files + directories] is the number
    of nodes of the tree. *)
Theorem C10_every_node_counted_once (tree : Node) :
  files (get_stats tree) = Z.of_nat (file_nodes tree)
  ∧ directories (get_stats tree) = Z.of_nat (dir_nodes tree)
  ∧ files (get_stats tree) + directories (get_stats tree)
    = Z.of_nat (all_nodes tree).
Proof.
  unfold get_stats.
  rewrite count_items_files, count_items_directories, all_nodes_split.
  simpl. lia.
Qed.

(** ** Stable insertion sort *)

Section SortingFacts.
Context {A : Type} (le : A → A → bool).
Hypothesis le_total : ∀ x y, le x y = false → le y x = true.
Hypothesis le_trans : ∀ x y z, le x y = true → le y z = true → le x z = true.

Let R (x y : A) : Prop := le x y = true.

Lemma insert_by_Permutation x l : insert_by le x l ≡ₚ x :: l.
Proof.
  induction l as [|y l IH]; simpl; [done|].
  destruct (le x y); [done|].
  rewrite IH. apply perm_swap.
Qed.

Lemma sorted_by_Permutation l : sorted_by le l ≡ₚ l.
Proof.
  induction l as [|x l IH]; simpl; [done|].
  rewrite insert_by_Permutation. by f_equiv.
Qed.

Lemma insert_by_sorted x l :
  StronglySorted R l → StronglySorted R (insert_by le x l).
Proof.
  induction 1 as [|y l Hl IH Hy]; simpl.
  - repeat constructor.
  - destruct (le x y) eqn:Hxy.
    + constructor; [by constructor|].
      constructor; [done|].
      eapply Forall_impl; [exact Hy|]. intros z Hz. by eapply le_trans.
    + constructor; [done|].
      rewrite insert_by_Permutation. constructor; [|done].
      by apply le_total.
Qed.

Lemma sorted_by_sorted l : StronglySorted R (sorted_by le l).
Proof.
  induction l as [|x l IH]; simpl; [constructor|].
  by apply insert_by_sorted.
Qed.

(** An element that is not greater than the head goes first. *)
Lemma insert_by_head x l :
  match l with [] => True | y :: _ => le x y = true end →
  insert_by le x l = x :: l.
Proof. destruct l as [|y l]; simpl; [done|]. by intros ->. Qed.
End SortingFacts.

Lemma StronglySorted_take {A} (R : relation A) n l :
  StronglySorted R l → StronglySorted R (take n l).
Proof.
  intros Hl. revert n. induction Hl as [|x l Hl IH Hx]; intros [|n]; simpl;
    try constructor; [apply IH|].
  eapply Forall_forall. intros y Hy%subseteq_take.
  by eapply Forall_forall in Hx.
Qed.

Lemma filter_none {A} (P : A → Prop) `{∀ x, Decision (P x)} l :
  Forall (λ x, ¬ P x) l → filter P l = [].
Proof.
  induction 1 as [|x l Hx _ IH]; [done|]. by rewrite filter_cons_False.
Qed.

Lemma filter_all {A} (P : A → Prop) `{∀ x, Decision (P x)} l :
  Forall P l → filter P l = l.
Proof.
  induction 1 as [|x l Hx _ IH]; [done|].
  rewrite filter_cons_True by done. by f_equal.
Qed.

(** ** The list of largest files *)

Lemma size_ge_total x y : size_ge x y = false → size_ge y x = true.
Proof. unfold size_ge. lia. Qed.

Lemma size_ge_trans x y z :
  size_ge x y = true → size_ge y z = true → size_ge x z = true.
Proof. unfold size_ge. lia. Qed.

Lemma size_sorted_alt l :
  size_sorted l ↔ StronglySorted (λ x y, size_ge x y = true) l.
Proof.
  unfold size_sorted, size_ge.
  split; induction 1 as [|x l Hl IH Hx]; constructor; try done;
    (eapply Forall_impl; [exact Hx|]); simpl; intros; lia.
Qed.

(** Appending to a sorted list and sorting again puts the new entry behind
    the entries that are at least as large and ahead of the smaller ones;
    the entries already there keep their order. *)
Lemma sorted_by_snoc (l : list (string * Z)) (e : string * Z) :
  size_sorted l →
  sorted_by size_ge (l ++ [e])
  = filter (λ y, e.2 ≤ y.2) l ++ e :: filter (λ y, y.2 < e.2) l.
Proof.
  induction 1 as [|x l Hl IH Hx]; [done|].
  simpl. rewrite IH. clear IH.
  destruct (decide (e.2 ≤ x.2)) as [Hex|Hex].
  - rewrite filter_cons_True, (filter_cons_False (λ y, y.2 < e.2)) by lia.
    simpl. apply insert_by_head.
    destruct (filter _ l) as [|y l'] eqn:Hf; simpl; [unfold size_ge; lia|].
    assert (y ∈ l) as Hy.
    { eapply (list_elem_of_filter (λ y, e.2 ≤ y.2)). rewrite Hf. left. }
    eapply Forall_forall in Hx; [|exact Hy]. unfold size_ge. simpl in Hx. lia.
  - rewrite filter_cons_False, (filter_cons_True (λ y, y.2 < e.2)) by lia.
    assert (filter (λ y, e.2 ≤ y.2) l = []) as ->.
    { apply filter_none.
      eapply Forall_impl; [exact Hx|]. simpl. intros; lia. }
    assert (filter (λ y, y.2 < e.2) l = l) as ->.
    { apply filter_all.
      eapply Forall_impl; [exact Hx|]. simpl. intros; lia. }
    simpl. assert (size_ge x e = false) as -> by (unfold size_ge; lia).
    f_equal. apply insert_by_head.
    destruct l as [|y l']; [done|].
    apply Forall_cons in Hx as [Hy _]. unfold size_ge. simpl in Hy. lia.
Qed.

Lemma count_items_preorder n : ∀ stats,
  count_items n stats = foldl visit stats (preorder n).
Proof.
  induction n as [name path size | name path children error IH] using Node_ind;
    intros stats; simpl; [done|].
  generalize (count_dir path stats) as st.
  induction IH as [|c l Hc _ IHl]; intros st; simpl; [done|].
  by rewrite foldl_app, <- Hc, IHl.
Qed.

Lemma visit_largest_files stats n :
  (length (largest_files stats) ≤ 10)%nat ∧ size_sorted (largest_files stats) →
  (length (largest_files (visit stats n)) ≤ 10)%nat
  ∧ size_sorted (largest_files (visit stats n)).
Proof.
  intros [Hlen Hsorted]. destruct n as [name path size | name path ch err]; simpl;
    [|done].
  split; [rewrite length_take; lia|].
  apply size_sorted_alt, StronglySorted_take, sorted_by_sorted.
  - apply size_ge_total.
  - apply size_ge_trans.
Qed.

Lemma foldl_visit_largest_files nodes : ∀ stats,
  (length (largest_files stats) ≤ 10)%nat ∧ size_sorted (largest_files stats) →
  (length (largest_files (foldl visit stats nodes)) ≤ 10)%nat
  ∧ size_sorted (largest_files (foldl visit stats nodes)).
Proof.
  induction nodes as [|n nodes IH]; intros stats Hinv; simpl; [done|].
  by apply IH, visit_largest_files.
Qed.

(** C7: at every point of the aggregation of any tree, that is after any
    number [k] of visited nodes, [largest_files] has at most 10 entries and
    is sorted by descending size; visiting a file node then yields the first
    10 entries of the list in which the new entry stands behind every entry
    that is at least as large (so an earlier entry of equal size stays
    ahead) and ahead of every smaller one. *)
Theorem C7_largest_files_sorted_and_bounded (tree : Node) (k : nat) :
  let stats := foldl visit initial_stats (take k (preorder tree)) in
  get_stats tree = foldl visit initial_stats (preorder tree)
  ∧ (length (largest_files stats) ≤ 10)%nat
  ∧ size_sorted (largest_files stats)
  ∧ ∀ name path size,
      let after := largest_files (visit stats (File name path size)) in
      after = take 10 (filter (λ y, size ≤ y.2) (largest_files stats)
                       ++ (path, size)
                          :: filter (λ y, y.2 < size) (largest_files stats))
      ∧ (length after ≤ 10)%nat
      ∧ size_sorted after.
Proof.
  intros stats.
  assert ((length (largest_files stats) ≤ 10)%nat
          ∧ size_sorted (largest_files stats)) as Hinv.
  { apply foldl_visit_largest_files. simpl. split; [lia|constructor]. }
  split; [apply count_items_preorder|].
  destruct Hinv as [Hlen Hsorted]. do 2 (split; [done|]).
  intros name path size after. split.
  - subst after. simpl. by rewrite sorted_by_snoc.
  - by apply (visit_largest_files stats (File name path size)).
Qed.

(** ** Extensions *)

Local Abbreviation chars := String.list_ascii_of_string.

Lemma chars_app s t : chars (s +:+ t) = chars s ++ chars t.
Proof. induction s as [|c s IH]; simpl; [done|]. by rewrite IH. Qed.

Lemma contains_false c s :
  Str.contains c s = false ↔ Forall (λ a, Ascii.eqb a c = false) (chars s).
Proof.
  induction s as [|a s IH]; simpl.
  - split; [constructor|done].
  - rewrite orb_false_iff, IH, Forall_cons. done.
Qed.

Lemma rfind_go_absent c l : ∀ i found,
  Forall (λ a, Ascii.eqb a c = false) l → rfind_go c l i found = found.
Proof.
  induction l as [|a l IH]; intros i found Hl; simpl; [done|].
  apply Forall_cons in Hl as [-> Hl]. by apply IH.
Qed.

Lemma rfind_go_last c pre suf : ∀ i found,
  Forall (λ a, Ascii.eqb a c = false) suf →
  rfind_go c (pre ++ c :: suf) i found = i + Z.of_nat (length pre).
Proof.
  induction pre as [|a pre IH]; intros i found Hsuf; simpl.
  - rewrite Ascii.eqb_refl, rfind_go_absent by done. lia.
  - rewrite IH by done. lia.
Qed.

Lemma only_dots_existsb s :
  existsb (λ c, negb (Ascii.eqb c ".")) (chars s) = negb (only_dots s).
Proof.
  induction s as [|c s IH]; simpl; [done|].
  rewrite IH. by destruct (Ascii.eqb c ".").
Qed.

Lemma splitext_no_dot name :
  Str.contains "." name = false → splitext name = (name, "").
Proof.
  intros Hdot%contains_false. unfold splitext, rfind.
  rewrite (rfind_go_absent "." _ 0 (-1) Hdot).
  destruct (_ <? -1) eqn:Hlt; [|done].
  apply Z.ltb_lt in Hlt.
  assert (∀ l i found, -1 ≤ found → 0 ≤ i → -1 ≤ rfind_go "/" l i found) as Hge.
  { induction l as [|a l IH]; intros i found ??; simpl; [done|].
    apply IH; [destruct (Ascii.eqb a "/")|]; lia. }
  specialize (Hge (chars name) 0 (-1)). lia.
Qed.

Lemma splitext_last_dot name pre suf :
  Str.contains "/" name = false →
  name = pre +:+ String "." suf →
  Str.contains "." suf = false →
  (splitext name).2 = if only_dots pre then "" else String "." suf.
Proof.
  intros Hsep%contains_false -> Hsuf%contains_false. unfold splitext, rfind.
  rewrite (rfind_go_absent "/" _ 0 (-1) Hsep), chars_app. simpl chars.
  rewrite rfind_go_last by done.
  replace (-1 <? 0 + Z.of_nat (length (chars pre))) with true
    by (symmetry; apply Z.ltb_lt; lia).
  replace (Z.to_nat (-1 + 1)) with 0%nat by lia.
  replace (Z.to_nat (0 + Z.of_nat (length (chars pre)) - (-1 + 1)))
    with (length (chars pre)) by lia.
  replace (Z.to_nat (0 + Z.of_nat (length (chars pre))))
    with (length (chars pre)) by lia.
  rewrite drop_0, take_app_length, drop_app_length, only_dots_existsb.
  destruct (only_dots pre); simpl; [done|].
  by rewrite String.string_of_list_ascii_of_string.
Qed.

(** C6, in the form that holds of the code: for a file node whose name has no separator, the
    extension is the lower-case second component of [os.path.splitext]: the
    text of the name from its last dot on, provided a character other than
    a dot comes before that dot, and the empty string otherwise (no dot in
    the name, or only dots before the last one).  When the extension is not
    empty both dictionaries are updated under it, and they are left as they
    were when it is empty. *)
Theorem C6_extension_of_file_node (name path : string) (size : Z) (stats : Stats) :
  Str.contains "/" name = false →
  let ext := Str.lower (splitext name).2 in
  let stats' := count_items (File name path size) stats in
  (Str.contains "." name = false → ext = "")
  ∧ (∀ pre suf,
       name = pre +:+ String "." suf → Str.contains "." suf = false →
       ext = if only_dots pre then "" else Str.lower (String "." suf))
  ∧ (ext ≠ "" →
       extensions stats'
       = <[ ext := default 0 (extensions stats !! ext) + 1 ]> (extensions stats)
       ∧ size_by_ext stats'
         = <[ ext := default 0 (size_by_ext stats !! ext) + size ]>
             (size_by_ext stats))
  ∧ (ext = "" →
       extensions stats' = extensions stats
       ∧ size_by_ext stats' = size_by_ext stats).
Proof.
  intros Hsep ext stats'. repeat split.
  - intros Hdot. subst ext. by rewrite splitext_no_dot.
  - intros pre suf Hname Hsuf. subst ext.
    rewrite (splitext_last_dot name pre suf) by done.
    by destruct (only_dots pre).
  - subst stats'. simpl. fold ext. by rewrite decide_False.
  - subst stats'. simpl. fold ext. by rewrite decide_False.
  - subst stats'. simpl. fold ext. by rewrite decide_True.
  - subst stats'. simpl. fold ext. by rewrite decide_True.
Qed.

Lemma C6_extension_of_file_node_witness :
  let stats' := count_items (File "Report.TXT" "docs/Report.TXT" 7) initial_stats in
  Str.lower (splitext "Report.TXT").2 = ".txt"
  ∧ extensions stats' = {[ ".txt" := 1 ]}
  ∧ size_by_ext stats' = {[ ".txt" := 7 ]}.
Proof.
  pose proof (C6_extension_of_file_node "Report.TXT" "docs/Report.TXT" 7
                initial_stats eq_refl) as H.
  cbv zeta in H. destruct H as (_ & Hext & Hmaps & _).
  specialize (Hext "Report" "TXT" eq_refl eq_refl).
  change (Str.lower (splitext "Report.TXT").2 = ".txt") in Hext.
  split; [exact Hext|].
  destruct Hmaps as [He Hs]; [by rewrite Hext|].
  rewrite He, Hs, Hext. simpl.
  by rewrite !lookup_empty, !insert_empty.
Defined.

(** C6 in the wording of the specification does not hold: the name [.bashrc] has its last dot in first
    position, the claim makes [.bashrc] the extension, and the code finds
    no extension and leaves the dictionaries alone. *)
Lemma C6_counterexample_leading_dot :
  ¬ (∀ name pre suf,
       name = pre +:+ String "." suf → Str.contains "." suf = false →
       Str.lower (splitext name).2 = Str.lower (String "." suf)
       ∧ extensions (get_stats (File name name 1)) !! Str.lower (String "." suf)
         = Some 1).
Proof.
  intros H. destruct (H ".bashrc" "" "bashrc" eq_refl eq_refl) as [Hext _].
  vm_compute in Hext. discriminate.
Qed.

(** ** Paths *)

Lemma relative_to_app root rel : relative_to (root ++ rel) root = Ok rel.
Proof.
  induction root as [|r root IH]; simpl; [done|].
  by rewrite decide_True.
Qed.

Lemma relative_to_self root : relative_to root root = Ok [].
Proof. rewrite <- (app_nil_r root) at 1. apply relative_to_app. Qed.

Lemma Path_name_snoc path name : Path_name (path ++ [name]) = name.
Proof. unfold Path_name. by rewrite last_snoc. Qed.

Lemma Path_name_app root rel : rel ≠ [] → Path_name (root ++ rel) = Path_name rel.
Proof.
  intros Hrel. destruct (exists_last Hrel) as (pre & name & ->).
  by rewrite app_assoc, !Path_name_snoc.
Qed.

Lemma pattern_ignores_below root rel dir pattern :
  rel ≠ [] →
  pattern_ignores (root ++ rel) rel dir pattern = pattern_ignores rel rel dir pattern.
Proof. intros Hrel. unfold pattern_ignores. by rewrite Path_name_app. Qed.

Lemma should_ignore_below root rel dir patterns :
  rel ≠ [] →
  should_ignore (root ++ rel) root dir patterns = Ok (ignored rel dir patterns).
Proof.
  intros Hrel. unfold should_ignore, ignored. rewrite relative_to_app. simpl.
  f_equal. induction (elements patterns) as [|pat l IH]; simpl; [done|].
  by rewrite IH, pattern_ignores_below.
Qed.

Lemma ignored_singleton rel dir pattern :
  ignored rel dir {[ pattern ]} = pattern_ignores rel rel dir pattern.
Proof. unfold ignored. rewrite elements_singleton. simpl. apply orb_false_r. Qed.

(** ** Matching against a pattern without wildcards *)

Lemma matches_literal l : ∀ s, matches (map TLit l) s = true ↔ s = l.
Proof.
  induction l as [|c l IH]; intros [|x s]; simpl; try done.
  rewrite andb_true_iff, IH, Ascii.eqb_eq.
  split; [by intros [-> ->]|by intros [= -> ->]].
Qed.

Lemma join_cons sep y l :
  l ≠ [] → Str.join sep (y :: l) = y +:+ String sep (Str.join sep l).
Proof. by destruct l. Qed.

Lemma chars_inj s t : chars s = chars t → s = t.
Proof.
  intros H. rewrite <- (String.string_of_list_ascii_of_string s),
    <- (String.string_of_list_ascii_of_string t). by rewrite H.
Qed.

Lemma fnmatch_build_slash s : fnmatch s "build/" = true ↔ s = "build/".
Proof.
  unfold fnmatch. change (translate "build/") with (map TLit (chars "build/")).
  rewrite matches_literal. split; [apply chars_inj|by intros ->].
Qed.

Lemma chars_join_snoc pre x :
  ∃ l, chars (Str.join "/" (pre ++ [x])) = l ++ chars x.
Proof.
  induction pre as [|y pre [l IH]].
  - by exists [].
  - rewrite <- app_comm_cons, join_cons by (by destruct pre).
    rewrite chars_app. simpl. rewrite IH.
    exists (chars y ++ "/"%char :: l). by rewrite <- app_assoc.
Qed.

Lemma chars_replace old new s :
  chars (Str.replace old new s)
  = map (λ c, if Ascii.eqb c old then new else c) (chars s).
Proof. induction s as [|c s IH]; simpl; [done|]. by rewrite IH. Qed.

Lemma Path_str_snoc_nonempty pre x : Path_str (pre ++ [x]) = Str.join "/" (pre ++ [x]).
Proof. by destruct pre. Qed.

(** The path string of an entry named [build] never equals [build/]. *)
Lemma path_str_build pre :
  fnmatch (Str.replace "\" "/" (Path_str (pre ++ ["build"]))) "build/" = false.
Proof.
  apply not_true_iff_false. rewrite fnmatch_build_slash. intros Heq.
  apply (f_equal chars) in Heq.
  rewrite chars_replace, Path_str_snoc_nonempty in Heq.
  destruct (chars_join_snoc pre "build") as [l Hl]. rewrite Hl in Heq.
  rewrite map_app in Heq. apply (f_equal last) in Heq.
  simpl chars in Heq. cbn [map] in Heq.
  change (map _ l ++ _) with (map (λ c, if Ascii.eqb c "\" then "/"%char else c) l ++ ["b";"u";"i";"l"]%char ++ ["d"%char]) in Heq.
  rewrite !app_assoc, last_snoc in Heq. discriminate.
Qed.

Lemma elem_of_Path_parents parent rel :
  parent ∈ Path_parents rel ↔ ∃ k, (k < length rel)%nat ∧ parent = take k rel.
Proof.
  unfold Path_parents. rewrite list_elem_of_fmap.
  split; intros (k & H1 & H2); exists k.
  - apply elem_of_reverse, elem_of_seq in H2. split; [lia|done].
  - split; [done|]. apply elem_of_reverse, elem_of_seq. lia.
Qed.

Lemma contains_app c s t :
  Str.contains c (s +:+ t) = Str.contains c s || Str.contains c t.
Proof. induction s as [|a s IH]; simpl; [done|]. by rewrite IH, orb_assoc. Qed.

Lemma app_slash_build s : s +:+ "/" = "build/" → s = "build".
Proof.
  intros H%(f_equal chars). rewrite chars_app in H.
  apply chars_inj. by apply (app_inv_tail (chars "/")).
Qed.

(** Only the parent [build] itself, a directory right below the scan root,
    matches the pattern [build/]. *)
Lemma parent_build parent :
  fnmatch (Path_str parent +:+ "/") "build/" = true ↔ parent = ["build"].
Proof.
  rewrite fnmatch_build_slash. split; [|by intros ->].
  intros H%app_slash_build. destruct parent as [|x [|y r]]; simpl in H.
  - discriminate.
  - by subst.
  - apply (f_equal (Str.contains "/")) in H. rewrite contains_app in H.
    simpl in H. by rewrite orb_true_r in H.
Qed.

Lemma parents_build_below rest :
  rest ≠ [] →
  existsb (λ parent, fnmatch (Path_str parent +:+ "/") "build/")
          (Path_parents ("build" :: rest)) = true.
Proof.
  intros Hrest. apply existsb_exists. exists ["build"]. split.
  - apply list_elem_of_In, elem_of_Path_parents. exists 1%nat.
    destruct rest; [done|]. simpl. split; [lia|done].
  - by apply parent_build.
Qed.

Lemma parents_build_elsewhere pre :
  head pre ≠ Some "build" →
  existsb (λ parent, fnmatch (Path_str parent +:+ "/") "build/")
          (Path_parents (pre ++ ["build"])) = false.
Proof.
  intros Hpre. apply not_true_iff_false. intros Hex.
  apply existsb_exists in Hex as (parent & Hin & Hm).
  apply parent_build in Hm as ->.
  apply list_elem_of_In, elem_of_Path_parents in Hin as (k & Hk & Htake).
  destruct pre as [|p pre]; simpl in *.
  - destruct k; [done|lia].
  - destruct k; [done|]. simpl in Htake. by injection Htake as <- _.
Qed.

(** ** [should_ignore] with its query *)

Lemma ignore_step_below root rel kind pattern :
  rel ≠ [] →
  ignore_step (root ++ rel) rel kind pattern = ignore_step rel rel kind pattern.
Proof. intros Hrel. unfold ignore_step. by rewrite Path_name_app. Qed.

Lemma should_ignore_asking_below root rel kind order :
  rel ≠ [] →
  should_ignore_asking (root ++ rel) root kind order
  = ignore_loop rel rel kind order.
Proof.
  intros Hrel. unfold should_ignore_asking. rewrite relative_to_app. simpl.
  induction order as [|pattern order IH]; simpl; [done|].
  by rewrite IH, ignore_step_below.
Qed.

(** When the query answers, a turn of the loop is [pattern_ignores]. *)
Lemma ignore_step_Ok path rel dir pattern :
  ignore_step path rel (Ok dir) pattern
  = Ok (pattern_ignores path rel dir pattern).
Proof.
  unfold ignore_step, pattern_ignores.
  destruct (fnmatch (Str.replace _ _ _) pattern); [done|].
  destruct (Str.endswith pattern "/"); simpl; [|done].
  destruct (dir && fnmatch (Path_name path) (Str.drop_last pattern)); [done|].
  simpl. by destruct (existsb _ _).
Qed.

Lemma ignore_loop_Ok path rel dir order :
  ignore_loop path rel (Ok dir) order
  = Ok (existsb (pattern_ignores path rel dir) order).
Proof.
  induction order as [|pattern order IH]; simpl; [done|].
  rewrite ignore_step_Ok. simpl.
  by destruct (pattern_ignores path rel dir pattern).
Qed.

(** A pattern that does not end with [/] never asks. *)
Lemma ignore_step_no_slash path rel kind pattern :
  Str.endswith pattern "/" = false →
  ignore_step path rel kind pattern
  = Ok (pattern_ignores path rel false pattern).
Proof.
  intros Hend. unfold ignore_step, pattern_ignores. rewrite Hend.
  by destruct (fnmatch (Str.replace _ _ _) pattern).
Qed.

Lemma ignore_loop_no_slash path rel kind order :
  Forall (λ pattern, Str.endswith pattern "/" = false) order →
  ignore_loop path rel kind order
  = Ok (existsb (pattern_ignores path rel false) order).
Proof.
  induction 1 as [|pattern order Hend _ IH]; simpl; [done|].
  rewrite ignore_step_no_slash by done. simpl.
  by destruct (pattern_ignores path rel false pattern).
Qed.

(** A pattern that ends with [/] and does not match directly asks first. *)
Lemma ignore_step_Raise path rel ex pattern :
  fnmatch (Str.replace "\" "/" (Path_str rel)) pattern = false →
  Str.endswith pattern "/" = true →
  ignore_step path rel (Raise ex) pattern = Raise ex.
Proof. intros Hdirect Hend. unfold ignore_step. by rewrite Hdirect, Hend. Qed.

Lemma join_empty sep parts :
  Str.join sep parts = "" → parts = [] ∨ parts = [""].
Proof.
  destruct parts as [|x [|y parts]]; simpl; [by left|by intros ->; right|].
  by destruct x.
Qed.

(** The path string of an entry beneath [build] is longer than [build/]. *)
Lemma path_str_below_build rest :
  rest ≠ [] → "" ∉ rest →
  fnmatch (Str.replace "\" "/" (Path_str ("build" :: rest))) "build/" = false.
Proof.
  intros Hrest Hnames. apply not_true_iff_false.
  rewrite fnmatch_build_slash. intros Heq.
  apply (f_equal (λ s, length (chars s))) in Heq.
  rewrite chars_replace, length_map in Heq.
  change (Path_str ("build" :: rest)) with (Str.join "/" ("build" :: rest)) in Heq.
  rewrite join_cons, chars_app in Heq by done.
  rewrite length_app in Heq. simpl in Heq.
  assert (chars (Str.join "/" rest) = []) as Hnil
    by (destruct (chars (Str.join "/" rest)); [done|simpl in Heq; lia]).
  assert (Str.join "/" rest = "") as Hjoin by (by apply chars_inj).
  apply join_empty in Hjoin as [->| ->]; [done|].
  apply Hnames. by left.
Qed.

(** C3, in the form that holds of the code, with the query [path.is_dir()]
    that [should_ignore] makes where it makes it: with the single pattern
    [*.log], [should_ignore] holds for the relative paths [app.log] and
    [sub/dir/app.log] and fails for [app.logs], and asks nothing; with the
    single pattern [build/] it holds for every directory named [build] and
    for every entry beneath a directory [build] that lies right below the
    scan root, provided the query for the entry answers, and raises what
    the query raises otherwise; it fails for a file named [build] that is
    not beneath such a directory; with the single pattern [temp] it holds
    for every file or directory named [temp], at any depth, and asks
    nothing. *)
Theorem C3_pattern_scenarios (root_path pre : Path) (kind : res bool)
    (dir : bool) :
  should_ignore_asking (root_path ++ ["app.log"]) root_path kind ["*.log"]
  = Ok true
  ∧ should_ignore_asking (root_path ++ ["sub"; "dir"; "app.log"]) root_path kind
      ["*.log"] = Ok true
  ∧ should_ignore_asking (root_path ++ ["app.logs"]) root_path kind ["*.log"]
    = Ok false
  ∧ should_ignore_asking (root_path ++ pre ++ ["build"]) root_path (Ok true)
      ["build/"] = Ok true
  ∧ (∀ rest, rest ≠ [] →
       should_ignore_asking (root_path ++ "build" :: rest) root_path (Ok dir)
         ["build/"] = Ok true)
  ∧ (∀ rest ex, rest ≠ [] → "" ∉ rest →
       should_ignore_asking (root_path ++ "build" :: rest) root_path (Raise ex)
         ["build/"] = Raise ex)
  ∧ (head pre ≠ Some "build" →
       should_ignore_asking (root_path ++ pre ++ ["build"]) root_path (Ok false)
         ["build/"] = Ok false)
  ∧ should_ignore_asking (root_path ++ pre ++ ["temp"]) root_path kind ["temp"]
    = Ok true.
Proof.
  assert (∀ x, pre ++ [x] ≠ []) as Hne by (by destruct pre).
  rewrite !should_ignore_asking_below by done.
  split_and!.
  - reflexivity.
  - reflexivity.
  - reflexivity.
  - rewrite ignore_loop_Ok. f_equal. cbn [existsb]. rewrite orb_false_r.
    unfold pattern_ignores. rewrite Path_name_snoc.
    change (fnmatch "build" (Str.drop_last "build/")) with true.
    change (Str.endswith "build/" "/") with true. simpl.
    by rewrite orb_true_r.
  - intros rest Hrest. rewrite should_ignore_asking_below, ignore_loop_Ok by done.
    f_equal. cbn [existsb]. rewrite orb_false_r. unfold pattern_ignores.
    rewrite parents_build_below by done.
    change (Str.endswith "build/" "/") with true.
    by rewrite orb_true_r, orb_true_r.
  - intros rest ex Hrest Hnames. rewrite should_ignore_asking_below by done.
    cbn [ignore_loop].
    by rewrite ignore_step_Raise by (done || by apply path_str_below_build).
  - intros Hpre. rewrite ignore_loop_Ok. f_equal. cbn [existsb].
    rewrite orb_false_r. unfold pattern_ignores.
    rewrite path_str_build, parents_build_elsewhere, Path_name_snoc by done.
    reflexivity.
  - rewrite ignore_loop_no_slash by (by repeat constructor).
    f_equal. cbn [existsb]. rewrite orb_false_r.
    unfold pattern_ignores. rewrite Path_name_snoc.
    change (fnmatch "temp" "temp") with true. by rewrite orb_true_r.
Qed.

Lemma C3_pattern_scenarios_witness :
  should_ignore_asking ["srv"; "build"; "obj"; "main.o"] ["srv"] (Ok false)
    ["build/"] = Ok true
  ∧ should_ignore_asking ["srv"; "build"; "obj"; "main.o"] ["srv"]
      (Raise PermissionError) ["build/"] = Raise PermissionError
  ∧ should_ignore_asking ["srv"; "docs"; "build"] ["srv"] (Ok false) ["build/"]
    = Ok false.
Proof.
  destruct (C3_pattern_scenarios ["srv"] ["docs"] (Ok false) false)
    as (_ & _ & _ & _ & Hbelow & Hraise & Hfile & _).
  split_and!.
  - apply (Hbelow ["obj"; "main.o"]). discriminate.
  - apply (Hraise ["obj"; "main.o"]); [discriminate|].
    intros Hin. repeat (apply elem_of_cons in Hin as [Hin|Hin]; [discriminate|]).
    by apply elem_of_nil in Hin.
  - apply Hfile. discriminate.
Defined.

(** C3 in the wording of the specification does not hold: a file beneath a
    directory [build] that is not right below the scan root is not ignored
    by [should_ignore] under the pattern [build/], although the query for
    it answers. *)
Lemma C3_counterexample_nested_build :
  ¬ (∀ (root_path pre rest : Path) (dir : bool),
       rest ≠ [] →
       should_ignore_asking (root_path ++ pre ++ "build" :: rest) root_path
         (Ok dir) ["build/"] = Ok true).
Proof.
  intros H. specialize (H ["srv"] ["sub"] ["x.o"] false).
  vm_compute in H. by specialize (H ltac:(discriminate)).
Qed.

(** ** Unfolding the walk *)

Lemma string_leb_total x y : String.leb x y = false → String.leb y x = true.
Proof. destruct (String.leb_total x y) as [->| ->]; done. Qed.

Lemma string_leb_trans x y z :
  String.leb x y = true → String.leb y z = true → String.leb x z = true.
Proof.
  intros H1%Is_true_true H2%Is_true_true. apply Is_true_true.
  by apply (transitivity (R:=String.le) H1 H2).
Qed.

Lemma sorted_by_map {A B} (f : A → B) (le : A → A → bool) (le' : B → B → bool) l :
  (∀ x y, le' (f x) (f y) = le x y) →
  sorted_by le' (map f l) = map f (sorted_by le l).
Proof.
  intros Hle. induction l as [|x l IH]; simpl; [done|].
  rewrite IH. generalize (sorted_by le l) as s.
  induction s as [|y s IHs]; simpl; [done|].
  rewrite Hle. destruct (le x y); simpl; [done|]. by rewrite IHs.
Qed.

(** Among distinct names, a name has one entry. *)
Lemma NoDup_fst_unique {A B} (l : list (A * B)) k v1 v2 :
  NoDup l.*1 → (k, v1) ∈ l → (k, v2) ∈ l → v1 = v2.
Proof.
  induction l as [|[k' v] l IH]; intros Hnd Hin1 Hin2;
    [by apply elem_of_nil in Hin1|].
  simpl in Hnd. apply NoDup_cons in Hnd as [Hk Hnd].
  apply elem_of_cons in Hin1 as [[= -> ->]|Hin1];
    apply elem_of_cons in Hin2 as [[= ->]|Hin2]; try done.
  - exfalso. apply Hk, list_elem_of_fmap. by exists (k', v2).
  - subst. exfalso. apply Hk, list_elem_of_fmap. by exists (k', v1).
  - by apply IH.
Qed.

(** With distinct names the sorted listing does not depend on the order in
    which the host lists the directory. *)
Lemma sorted_by_entry_le_Permutation (l1 l2 : list (string * Entry)) :
  NoDup l1.*1 → l1 ≡ₚ l2 → sorted_by entry_le l1 = sorted_by entry_le l2.
Proof.
  intros Hnd Hperm.
  assert (∀ l, StronglySorted (λ x y, entry_le x y = true) (sorted_by entry_le l))
    as Hsorted.
  { intros l. apply sorted_by_sorted; unfold entry_le.
    - intros x y. apply string_leb_total.
    - intros x y z. apply string_leb_trans. }
  eapply StronglySorted_unique_strong; [|apply Hsorted..|].
  - intros [n1 e1] [n2 e2] Hin1 Hin2 H12 H21. unfold entry_le in *. simpl in *.
    assert (n1 = n2) as <- by by apply String.leb_antisym.
    f_equal. rewrite sorted_by_Permutation in Hin1.
    rewrite sorted_by_Permutation, <- Hperm in Hin2.
    by eapply NoDup_fst_unique.
  - by rewrite !sorted_by_Permutation.
Qed.

Lemma scan_directory_EDir listing root rel patterns :
  scan_directory (EDir listing) (root ++ rel) root patterns
  = match scan_items (root ++ rel) root patterns
            (items_of root rel patterns (sorted_by entry_le listing)) [] with
    | (children, None) =>
        Ok (Directory (Path_name (root ++ rel)) (Path_str rel) children None)
    | (children, Some PermissionError) =>
        Ok (Directory (Path_name (root ++ rel)) (Path_str rel) children
              (Some permission_denied))
    | (_, Some ex) => Raise ex
    end.
Proof.
  simpl. rewrite relative_to_app. simpl. unfold joinpath.
  rewrite (sorted_by_map _ entry_le item_le) by done.
  unfold items_of. erewrite map_ext; [reflexivity|].
  intros it. simpl. by rewrite <- app_assoc.
Qed.

Lemma items_of_cons root rel patterns name e sl :
  items_of root rel patterns ((name, e) :: sl)
  = (name, e, scan_directory e (root ++ rel ++ [name]) root patterns)
    :: items_of root rel patterns sl.
Proof. done. Qed.

Lemma scan_directory_EDirErr ex root rel patterns :
  scan_directory (EDirErr ex) (root ++ rel) root patterns
  = if decide (ex = PermissionError)
    then Ok (Directory (Path_name (root ++ rel)) (Path_str rel) []
               (Some permission_denied))
    else Raise ex.
Proof. simpl. rewrite relative_to_app. by destruct ex. Qed.

Lemma scan_directory_EFile st root rel patterns :
  scan_directory (EFile st) (root ++ rel) root patterns = Raise NotADirectoryError.
Proof. simpl. by rewrite relative_to_app. Qed.

(** One turn of the loop, for an item below the scan root. *)
Lemma scan_items_cons root rel patterns name e sub rest children :
  scan_items (root ++ rel) root patterns ((name, e, sub) :: rest) children
  = if ignored (rel ++ [name]) (is_dir e) patterns
    then scan_items (root ++ rel) root patterns rest children
    else match e with
         | EFile (Ok size) =>
             scan_items (root ++ rel) root patterns rest
               (children ++ [File name (Path_str (rel ++ [name])) size])
         | EFile (Raise ex) => (children, Some ex)
         | _ =>
             match sub with
             | Ok node =>
                 scan_items (root ++ rel) root patterns rest (children ++ [node])
             | Raise ex => (children, Some ex)
             end
         end.
Proof.
  simpl. unfold joinpath. rewrite <- app_assoc.
  rewrite should_ignore_below, relative_to_app by (by destruct rel).
  destruct (ignored _ _ _); [done|]. by destruct e as [[]| |].
Qed.

(** ** The scenario of the specification *)

(** C1, in the form that holds of the code: for a root that contains [a.txt] of 10 bytes, a directory
    [b] with [c.txt] of 20 bytes and an empty directory [d], listed in any
    order, and the single pattern [b/], the scan keeps [a.txt] and [d], and
    the aggregation yields 1 file, 2 directories, a total size of 10 and a
    maximal depth of 1: the root has no path segment and [d] has one. *)
Theorem C1_scenario_statistics (root_path : Path) (listing : list (string * Entry)) :
  listing ≡ₚ scenario_listing →
  let tree :=
    Directory (Path_name root_path) "."
      [File "a.txt" "a.txt" 10; Directory "d" "d" [] None] None in
  scan_directory (EDir listing) root_path root_path {[ "b/" ]} = Ok tree
  ∧ files (get_stats tree) = 1
  ∧ directories (get_stats tree) = 2
  ∧ total_size (get_stats tree) = 10
  ∧ max_depth (get_stats tree) = 1.
Proof.
  intros Hperm tree. split; [|by vm_compute].
  replace (scan_directory (EDir listing) root_path root_path)
    with (scan_directory (EDir listing) (root_path ++ []) root_path)
    by (by rewrite app_nil_r).
  rewrite scan_directory_EDir.
  rewrite (sorted_by_entry_le_Permutation listing scenario_listing);
    [|rewrite Hperm; by apply (bool_decide_unpack _)|done].
  change (sorted_by entry_le scenario_listing) with scenario_listing.
  unfold scenario_listing, items_of. cbn [map fst snd].
  rewrite !scan_items_cons, !ignored_singleton. cbn [is_dir].
  assert (pattern_ignores ([] ++ ["a.txt"]) ([] ++ ["a.txt"]) false "b/" = false)
    as -> by reflexivity.
  assert (pattern_ignores ([] ++ ["b"]) ([] ++ ["b"]) true "b/" = true)
    as -> by reflexivity.
  assert (pattern_ignores ([] ++ ["d"]) ([] ++ ["d"]) true "b/" = false)
    as -> by reflexivity.
  rewrite scan_directory_EDir. unfold items_of.
  cbn [sorted_by foldr map scan_items].
  cbn [app]. by rewrite app_nil_r, Path_name_snoc.
Qed.

Lemma C1_scenario_statistics_witness :
  ∃ tree,
    scan_directory
      (EDir [("d", EDir []); ("a.txt", EFile (Ok 10));
             ("b", EDir [("c.txt", EFile (Ok 20))])])
      ["home"; "kavin"; "project"] ["home"; "kavin"; "project"] {[ "b/" ]}
    = Ok tree
    ∧ directories (get_stats tree) = 2
    ∧ max_depth (get_stats tree) = 1.
Proof.
  eexists. 
  edestruct (C1_scenario_statistics ["home"; "kavin"; "project"]
               [("d", EDir []); ("a.txt", EFile (Ok 10));
                ("b", EDir [("c.txt", EFile (Ok 20))])])
    as (Hscan & _ & Hdirs & _ & Hdepth).
  - unfold scenario_listing.
    etrans; [apply Permutation_cons_append|]. done.
  - split; [exact Hscan|]. split; [exact Hdirs|exact Hdepth].
Defined.

(** C1 in the wording of the specification does not hold, for its last
    figure: the maximal depth of the
    scenario is not 2. *)
Lemma C1_counterexample_max_depth :
  ∃ tree,
    scan_directory (EDir scenario_listing) ["home"; "kavin"; "project"]
      ["home"; "kavin"; "project"] {[ "b/" ]} = Ok tree
    ∧ files (get_stats tree) = 1
    ∧ directories (get_stats tree) = 2
    ∧ total_size (get_stats tree) = 10
    ∧ max_depth (get_stats tree) ≠ 2.
Proof.
  eexists. split; [by vm_compute|]. by vm_compute.
Qed.

(** ** Failures during the walk *)

(** Whatever the filesystem, a scan that returns yields a directory node
    for the path it was started at. *)
Lemma scan_directory_shape e root rel patterns tree :
  scan_directory e (root ++ rel) root patterns = Ok tree →
  ∃ children error,
    tree = Directory (Path_name (root ++ rel)) (Path_str rel) children error.
Proof.
  destruct e as [st|listing|ex].
  - by rewrite scan_directory_EFile.
  - rewrite scan_directory_EDir.
    destruct (scan_items _ _ _ _ _) as [children [[]|]]; intros [= <-]; eauto.
  - rewrite scan_directory_EDirErr. case_decide; intros [= <-]; eauto.
Qed.

Lemma scan_items_recoverable root rel patterns sl : ∀ children,
  Forall (λ it : string * Entry,
            recoverable it.2 = true
            ∧ (is_dir it.2 = true →
               ∃ node, scan_directory it.2 (root ++ rel ++ [it.1]) root patterns
                       = Ok node)) sl →
  ∃ children',
    scan_items (root ++ rel) root patterns (items_of root rel patterns sl) children
    = (children', None)
    ∨ scan_items (root ++ rel) root patterns (items_of root rel patterns sl) children
      = (children', Some PermissionError).
Proof.
  induction sl as [|[name e] sl IH]; intros children Hall.
  - exists children. by left.
  - apply Forall_cons in Hall as [[Hrec Hsub] Hall]. simpl in Hrec, Hsub.
    rewrite items_of_cons, scan_items_cons. destruct (ignored _ _ _); [by apply IH|].
    destruct e as [[size|ex]|listing|ex]; simpl in Hrec.
    + by apply IH.
    + apply bool_decide_eq_true in Hrec as ->. exists children. by right.
    + destruct Hsub as [node ->]; [done|]. by apply IH.
    + destruct Hsub as [node ->]; [done|]. by apply IH.
Qed.

Lemma scan_directory_recoverable e : ∀ root rel patterns,
  is_dir e = true → recoverable e = true →
  ∃ node, scan_directory e (root ++ rel) root patterns = Ok node.
Proof.
  induction e as [st|listing IH|ex] using Entry_ind;
    intros root rel patterns Hdir Hrec; simpl in Hdir, Hrec.
  - done.
  - rewrite scan_directory_EDir.
    destruct (scan_items_recoverable root rel patterns
                (sorted_by entry_le listing) []) as [children [-> | ->]]; eauto.
    rewrite sorted_by_Permutation.
    rewrite forallb_forall in Hrec. apply Forall_forall. intros it Hin.
    split; [by apply Hrec, list_elem_of_In|].
    intros Hd.
    eapply Forall_forall in IH; [|exact Hin]. apply IH; [done|].
    by apply Hrec, list_elem_of_In.
  - apply bool_decide_eq_true in Hrec as ->. rewrite scan_directory_EDirErr.
    rewrite decide_True by done. eauto.
Qed.

Lemma scan_items_app root rel patterns items1 items2 : ∀ children,
  scan_items (root ++ rel) root patterns (items1 ++ items2) children
  = match scan_items (root ++ rel) root patterns items1 children with
    | (children', None) =>
        scan_items (root ++ rel) root patterns items2 children'
    | stopped => stopped
    end.
Proof.
  induction items1 as [|[[name e] sub] items1 IH]; intros children; [done|].
  rewrite <- app_comm_cons, !scan_items_cons.
  destruct (ignored _ _ _); [by apply IH|].
  destruct e as [[size|ex]|listing|ex]; try done; by destruct sub.
Qed.

Lemma insert_by_split {A} (le : A → A → bool) x s :
  ∃ pre post, insert_by le x s = pre ++ x :: post ∧ s = pre ++ post.
Proof.
  induction s as [|y s (pre & post & Hins & Hs)]; simpl.
  - by exists [], [].
  - destruct (le x y).
    + by exists [], (y :: s).
    + exists (y :: pre), post. by rewrite Hins, Hs.
Qed.

Lemma error_free_scan e : ∀ root rel patterns,
  is_dir e = true → error_free e = true →
  ∃ children,
    scan_directory e (root ++ rel) root patterns
    = Ok (Directory (Path_name (root ++ rel)) (Path_str rel) children None).
Proof.
  induction e as [st|listing IH|ex] using Entry_ind;
    intros root rel patterns Hdir Hfree; simpl in Hdir, Hfree; [done| |done].
  rewrite scan_directory_EDir. rewrite forallb_forall in Hfree.
  assert (∀ sl children,
            Forall (λ it : string * Entry, it ∈ listing) sl →
            ∃ children',
              scan_items (root ++ rel) root patterns
                (items_of root rel patterns sl) children = (children', None))
    as Hloop.
  { induction sl as [|[name e] sl IHsl]; intros children Hsl; [by eexists|].
    apply Forall_cons in Hsl as [Hin Hsl].
    rewrite items_of_cons, scan_items_cons.
    destruct (ignored _ _ _); [by apply IHsl|].
    pose proof (Hfree _ (proj1 (list_elem_of_In _ _) Hin)) as He. simpl in He.
    eapply Forall_forall in IH; [|exact Hin]. simpl in IH.
    destruct e as [[size|ex]|sub_listing|ex]; try done; [by apply IHsl|].
    destruct (IH root (rel ++ [name]) patterns eq_refl He) as [ch ->].
    by apply IHsl. }
  destruct (Hloop (sorted_by entry_le listing) []) as [children ->]; [|eauto].
  rewrite sorted_by_Permutation. by apply Forall_forall.
Qed.

(** A size query that raises anything but a denial, on a file of the root
    that no pattern matches, among entries in which nothing raises: the
    scan raises that exception. *)
Lemma scan_directory_propagates listing name ex root patterns :
  ex ≠ PermissionError →
  forallb (λ it, error_free it.2) listing = true →
  ignored [name] false patterns = false →
  scan_directory (EDir ((name, EFile (Raise ex)) :: listing)) root root patterns
  = Raise ex.
Proof.
  intros Hex Hfree Hkeep. rewrite forallb_forall in Hfree.
  pose proof (scan_directory_EDir ((name, EFile (Raise ex)) :: listing) root []
                patterns) as Hscan.
  rewrite app_nil_r in Hscan. rewrite Hscan. clear Hscan. simpl sorted_by.
  destruct (insert_by_split entry_le (name, EFile (Raise ex))
              (sorted_by entry_le listing)) as (pre & post & -> & Hsorted).
  unfold items_of. rewrite map_app. fold (items_of root [] patterns pre).
  pose proof (scan_items_app root [] patterns) as Happ.
  rewrite app_nil_r in Happ. rewrite Happ. clear Happ.
  assert (∃ children,
            scan_items root root patterns (items_of root [] patterns pre) []
            = (children, None)) as [children ->].
  { assert (Forall (λ it : string * Entry, error_free it.2 = true) pre) as Hpre.
    { apply Forall_forall. intros it Hin. apply Hfree, list_elem_of_In.
      rewrite <- (sorted_by_Permutation entry_le listing), Hsorted.
      apply elem_of_app. by left. }
    clear -Hpre. generalize (@nil Node) as children.
    induction pre as [|[n e] pre IH]; intros children; [by eexists|].
    apply Forall_cons in Hpre as [He Hpre]. simpl in He.
    pose proof (scan_items_cons root [] patterns n e) as Hcons.
    rewrite app_nil_r in Hcons. rewrite items_of_cons, Hcons.
    destruct (ignored _ _ _); [by apply IH|].
    destruct e as [[size|ex]|sub_listing|ex]; try done; [by apply IH|].
    destruct (error_free_scan (EDir sub_listing) root ([] ++ [n]) patterns
                eq_refl He) as [ch ->].
    by apply IH. }
  cbn [map fst snd].
  pose proof (scan_items_cons root [] patterns name (EFile (Raise ex))) as Hcons.
  rewrite app_nil_r in Hcons. rewrite Hcons. cbn [app is_dir].
  rewrite Hkeep. by destruct ex.
Qed.

(** C5, in the form that holds of the code: a scan of a directory does not
    fail when every listing and every size query at or below the root
    either answers or is denied: a denial only sets the error marker of the
    directory in which it happens.  No other exception is handled: a root
    that does not exist makes the invocation fail, and so does a size query
    that raises anything but a denial (the not-found error of a broken
    link) on a file of the root that no pattern matches, whatever the
    other entries of the root are, as long as nothing raises in them. *)
Theorem C5_failures_of_the_scan (fs : Entry) (root_path : Path)
    (patterns : gset string) (listing : list (string * Entry))
    (name : string) (ex : exn) :
  (is_dir fs = true → recoverable fs = true →
   ∃ tree, scan_directory fs root_path root_path patterns = Ok tree)
  ∧ scan_directory (EDirErr FileNotFoundError) root_path root_path patterns
    = Raise FileNotFoundError
  ∧ (ex ≠ PermissionError →
     forallb (λ it, error_free it.2) listing = true →
     ignored [name] false patterns = false →
     scan_directory (EDir ((name, EFile (Raise ex)) :: listing))
       root_path root_path patterns
     = Raise ex).
Proof.
  replace (scan_directory fs root_path root_path)
    with (scan_directory fs (root_path ++ []) root_path)
    by (by rewrite app_nil_r).
  split_and!.
  - apply scan_directory_recoverable.
  - pose proof (scan_directory_EDirErr FileNotFoundError root_path [] patterns)
      as H. by rewrite app_nil_r in H.
  - apply scan_directory_propagates.
Qed.

Lemma C5_failures_of_the_scan_witness :
  (∃ tree,
     scan_directory
       (EDir [("locked", EDirErr PermissionError); ("notes.md", EFile (Ok 3))])
       ["srv"] ["srv"] ∅ = Ok tree)
  ∧ scan_directory
      (EDir [("dangling", EFile (Raise FileNotFoundError));
             ("a.txt", EFile (Ok 1)); ("z", EDir [("y", EFile (Ok 2))])])
      ["srv"] ["srv"] ∅ = Raise FileNotFoundError.
Proof.
  split.
  - apply (C5_failures_of_the_scan
             (EDir [("locked", EDirErr PermissionError);
                    ("notes.md", EFile (Ok 3))]) ["srv"] ∅ [] "x" OSError);
      reflexivity.
  - apply (C5_failures_of_the_scan (EDir []) ["srv"] ∅
             [("a.txt", EFile (Ok 1)); ("z", EDir [("y", EFile (Ok 2))])]
             "dangling" FileNotFoundError); [discriminate|reflexivity..].
Defined.

(** C5 in the wording of the specification does not hold: a root that exists and can be listed, with one
    broken link in it, makes the scan raise. *)
Lemma C5_counterexample_broken_link :
  ¬ (∀ (listing : list (string * Entry)) (root_path : Path)
       (patterns : gset string),
       ∃ tree, scan_directory (EDir listing) root_path root_path patterns
               = Ok tree).
Proof.
  intros H.
  destruct (H [("dangling", EFile (Raise FileNotFoundError))] ["srv"] ∅)
    as [tree Htree].
  vm_compute in Htree. discriminate.
Qed.

(** ** The root of the scan *)

Lemma fnmatch_star s : fnmatch s "*" = true.
Proof.
  unfold fnmatch. change (translate "*") with [TStar].
  generalize (chars s) as l. induction l as [|c l IH]; [done|exact IH].
Qed.

Lemma ignored_star rel dir : ignored rel dir {[ "*" ]} = true.
Proof.
  rewrite ignored_singleton. unfold pattern_ignores. by rewrite fnmatch_star.
Qed.

Lemma scan_items_all_ignored root rel sl : ∀ children,
  scan_items (root ++ rel) root {[ "*" ]} (items_of root rel {[ "*" ]} sl) children
  = (children, None).
Proof.
  induction sl as [|[name e] sl IH]; intros children; [done|].
  by rewrite items_of_cons, scan_items_cons, ignored_star.
Qed.

(** C9: [scan] starts [scan_directory] at the root without consulting the
    patterns, so whatever the patterns are, a scan that returns yields the
    directory node of the root (its name, the path [.]); it does return
    when nothing at or below the root raises anything but a denial; and
    with the pattern [*], which matches the name of the root as it
    matches every name, the root node is still returned, with every entry
    below it filtered out. *)
Theorem C9_root_is_never_filtered (fs : Entry) (root_path : Path)
    (patterns : gset string) (dirignore : option (list string)) :
  (∀ tree, scan_directory fs root_path root_path patterns = Ok tree →
     ∃ children error,
       tree = Directory (Path_name root_path) "." children error)
  ∧ (is_dir fs = true → recoverable fs = true →
     (∃ children error,
        scan_directory fs root_path root_path patterns
        = Ok (Directory (Path_name root_path) "." children error))
     ∧ ∃ children error,
         scan fs root_path dirignore
         = Ok (Directory (Path_name root_path) "." children error))
  ∧ fnmatch (Path_name root_path) "*" = true
  ∧ ∀ listing,
      scan_directory (EDir listing) root_path root_path {[ "*" ]}
      = Ok (Directory (Path_name root_path) "." [] None).
Proof.
  assert (∀ pats tree, scan_directory fs root_path root_path pats = Ok tree →
            ∃ children error,
              tree = Directory (Path_name root_path) "." children error)
    as Hshape.
  { intros pats tree Htree.
    pose proof (scan_directory_shape fs root_path [] pats tree) as H.
    rewrite app_nil_r in H. by apply H. }
  assert (∀ pats, is_dir fs = true → recoverable fs = true →
            ∃ children error,
              scan_directory fs root_path root_path pats
              = Ok (Directory (Path_name root_path) "." children error))
    as Hreturns.
  { intros pats Hdir Hrec.
    pose proof (scan_directory_recoverable fs root_path [] pats Hdir Hrec)
      as [tree Htree].
    rewrite app_nil_r in Htree.
    destruct (Hshape pats tree Htree) as (children & error & ->). eauto. }
  split_and!.
  - apply Hshape.
  - intros Hdir Hrec. split; [by apply Hreturns|]. unfold scan.
    by apply Hreturns.
  - apply fnmatch_star.
  - intros listing.
    pose proof (scan_directory_EDir listing root_path [] {[ "*" ]}) as H.
    rewrite scan_items_all_ignored in H. by rewrite app_nil_r in H.
Qed.

Lemma C9_root_is_never_filtered_witness :
  ∃ children error,
    scan (EDir [("build", EDir [("build", EFile (Ok 1))])]) ["work"; "build"]
      (Some ["# outputs"; "build"; ""])
    = Ok (Directory "build" "." children error).
Proof.
  apply (C9_root_is_never_filtered
           (EDir [("build", EDir [("build", EFile (Ok 1))])]) ["work"; "build"]
           ∅ (Some ["# outputs"; "build"; ""])); reflexivity.
Defined.

(** ** Directories whose listing is denied *)

Lemma count_items_erase_error n : ∀ stats,
  count_items (erase_error n) stats = count_items n stats.
Proof.
  induction n as [name path size | name path children error IH] using Node_ind;
    intros stats; simpl; [done|].
  generalize (count_dir path stats) as st.
  induction IH as [|c l Hc _ IHl]; intros st; simpl; [done|].
  by rewrite Hc, IHl.
Qed.

Lemma is_dir_undeny e : is_dir (undeny e) = is_dir e.
Proof. by destruct e as [| |[]]. Qed.

Lemma scan_items_undeny root rel patterns sl : ∀ children children',
  Forall (λ it : string * Entry, ∀ rel',
            erase_error <$> scan_directory it.2 (root ++ rel') root patterns
            = erase_error <$> scan_directory (undeny it.2) (root ++ rel') root
                                patterns) sl →
  map erase_error children = map erase_error children' →
  let r := scan_items (root ++ rel) root patterns
             (items_of root rel patterns sl) children in
  let r' := scan_items (root ++ rel) root patterns
              (items_of root rel patterns
                 (map (λ it, (it.1, undeny it.2)) sl)) children' in
  map erase_error r.1 = map erase_error r'.1 ∧ r.2 = r'.2.
Proof.
  induction sl as [|[name e] sl IH]; intros children children' Hall Hch; [done|].
  apply Forall_cons in Hall as [Hsub Hall]. simpl in Hsub.
  cbn [map fst snd]. rewrite !items_of_cons, !scan_items_cons, is_dir_undeny.
  destruct (ignored _ _ _); [by apply IH|].
  specialize (Hsub (rel ++ [name])).
  assert (∀ node node' : Node, erase_error node = erase_error node' →
            map erase_error (children ++ [node])
            = map erase_error (children' ++ [node'])) as Hsnoc.
  { intros node node' Hn. by rewrite !map_app, Hch; simpl; rewrite Hn. }
  destruct e as [[size|ex]|listing|ex].
  - simpl undeny. by apply IH, Hsnoc.
  - done.
  - destruct (scan_directory (EDir listing) _ _ _) as [node|ex],
      (scan_directory (undeny (EDir listing)) _ _ _) as [node'|ex'];
      simplify_eq/=; [|done].
    apply IH; [done|]. by apply Hsnoc.
  - destruct (scan_directory (EDirErr ex) _ _ _) as [node|ex1],
      (scan_directory (undeny (EDirErr ex)) _ _ _) as [node'|ex1'];
      simplify_eq/=; destruct ex; simplify_eq/=; try done;
      apply IH; try done; by apply Hsnoc.
Qed.

Lemma scan_directory_undeny e : ∀ root rel patterns,
  erase_error <$> scan_directory e (root ++ rel) root patterns
  = erase_error <$> scan_directory (undeny e) (root ++ rel) root patterns.
Proof.
  induction e as [st|listing IH|ex] using Entry_ind; intros root rel patterns.
  - done.
  - simpl undeny. rewrite !scan_directory_EDir.
    rewrite (sorted_by_map (λ it, (it.1, undeny it.2)) entry_le entry_le) by done.
    pose proof (scan_items_undeny root rel patterns (sorted_by entry_le listing)
                  [] []) as H.
    cbv zeta in H. destruct H as [Hch Hex]; [|done|].
    { rewrite sorted_by_Permutation.
      eapply Forall_impl; [exact IH|]. intros it Hit rel'. apply Hit. }
    destruct (scan_items _ _ _ (items_of _ _ _ (sorted_by _ _)) _)
      as [children o],
      (scan_items _ _ _ (items_of _ _ _ (map _ _)) _) as [children' o'].
    simpl in Hch, Hex. subst o'.
    destruct o as [[]|]; simpl; by rewrite ?Hch.
  - rewrite scan_directory_EDirErr. destruct ex; simpl undeny;
      rewrite ?scan_directory_EDirErr, ?scan_directory_EDir; done.
Qed.

Lemma scan_directory_not_PermissionError e root rel patterns :
  scan_directory e (root ++ rel) root patterns ≠ Raise PermissionError.
Proof.
  destruct e as [st|listing|ex].
  - by rewrite scan_directory_EFile.
  - rewrite scan_directory_EDir.
    by destruct (scan_items _ _ _ _ _) as [children [[]|]].
  - rewrite scan_directory_EDirErr. case_decide; [done|congruence].
Qed.

Lemma Forall_preorder_children (P : Node → Prop) children :
  Forall P (foldr (λ c l, preorder c ++ l) [] children)
  ↔ Forall (λ c, Forall P (preorder c)) children.
Proof.
  induction children as [|c l IH]; simpl.
  - split; constructor.
  - by rewrite Forall_app, Forall_cons, IH.
Qed.

Lemma scan_items_markers root rel patterns sl : ∀ children,
  Forall (λ it : string * Entry,
            no_denied_size it.2 = true
            ∧ ∀ node,
                scan_directory it.2 (root ++ rel ++ [it.1]) root patterns
                = Ok node → markers_childless node) sl →
  Forall markers_childless children →
  let r := scan_items (root ++ rel) root patterns
             (items_of root rel patterns sl) children in
  Forall markers_childless r.1 ∧ r.2 ≠ Some PermissionError.
Proof.
  induction sl as [|[name e] sl IH]; intros children Hall Hch; [done|].
  apply Forall_cons in Hall as [[Hsize Hsub] Hall]. simpl in Hsize, Hsub.
  rewrite items_of_cons, scan_items_cons.
  destruct (ignored _ _ _); [by apply IH|].
  assert (∀ node, markers_childless node →
            Forall markers_childless (children ++ [node])) as Hsnoc.
  { intros node Hnode. apply Forall_app. split; [done|]. by constructor. }
  destruct e as [[size|ex]|listing|ex].
  - apply IH; [done|]. apply Hsnoc. by repeat constructor.
  - simpl. split; [done|]. by destruct ex.
  - destruct (scan_directory (EDir listing) _ _ _) as [node|ex] eqn:Hscan.
    + apply IH; [done|]. by apply Hsnoc, Hsub.
    + simpl. split; [done|]. intros [= ->].
      by apply scan_directory_not_PermissionError in Hscan.
  - destruct (scan_directory (EDirErr ex) _ _ _) as [node|ex'] eqn:Hscan.
    + apply IH; [done|]. by apply Hsnoc, Hsub.
    + simpl. split; [done|]. intros [= ->].
      by apply scan_directory_not_PermissionError in Hscan.
Qed.

Lemma scan_directory_markers e : ∀ root rel patterns tree,
  no_denied_size e = true →
  scan_directory e (root ++ rel) root patterns = Ok tree →
  markers_childless tree.
Proof.
  induction e as [st|listing IH|ex] using Entry_ind;
    intros root rel patterns tree Hsize.
  - by rewrite scan_directory_EFile.
  - rewrite scan_directory_EDir.
    pose proof (scan_items_markers root rel patterns (sorted_by entry_le listing)
                  []) as H.
    cbv zeta in H. destruct H as [Hch Hex]; [|done|].
    { rewrite sorted_by_Permutation. simpl in Hsize.
      rewrite forallb_forall in Hsize.
      apply Forall_forall. intros it Hin. split; [by apply Hsize, list_elem_of_In|].
      intros node. eapply Forall_forall in IH; [|exact Hin].
      apply IH. by apply Hsize, list_elem_of_In. }
    destruct (scan_items _ _ _ _ _) as [children o]. simpl in Hch, Hex.
    destruct o as [[]|]; try done.
    intros [= <-]. unfold markers_childless. simpl.
    constructor; [by destruct children|]. by apply Forall_preorder_children.
  - rewrite scan_directory_EDirErr. case_decide; [|done].
    intros [= <-]. by repeat constructor.
Qed.

(** C4, in the form that holds of the code: a directory whose listing is denied yields a node with
    the error marker and no children, and the failure is not fatal: the
    loop of the enclosing directory appends that node and goes on with the
    remaining entries, and the whole scan returns the tree (the markers
    apart) and the statistics of the same filesystem with an empty
    directory in place of every denied one.  A node with the marker has no
    children as long as no size query is denied. *)
Theorem C4_denied_listing_is_not_fatal (fs : Entry) (root_path rel : Path)
    (patterns : gset string) (name : string) (rest : list Item)
    (children : list Node) :
  scan_directory (EDirErr PermissionError) (root_path ++ rel) root_path patterns
  = Ok (Directory (Path_name (root_path ++ rel)) (Path_str rel) []
          (Some permission_denied))
  ∧ (ignored (rel ++ [name]) true patterns = false →
     scan_items (root_path ++ rel) root_path patterns
       ((name, EDirErr PermissionError,
         scan_directory (EDirErr PermissionError) (root_path ++ rel ++ [name])
           root_path patterns) :: rest) children
     = scan_items (root_path ++ rel) root_path patterns rest
         (children ++ [Directory name (Path_str (rel ++ [name])) []
                         (Some permission_denied)]))
  ∧ erase_error <$> scan_directory fs root_path root_path patterns
    = erase_error <$> scan_directory (undeny fs) root_path root_path patterns
  ∧ get_stats <$> scan_directory fs root_path root_path patterns
    = get_stats <$> scan_directory (undeny fs) root_path root_path patterns
  ∧ (no_denied_size fs = true →
     ∀ tree, scan_directory fs root_path root_path patterns = Ok tree →
       markers_childless tree).
Proof.
  assert (erase_error <$> scan_directory fs root_path root_path patterns
          = erase_error <$> scan_directory (undeny fs) root_path root_path
                              patterns) as Herase.
  { pose proof (scan_directory_undeny fs root_path [] patterns) as H.
    by rewrite app_nil_r in H. }
  split_and!.
  - by rewrite scan_directory_EDirErr, decide_True.
  - intros Hkeep.
    rewrite scan_items_cons. cbn [is_dir].
    rewrite Hkeep, scan_directory_EDirErr, decide_True by done.
    by rewrite app_assoc, Path_name_snoc.
  - exact Herase.
  - destruct (scan_directory fs _ _ _) as [tree|ex],
      (scan_directory (undeny fs) _ _ _) as [tree'|ex']; simplify_eq/=; [|done].
    f_equal. unfold get_stats.
    by rewrite <- (count_items_erase_error tree), Herase, count_items_erase_error.
  - intros Hsize tree Htree.
    apply (scan_directory_markers fs root_path [] patterns); [done|].
    by rewrite app_nil_r.
Qed.

Lemma C4_denied_listing_is_not_fatal_witness :
  let fs := EDir [("a.txt", EFile (Ok 4)); ("locked", EDirErr PermissionError);
                  ("z.txt", EFile (Ok 6))] in
  let denied := Directory "locked" "locked" [] (Some permission_denied) in
  scan_items ["srv"] ["srv"] ∅
    [("locked", EDirErr PermissionError, Ok denied);
     ("z.txt", EFile (Ok 6), Raise NotADirectoryError)]
    [File "a.txt" "a.txt" 4]
  = ([File "a.txt" "a.txt" 4; denied; File "z.txt" "z.txt" 6], None)
  ∧ ∃ tree,
      scan_directory fs ["srv"] ["srv"] ∅ = Ok tree
      ∧ tree = Directory "srv" "."
                 [File "a.txt" "a.txt" 4; denied; File "z.txt" "z.txt" 6] None
      ∧ markers_childless tree
      ∧ files (get_stats tree) = 2
      ∧ total_size (get_stats tree) = 10.
Proof.
  intros fs denied.
  destruct (C4_denied_listing_is_not_fatal fs ["srv"] [] ∅ "locked"
              [("z.txt", EFile (Ok 6), Raise NotADirectoryError)]
              [File "a.txt" "a.txt" 4])
    as (_ & Hloop & _ & _ & Hmarkers).
  split.
  - etrans; [apply Hloop; reflexivity|]. by vm_compute.
  - eexists. split; [by vm_compute|]. split; [done|].
    split; [|by vm_compute]. apply Hmarkers; reflexivity.
Defined.

(** C4 in the wording of the specification does not hold, in its second
    form: a node with the error marker
    can have children.  A denied size query sets the marker of the
    directory that is being listed, and the children appended before stay. *)
Lemma C4_counterexample_marker_with_children :
  ¬ (∀ (fs : Entry) (root_path : Path) (patterns : gset string) (tree : Node),
       scan_directory fs root_path root_path patterns = Ok tree →
       markers_childless tree).
Proof.
  intros H.
  assert (scan_directory
            (EDir [("a.txt", EFile (Ok 10)); ("s", EFile (Raise PermissionError))])
            ["srv"] ["srv"] ∅
          = Ok (Directory "srv" "." [File "a.txt" "a.txt" 10]
                  (Some permission_denied))) as Hscan
    by (by vm_compute).
  apply H in Hscan. by apply Forall_cons in Hscan as [[] _].
Qed.

(** ** Path strings and their segments *)

Lemma split_no_sep sep s : Str.contains sep s = false → Str.split sep s = [s].
Proof.
  induction s as [|c s IH]; simpl; [done|].
  intros [Hc Hs]%orb_false_iff. rewrite Hc, IH; done.
Qed.

Lemma split_app_sep sep s t :
  Str.contains sep s = false →
  Str.split sep (s +:+ String sep t) = s :: Str.split sep t.
Proof.
  induction s as [|c s IH]; simpl.
  - by rewrite Ascii.eqb_refl.
  - intros [Hc Hs]%orb_false_iff. rewrite Hc, IH; done.
Qed.

Lemma split_join sep parts :
  parts ≠ [] → Forall (λ x, Str.contains sep x = false) parts →
  Str.split sep (Str.join sep parts) = parts.
Proof.
  induction parts as [|x [|y r] IH]; intros Hne Hall; [done| |].
  - apply Forall_cons in Hall as [Hx _]. by apply split_no_sep.
  - apply Forall_cons in Hall as [Hx Hall].
    rewrite join_cons, split_app_sep, IH by done. done.
Qed.

Lemma valid_name_spec name :
  valid_name name = true
  ↔ name ≠ "" ∧ name ≠ "." ∧ Str.contains "/" name = false.
Proof.
  unfold valid_name.
  rewrite !andb_true_iff, !bool_decide_eq_true, negb_true_iff. tauto.
Qed.

Lemma anchor_of_join name rest :
  valid_name name = true → anchor_of (Str.join "/" (name :: rest)) = [].
Proof.
  intros (Hne & _ & Hsep)%valid_name_spec.
  destruct name as [|c name]; [done|]. simpl in Hsep.
  apply orb_false_iff in Hsep as [Hc _].
  destruct rest; simpl; by rewrite Hc.
Qed.

(** The segments of the path string of a relative path are its names. *)
Lemma Path_parts_str pos :
  Forall (λ name, valid_name name = true) pos → Path_parts (Path_str pos) = pos.
Proof.
  intros Hall. destruct pos as [|name rest]; [done|].
  unfold Path_parts, Path_str.
  rewrite anchor_of_join by (by apply Forall_cons in Hall as [? _]).
  rewrite split_join; [|done|].
  - apply filter_all. eapply Forall_impl; [exact Hall|].
    by intros x (? & ? & _)%valid_name_spec.
  - eapply Forall_impl; [exact Hall|]. by intros x (_ & _ & ?)%valid_name_spec.
Qed.

Lemma depth_of_str pos :
  Forall (λ name, valid_name name = true) pos →
  depth_of (Path_str pos) = Z.of_nat (length pos).
Proof. intros Hall. unfold depth_of. by rewrite Path_parts_str. Qed.

(** ** Depth *)

Lemma foldr_max_base a b l :
  foldr Z.max (Z.max a b) l = Z.max b (foldr Z.max a l).
Proof. induction l as [|x l IH]; simpl; lia. Qed.

Lemma foldr_max_swap a l1 l2 :
  foldr Z.max (foldr Z.max a l1) l2 = foldr Z.max (foldr Z.max a l2) l1.
Proof.
  induction l2 as [|x l2 IH]; simpl; [done|].
  rewrite IH. symmetry. rewrite (Z.max_comm x (foldr Z.max a l2)).
  apply foldr_max_base.
Qed.

Abbreviation depths pos n := (map (λ pp : Path * string, depth_of pp.2)
                                  (dir_positions pos n)).

Lemma count_items_max_depth n : ∀ pos stats,
  max_depth (count_items n stats) = foldr Z.max (max_depth stats) (depths pos n).
Proof.
  induction n as [name path size | name path children error IH] using Node_ind;
    intros pos stats; simpl; [done|].
  rewrite <- foldr_max_base.
  change (Z.max (max_depth stats) (depth_of path))
    with (max_depth (count_dir path stats)).
  generalize (count_dir path stats) as st.
  induction IH as [|c l Hc _ IHl]; intros st; simpl; [done|].
  rewrite IHl, (Hc (pos ++ [node_name c])), map_app, foldr_app.
  apply foldr_max_swap.
Qed.

Lemma dir_nodes_positions n : ∀ pos, length (dir_positions pos n) = dir_nodes n.
Proof.
  induction n as [name path size | name path children error IH] using Node_ind;
    intros pos; simpl; [done|].
  f_equal. induction IH as [|c l Hc _ IHl]; simpl; [done|].
  by rewrite length_app, Hc, IHl.
Qed.

Lemma Forall_positions_children (Q : Path * string → Prop) pos children :
  Forall Q (foldr (λ c l, dir_positions (pos ++ [node_name c]) c ++ l) []
              children)
  ↔ Forall (λ c, Forall Q (dir_positions (pos ++ [node_name c]) c)) children.
Proof.
  induction children as [|c l IH]; simpl.
  - split; constructor.
  - by rewrite Forall_app, Forall_cons, IH.
Qed.

Abbreviation faithful_position :=
  (λ pp : Path * string,
     pp.2 = Path_str pp.1 ∧ Forall (λ name, valid_name name = true) pp.1).

Lemma scan_items_positions root rel patterns sl :
  Forall (λ name, valid_name name = true) rel → ∀ children,
  Forall (λ it : string * Entry,
            valid_name it.1 = true
            ∧ ∀ node,
                scan_directory it.2 (root ++ rel ++ [it.1]) root patterns
                = Ok node →
                Forall faithful_position (dir_positions (rel ++ [it.1]) node))
         sl →
  Forall (λ c, Forall faithful_position (dir_positions (rel ++ [node_name c]) c))
         children →
  Forall (λ c, Forall faithful_position (dir_positions (rel ++ [node_name c]) c))
    (scan_items (root ++ rel) root patterns (items_of root rel patterns sl)
       children).1.
Proof.
  intros Hrel.
  induction sl as [|[name e] sl IH]; intros children Hall Hch; [done|].
  apply Forall_cons in Hall as [[Hname Hsub] Hall]. simpl in Hname, Hsub.
  rewrite items_of_cons, scan_items_cons.
  destruct (ignored _ _ _); [by apply IH|].
  assert (∀ node, scan_directory e (root ++ rel ++ [name]) root patterns
                  = Ok node →
            Forall (λ c, Forall faithful_position
                           (dir_positions (rel ++ [node_name c]) c))
                   (children ++ [node])) as Hsnoc.
  { intros node Hnode. apply Forall_app. split; [done|]. constructor; [|done].
    destruct (scan_directory_shape _ _ _ _ _ Hnode) as (ch & err & Heq).
    assert (node_name node = name) as ->; [|by apply Hsub].
    rewrite Heq. simpl. by rewrite app_assoc, Path_name_snoc. }
  destruct e as [[size|ex]|listing|ex]; try done.
  - apply IH; [done|]. apply Forall_app. split; [done|]. by repeat constructor.
  - destruct (scan_directory (EDir listing) _ _ _) as [node|ex] eqn:Hscan;
      [|done]. apply IH; [done|]. by apply Hsnoc.
  - destruct (scan_directory (EDirErr ex) _ _ _) as [node|ex'] eqn:Hscan;
      [|done]. apply IH; [done|]. by apply Hsnoc.
Qed.

Lemma scan_directory_positions e : ∀ root rel patterns tree,
  wf_names e = true →
  Forall (λ name, valid_name name = true) rel →
  scan_directory e (root ++ rel) root patterns = Ok tree →
  Forall faithful_position (dir_positions rel tree).
Proof.
  induction e as [st|listing IH|ex] using Entry_ind;
    intros root rel patterns tree Hwf Hrel.
  - by rewrite scan_directory_EFile.
  - rewrite scan_directory_EDir.
    pose proof (scan_items_positions root rel patterns
                  (sorted_by entry_le listing) Hrel []) as H.
    intros Htree.
    assert (∃ children error,
              tree = Directory (Path_name (root ++ rel)) (Path_str rel)
                       ((scan_items (root ++ rel) root patterns
                           (items_of root rel patterns
                              (sorted_by entry_le listing)) []).1) error
              ∧ children = (scan_items (root ++ rel) root patterns
                              (items_of root rel patterns
                                 (sorted_by entry_le listing)) []).1)
      as (children & error & -> & _).
    { destruct (scan_items _ _ _ _ _) as [children [[]|]];
        simplify_eq/=; eauto. }
    simpl. constructor; [done|]. apply Forall_positions_children, H; [|done].
    rewrite sorted_by_Permutation. simpl in Hwf.
    rewrite forallb_forall in Hwf. apply Forall_forall. intros it Hin.
    pose proof Hin as Hit. apply list_elem_of_In, Hwf, andb_true_iff in Hit.
    destruct Hit as [Hname Hwfit]. split; [done|].
    intros node. eapply Forall_forall in IH; [|exact Hin].
    apply IH; [done|]. apply Forall_app. split; [done|]. by constructor.
  - rewrite scan_directory_EDirErr. case_decide; [|done].
    intros [= <-]. by repeat constructor.
Qed.

(** C2, in the form that holds of the code: in the tree of a scan, over a filesystem whose names are
    those a listing can yield, the [path] of every directory node is the
    string of its root-relative path, and the depth that the aggregator
    computes for it is the number of segments of that path; the root
    itself, of path [.], has no segment and counts as depth 0.  Hence
    [max_depth] is the largest number of segments among the directory
    nodes, and it is 0 when the root is the only directory node. *)
Theorem C2_depth_is_segment_count (fs : Entry) (root_path : Path)
    (patterns : gset string) (tree : Node) :
  wf_names fs = true →
  scan_directory fs root_path root_path patterns = Ok tree →
  Forall (λ pp : Path * string,
            pp.2 = Path_str pp.1 ∧ depth_of pp.2 = Z.of_nat (length pp.1))
         (dir_positions [] tree)
  ∧ head (dir_positions [] tree) = Some ([], ".")
  ∧ depth_of "." = 0
  ∧ max_depth (get_stats tree)
    = foldr Z.max 0
        (map (λ pp : Path * string, Z.of_nat (length pp.1))
             (dir_positions [] tree))
  ∧ (dir_nodes tree = 1%nat → max_depth (get_stats tree) = 0).
Proof.
  intros Hwf Htree.
  assert (Forall (λ pp : Path * string,
                    pp.2 = Path_str pp.1
                    ∧ depth_of pp.2 = Z.of_nat (length pp.1))
                 (dir_positions [] tree)) as Hpos.
  { pose proof (scan_directory_positions fs root_path [] patterns tree Hwf)
      as H.
    rewrite app_nil_r in H. specialize (H (Forall_nil_2 _) Htree).
    eapply Forall_impl; [exact H|]. intros [pos path] [-> Hvalid].
    split; [done|]. by apply depth_of_str. }
  assert (head (dir_positions [] tree) = Some ([], ".")) as Hroot.
  { pose proof (scan_directory_shape fs root_path [] patterns tree) as H.
    rewrite app_nil_r in H. by destruct (H Htree) as (children & error & ->). }
  assert (max_depth (get_stats tree)
          = foldr Z.max 0
              (map (λ pp : Path * string, Z.of_nat (length pp.1))
                   (dir_positions [] tree))) as Hmax.
  { unfold get_stats. rewrite (count_items_max_depth tree []). simpl.
    f_equal. apply Forall_fmap_ext_1.
    eapply Forall_impl; [exact Hpos|]. by intros pp [_ ->]. }
  split_and!; try done.
  intros Hone. rewrite Hmax.
  rewrite <- (dir_nodes_positions tree []) in Hone.
  destruct (dir_positions [] tree) as [|pp [|pp' l]]; simplify_eq/=. done.
Qed.

Lemma C2_depth_is_segment_count_witness :
  let fs := EDir [("src", EDir [("lib", EDir []); ("main.py", EFile (Ok 9))])] in
  ∃ tree,
    scan_directory fs ["repo"] ["repo"] ∅ = Ok tree
    ∧ dir_positions [] tree
      = [([], "."); (["src"], "src"); (["src"; "lib"], "src/lib")]
    ∧ max_depth (get_stats tree) = 2.
Proof.
  intros fs. eexists. split; [by vm_compute|]. split; [by vm_compute|].
  edestruct (C2_depth_is_segment_count fs ["repo"] ∅) as (_ & _ & _ & Hmax & _);
    [reflexivity|by vm_compute|].
  etrans; [exact Hmax|]. by vm_compute.
Defined.

(** C2 in the wording of the specification does not hold: in a root with files only, the root is the only
    directory node, its depth is 0 and not 1, and [max_depth] is 0. *)
Lemma C2_counterexample_root_depth :
  ¬ (∀ (fs : Entry) (root_path : Path) (patterns : gset string) (tree : Node),
       scan_directory fs root_path root_path patterns = Ok tree →
       depth_of (node_path tree) = 1 ∧ 1 ≤ max_depth (get_stats tree)).
Proof.
  intros H.
  assert (scan_directory (EDir [("a.txt", EFile (Ok 1))]) ["srv"] ["srv"] ∅
          = Ok (Directory "srv" "." [File "a.txt" "a.txt" 1] None)) as Hscan
    by (by vm_compute).
  destruct (H _ _ _ _ Hscan) as [Hroot _].
  vm_compute in Hroot. discriminate.
Qed.

(** ** Files of the tree and files of the filesystem *)

Lemma sum_sizes_app {A} (l1 l2 : list (A * Z)) :
  sum_sizes (l1 ++ l2) = sum_sizes l1 + sum_sizes l2.
Proof. induction l1 as [|x l1 IH]; simpl; [done|]. rewrite IH. lia. Qed.

Lemma sum_sizes_Permutation {A} (l1 l2 : list (A * Z)) :
  l1 ≡ₚ l2 → sum_sizes l1 = sum_sizes l2.
Proof. induction 1; simpl; lia. Qed.

Lemma sum_sizes_fmap {A B} (f : A → B) (l : list (A * Z)) :
  sum_sizes ((λ pf, (f pf.1, pf.2)) <$> l) = sum_sizes l.
Proof.
  induction l as [|x l IH]; [done|].
  rewrite fmap_cons. unfold sum_sizes in *. cbn [foldr snd]. by rewrite IH.
Qed.

Lemma count_items_total_size n : ∀ stats,
  total_size (count_items n stats) = total_size stats + sum_sizes (tree_files n).
Proof.
  induction n as [name path size | name path children error IH] using Node_ind;
    intros stats; cbn [count_items tree_files].
  { unfold sum_sizes. simpl. lia. }
  change (total_size stats) with (total_size (count_dir path stats)).
  generalize (count_dir path stats) as st.
  induction IH as [|c l Hc _ IHl]; intros st.
  { unfold sum_sizes. simpl. lia. }
  rewrite bind_cons, sum_sizes_app. cbn [foldl]. rewrite IHl, Hc. lia.
Qed.

Abbreviation path_and_size := (λ pf : Path * Z, (Path_str pf.1, pf.2)).

Abbreviation kept_item patterns base :=
  (λ it : string * Entry,
     if ignored (base ++ [it.1]) (is_dir it.2) patterns then []
     else match it.2 with
          | EFile (Ok size) => [(base ++ [it.1], size)]
          | EFile (Raise _) => []
          | _ => kept_files patterns (base ++ [it.1]) it.2
          end).

Lemma scan_items_files root rel patterns sl : ∀ children,
  Forall (λ it : string * Entry, ∀ node,
            scan_directory it.2 (root ++ rel ++ [it.1]) root patterns = Ok node →
            tree_files node
            ≡ₚ path_and_size <$> kept_files patterns (rel ++ [it.1]) it.2) sl →
  (scan_items (root ++ rel) root patterns (items_of root rel patterns sl)
     children).2 = None →
  (scan_items (root ++ rel) root patterns (items_of root rel patterns sl)
     children).1 ≫= tree_files
  ≡ₚ (children ≫= tree_files)
     ++ (path_and_size <$> (sl ≫= kept_item patterns rel)).
Proof.
  induction sl as [|[name e] sl IH]; intros children Hall.
  - simpl. by rewrite app_nil_r.
  - apply Forall_cons in Hall as [Hsub Hall]. simpl in Hsub.
    rewrite items_of_cons, scan_items_cons, bind_cons, fmap_app. cbn [fst snd].
    destruct (ignored _ _ _); [by apply IH|].
    destruct e as [[size|ex]|listing|ex]; try done.
    + intros Hnone. rewrite IH, bind_app by done. simpl.
      by rewrite <- app_assoc.
    + destruct (scan_directory (EDir listing) _ _ _) as [node|ex] eqn:Hscan;
        [|done].
      intros Hnone. rewrite IH, bind_app by done. simpl.
      by rewrite app_nil_r, <- app_assoc, (Hsub node).
    + destruct (scan_directory (EDirErr ex) _ _ _) as [node|ex'] eqn:Hscan;
        [|done].
      intros Hnone. rewrite IH, bind_app by done. simpl.
      by rewrite app_nil_r, <- app_assoc, (Hsub node).
Qed.

Lemma scan_directory_files e : ∀ root rel patterns tree,
  no_denied_size e = true →
  scan_directory e (root ++ rel) root patterns = Ok tree →
  tree_files tree ≡ₚ path_and_size <$> kept_files patterns rel e.
Proof.
  induction e as [st|listing IH|ex] using Entry_ind;
    intros root rel patterns tree Hsize.
  - by rewrite scan_directory_EFile.
  - rewrite scan_directory_EDir. simpl in Hsize.
    rewrite forallb_forall in Hsize.
    pose proof (scan_items_markers root rel patterns (sorted_by entry_le listing)
                  []) as Hperm.
    cbv zeta in Hperm. destruct Hperm as [_ Hperm]; [|done|].
    { rewrite sorted_by_Permutation. apply Forall_forall. intros it Hin.
      split; [by apply Hsize, list_elem_of_In|].
      intros node. apply scan_directory_markers.
      by apply Hsize, list_elem_of_In. }
    pose proof (scan_items_files root rel patterns (sorted_by entry_le listing)
                  []) as Hfiles.
    destruct (scan_items _ _ _ _ _) as [children o]. simpl in Hperm, Hfiles.
    destruct o as [[]|]; try done.
    intros [= <-]. simpl. rewrite Hfiles; [|rewrite sorted_by_Permutation|done].
    + by rewrite sorted_by_Permutation.
    + apply Forall_forall. intros it Hin node.
      eapply Forall_forall in IH; [|exact Hin].
      apply IH. by apply Hsize, list_elem_of_In.
  - rewrite scan_directory_EDirErr. case_decide; [|done]. by intros [= <-].
Qed.

Lemma kept_kept_files patterns base e sub size :
  kept patterns base e sub size →
  (base ++ sub, size) ∈ kept_files patterns base e.
Proof.
  induction 1 as [base listing name size Hin Hkeep
                 |base listing name sub_listing sub size Hin Hkeep _ IH];
    simpl; apply list_elem_of_bind.
  - exists (name, EFile (Ok size)). split; [|done]. simpl. rewrite Hkeep.
    apply list_elem_of_singleton. done.
  - exists (name, EDir sub_listing). split; [|done]. cbn [fst snd is_dir].
    rewrite Hkeep. by rewrite <- app_assoc in IH.
Qed.

Lemma kept_files_kept patterns e : ∀ base p size,
  (p, size) ∈ kept_files patterns base e →
  ∃ sub, p = base ++ sub ∧ kept patterns base e sub size.
Proof.
  induction e as [st|listing IH|ex] using Entry_ind; intros base p size;
    simpl; [by intros ?%elem_of_nil| |by intros ?%elem_of_nil].
  intros ([name c] & Hp & Hin)%list_elem_of_bind. cbn [fst snd] in Hp.
  destruct (ignored _ _ _) eqn:Hkeep; [by apply elem_of_nil in Hp|].
  destruct c as [[fsize|ex]|sub_listing|ex].
  - apply list_elem_of_singleton in Hp as [= -> ->]. exists [name].
    split; [done|]. by constructor.
  - by apply elem_of_nil in Hp.
  - eapply Forall_forall in IH; [|exact Hin].
    destruct (IH _ _ _ Hp) as (sub & -> & Hsub).
    exists (name :: sub). split; [by rewrite <- app_assoc|].
    by econstructor.
  - by apply elem_of_nil in Hp.
Qed.

Lemma kept_valid patterns base e sub size :
  kept patterns base e sub size → wf_names e = true →
  Forall (λ name, valid_name name = true) sub.
Proof.
  induction 1 as [base listing name size Hin Hkeep
                 |base listing name sub_listing sub size Hin Hkeep _ IH];
    simpl; rewrite forallb_forall; intros Hwf;
    apply list_elem_of_In, Hwf, andb_true_iff in Hin as [Hname Hsub].
  - by repeat constructor.
  - constructor; [done|]. by apply IH.
Qed.

Lemma fmap_bind_list {A B C} (f : B → C) (g : A → list B) (l : list A) :
  f <$> (l ≫= g) = l ≫= (λ x, f <$> g x).
Proof.
  induction l as [|x l IH]; [done|]. by rewrite !bind_cons, fmap_app, IH.
Qed.

Lemma kept_files_NoDup patterns e : ∀ base,
  unique_names e = true → NoDup (kept_files patterns base e).*1.
Proof.
  induction e as [st|listing IH|ex] using Entry_ind; intros base;
    simpl; [constructor| |constructor].
  intros [Hnames Hsub]%andb_true_iff. apply bool_decide_eq_true in Hnames.
  rewrite forallb_forall in Hsub. rewrite fmap_bind_list.
  assert (∀ it p, p ∈ (kept_item patterns base it).*1 →
            ∃ sub, p = base ++ it.1 :: sub) as Hprefix.
  { intros [name c] p ([p' size] & -> & Hp)%list_elem_of_fmap.
    cbn [fst snd] in *. destruct (ignored _ _ _); [by apply elem_of_nil in Hp|].
    destruct c as [[fsize|ex]|sub_listing|ex];
      try (by apply elem_of_nil in Hp).
    - apply list_elem_of_singleton in Hp as [= -> ->]. by exists [].
    - apply kept_files_kept in Hp as (sub & -> & _). exists sub.
      by rewrite <- app_assoc. }
  apply NoDup_bind.
  - intros [n1 c1] [n2 c2] p Hin1 Hin2 (s1 & ->)%Hprefix (s2 & Heq)%Hprefix.
    apply app_inv_head in Heq. injection Heq as -> _. f_equal.
    by eapply NoDup_fst_unique.
  - intros [name c] Hin. cbn [fst snd].
    destruct (ignored _ _ _); [constructor|].
    destruct c as [[fsize|ex]|sub_listing|ex]; try constructor.
    + by apply not_elem_of_nil.
    + constructor.
    + eapply Forall_forall in IH; [|exact Hin]. apply IH.
      by apply (Hsub (name, EDir sub_listing)), list_elem_of_In.
  - by eapply NoDup_fmap_1.
Qed.

Lemma Path_str_inj p q :
  Forall (λ name, valid_name name = true) p →
  Forall (λ name, valid_name name = true) q →
  Path_str p = Path_str q → p = q.
Proof.
  intros Hp Hq Heq.
  by rewrite <- (Path_parts_str p), <- (Path_parts_str q), Heq.
Qed.

Lemma filter_key_once {A} (l : list (string * A)) k v :
  NoDup l.*1 → (k, v) ∈ l → length (filter (λ pf, pf.1 = k) l) = 1%nat.
Proof.
  induction l as [|[k' v'] l IH]; simpl; intros Hnd Hin;
    [by apply elem_of_nil in Hin|].
  apply NoDup_cons in Hnd as [Hk Hnd].
  apply elem_of_cons in Hin as [[= <- <-]|Hin].
  - rewrite filter_cons_True by done. simpl. f_equal.
    rewrite filter_none; [done|].
    apply Forall_forall. intros [k1 v1] Hin1 Heq. simpl in Heq. subst k1.
    apply Hk, list_elem_of_fmap. by exists (k, v1).
  - rewrite filter_cons_False; [by apply IH|].
    simpl. intros ->. apply Hk, list_elem_of_fmap. by exists (k, v).
Qed.

(** C8, in the form that holds of the code: provided no size query is denied, in the tree of a scan
    (over a filesystem whose listings yield valid, distinct names) every
    file under the root that is not matched by the patterns, and not inside
    a matched or an unlistable directory, has exactly one file node, with
    its size; every file node is the node of such a file; and [total_size]
    is the sum of the sizes of exactly those files, each counted once. *)
Theorem C8_kept_files_once_and_summed (fs : Entry) (root_path : Path)
    (patterns : gset string) (tree : Node) :
  wf_names fs = true → unique_names fs = true → no_denied_size fs = true →
  scan_directory fs root_path root_path patterns = Ok tree →
  (∀ sub size, kept patterns [] fs sub size →
     (Path_str sub, size) ∈ tree_files tree
     ∧ length (filter (λ pf, pf.1 = Path_str sub) (tree_files tree)) = 1%nat)
  ∧ (∀ path size, (path, size) ∈ tree_files tree →
       ∃ sub, path = Path_str sub ∧ kept patterns [] fs sub size)
  ∧ ∃ kept_list : list (Path * Z),
      NoDup kept_list.*1
      ∧ (∀ sub size, (sub, size) ∈ kept_list ↔ kept patterns [] fs sub size)
      ∧ total_size (get_stats tree) = sum_sizes kept_list.
Proof.
  intros Hwf Hunique Hsize Htree.
  assert (tree_files tree ≡ₚ path_and_size <$> kept_files patterns [] fs)
    as Hperm.
  { apply (scan_directory_files fs root_path [] patterns); [done|].
    by rewrite app_nil_r. }
  assert (∀ sub size,
            (sub, size) ∈ kept_files patterns [] fs
            ↔ kept patterns [] fs sub size) as Hkept.
  { intros sub size. split.
    - by intros (sub' & -> & Hk)%kept_files_kept.
    - apply (kept_kept_files patterns []). }
  assert (NoDup (tree_files tree).*1) as Hnodup.
  { rewrite Hperm, <- list_fmap_compose.
    change (fst ∘ path_and_size) with (Path_str ∘ @fst Path Z).
    rewrite list_fmap_compose.
    apply NoDup_fmap_2_strong; [|by apply kept_files_NoDup].
    intros p q ([p' sp] & -> & Hp)%list_elem_of_fmap
      ([q' sq] & -> & Hq)%list_elem_of_fmap.
    apply Hkept in Hp, Hq. apply Path_str_inj; by eapply kept_valid. }
  split_and!.
  - intros sub size Hk.
    assert ((Path_str sub, size) ∈ tree_files tree) as Hin.
    { rewrite Hperm. apply list_elem_of_fmap. exists (sub, size).
      split; [done|]. by apply Hkept. }
    split; [done|]. by eapply filter_key_once.
  - intros path size Hin. rewrite Hperm in Hin.
    apply list_elem_of_fmap in Hin as ([sub size'] & [= -> ->] & Hin).
    exists sub. split; [done|]. by apply Hkept.
  - exists (kept_files patterns [] fs). split_and!.
    + by apply kept_files_NoDup.
    + exact Hkept.
    + unfold get_stats. rewrite count_items_total_size. simpl.
      by rewrite (sum_sizes_Permutation _ _ Hperm), (sum_sizes_fmap Path_str).
Qed.

Lemma C8_kept_files_once_and_summed_witness :
  let fs := EDir [("notes.txt", EFile (Ok 7));
                  ("src", EDir [("main.py", EFile (Ok 30));
                                ("main.pyc", EFile (Ok 99))]);
                  ("locked", EDirErr PermissionError)] in
  ∃ tree,
    scan_directory fs ["repo"] ["repo"] {[ "*.pyc" ]} = Ok tree
    ∧ ("src/main.py", 30) ∈ tree_files tree
    ∧ length (filter (λ pf, pf.1 = "src/main.py") (tree_files tree)) = 1%nat
    ∧ total_size (get_stats tree) = 37.
Proof.
  intros fs. eexists. split; [by vm_compute|].
  edestruct (C8_kept_files_once_and_summed fs ["repo"] {[ "*.pyc" ]})
    as (Hfile & _ & _); [reflexivity..|by vm_compute|].
  assert (kept {[ "*.pyc" ]} [] fs ["src"; "main.py"] 30) as Hkept.
  { eapply kept_below with (sub_listing := [("main.py", EFile (Ok 30));
                                             ("main.pyc", EFile (Ok 99))]).
    - apply list_elem_of_lookup. by exists 1%nat.
    - by vm_compute.
    - apply kept_here; [|by vm_compute].
      apply list_elem_of_lookup. by exists 0%nat. }
  destruct (Hfile _ _ Hkept) as [Hin Honce].
  split; [exact Hin|]. split; [exact Honce|by vm_compute].
Defined.

(** C8 in the wording of the specification does not hold: the size query of [a], a link into a directory
    that may not be searched, is denied; the loop over the root stops
    there, and the file [b], which no pattern matches and which lies in no
    ignored and in no unlistable directory, has no node and adds nothing to
    [total_size]. *)
Lemma C8_counterexample_denied_size :
  ¬ (∀ (fs : Entry) (root_path : Path) (patterns : gset string) (tree : Node),
       wf_names fs = true → unique_names fs = true →
       scan_directory fs root_path root_path patterns = Ok tree →
       ∀ sub size, kept patterns [] fs sub size →
         (Path_str sub, size) ∈ tree_files tree
         ∧ size ≤ total_size (get_stats tree)).
Proof.
  intros H.
  assert (scan_directory
            (EDir [("a", EFile (Raise PermissionError)); ("b", EFile (Ok 10))])
            ["srv"] ["srv"] ∅
          = Ok (Directory "srv" "." [] (Some permission_denied))) as Hscan
    by (by vm_compute).
  destruct (H (EDir [("a", EFile (Raise PermissionError)); ("b", EFile (Ok 10))])
              ["srv"] ∅ _ eq_refl eq_refl Hscan ["b"] 10) as [Hin _].
  - apply kept_here; [|by vm_compute]. apply list_elem_of_lookup. by exists 1%nat.
  - by apply elem_of_nil in Hin.
Qed.

(** * Further properties of the code *)

(** ** [fnmatch] on patterns with at most one star *)

Lemma literal_chars s :
  literal s = true →
  Forall (λ c, Ascii.eqb c "*" = false ∧ Ascii.eqb c "?" = false
               ∧ Ascii.eqb c "[" = false) (chars s).
Proof.
  unfold literal. rewrite !andb_true_iff, !negb_true_iff.
  intros [[H1%contains_false H2%contains_false] H3%contains_false].
  induction (chars s) as [|c l IH]; [constructor|].
  apply Forall_cons in H1 as [? ?], H2 as [? ?], H3 as [? ?].
  constructor; [done|]. by apply IH.
Qed.

Lemma translate_go_literal_app a q :
  Forall (λ c, Ascii.eqb c "*" = false ∧ Ascii.eqb c "?" = false
               ∧ Ascii.eqb c "[" = false) a →
  translate_go (length (a ++ q)) (a ++ q)
  = map TLit a ++ translate_go (length q) q.
Proof.
  induction 1 as [|c a (H1 & H2 & H3) _ IH]; simpl; [done|].
  by rewrite H1, H2, H3, IH.
Qed.

Lemma matches_literal_prefix a ts : ∀ s,
  matches (map TLit a ++ ts) s = true
  ↔ ∃ rest, s = a ++ rest ∧ matches ts rest = true.
Proof.
  induction a as [|c a IH]; intros s.
  - simpl. split; [by exists s|by intros (rest & -> & ?)].
  - cbn [map app matches]. destruct s as [|x s].
    + split; [done|by intros (rest & ? & _)].
    + cbn [tok_char]. rewrite andb_true_iff, Ascii.eqb_eq, IH. split.
      * intros [-> (rest & -> & Hm)]. by exists rest.
      * intros (rest & [= -> ->] & Hm). split; [done|by exists rest].
Qed.

Lemma matches_star ts s :
  matches (TStar :: ts) s = true
  ↔ ∃ pre post, s = pre ++ post ∧ matches ts post = true.
Proof.
  induction s as [|x s IH].
  - simpl. rewrite orb_false_r. split.
    + intros Hm. by exists [], [].
    + intros (pre & post & Heq & Hm). symmetry in Heq.
      by apply app_eq_nil in Heq as [-> ->].
  - change (matches (TStar :: ts) (x :: s))
      with (matches ts (x :: s) || matches (TStar :: ts) s).
    rewrite orb_true_iff, IH. split.
    + intros [Hm|(pre & post & -> & Hm)].
      * by exists [], (x :: s).
      * by exists (x :: pre), post.
    + intros ([|y pre] & post & Heq & Hm); simpl in Heq.
      * left. by subst.
      * right. injection Heq as -> ->. by exists pre, post.
Qed.

Lemma chars_of_list l : chars (String.string_of_list_ascii l) = l.
Proof. apply String.list_ascii_of_string_of_list_ascii. Qed.

(** X1: a pattern without [*], [?] and [[] matches its own text and nothing
    else; a pattern [a*b] whose parts [a] and [b] have none of these
    characters matches exactly the names that begin with [a] and go on to
    end with [b], whatever lies between, separators included. *)
Theorem X1_fnmatch_literal_and_star (name a b : string) :
  literal a = true → literal b = true →
  (fnmatch name a = true ↔ name = a)
  ∧ (fnmatch name (a +:+ String "*" b) = true
     ↔ ∃ mid, name = a +:+ mid +:+ b).
Proof.
  intros Ha%literal_chars Hb%literal_chars. unfold fnmatch, translate. split.
  - rewrite translate_literal by done. rewrite matches_literal.
    split; [apply chars_inj|by intros ->].
  - rewrite chars_app. rewrite translate_go_literal_app by done.
    change (chars (String "*" b)) with ("*"%char :: chars b).
    cbn [length translate_go Ascii.eqb]. simpl Ascii.eqb.
    rewrite translate_literal by done.
    rewrite matches_literal_prefix. split.
    + intros (rest & Hname & (pre & post & -> & Hpost%matches_literal)%matches_star).
      subst post. exists (String.string_of_list_ascii pre).
      apply chars_inj. by rewrite !chars_app, chars_of_list.
    + intros (mid & ->). exists (chars mid ++ chars b).
      split; [by rewrite !chars_app|].
      apply matches_star. exists (chars mid), (chars b).
      split; [done|]. by apply matches_literal.
Qed.

Lemma X1_fnmatch_literal_and_star_witness :
  fnmatch "Makefile" "Makefile" = true
  ∧ fnmatch "test_io/deep/case.py" "test_*.py" = true.
Proof.
  destruct (X1_fnmatch_literal_and_star "Makefile" "Makefile" "" eq_refl eq_refl)
    as [Hlit _].
  destruct (X1_fnmatch_literal_and_star "test_io/deep/case.py" "test_" ".py"
              eq_refl eq_refl) as [_ Hstar].
  split; [by apply Hlit|]. apply Hstar. by exists "io/deep/case".
Defined.

(** ** [should_ignore]: its failures and the order of the patterns *)

Lemma relative_to_Ok path root rel :
  relative_to path root = Ok rel ↔ path = root ++ rel.
Proof.
  split; [|intros ->; apply relative_to_app].
  revert path. induction root as [|r root IH]; intros path; simpl.
  - by intros [= ->].
  - destruct path as [|p path]; [done|]. case_decide; [|done].
    intros ->%IH. by subst.
Qed.

Lemma relative_to_Raise path root ex :
  relative_to path root = Raise ex → ex = ValueError ∧ ¬ root `prefix_of` path.
Proof.
  revert path. induction root as [|r root IH]; intros path; simpl; [done|].
  destruct path as [|p path].
  - intros [= <-]. split; [done|]. by intros [k ?].
  - case_decide as Hpr.
    + intros [-> Hpre]%IH. split; [done|].
      intros [k [= _ ->]]. apply Hpre. by exists k.
    + intros [= <-]. split; [done|]. by intros [k [= -> _]].
Qed.

Lemma ignore_step_Raise_inv path rel kind pattern ex :
  ignore_step path rel kind pattern = Raise ex →
  kind = Raise ex ∧ Str.endswith pattern "/" = true.
Proof.
  unfold ignore_step.
  destruct (fnmatch (Str.replace _ _ _) pattern); [done|].
  destruct (Str.endswith pattern "/"); [|done].
  destruct kind as [dir|ex']; simpl; [|by intros [= ->]].
  destruct (dir && _); [done|]. by destruct (existsb _ _).
Qed.

Lemma ignore_loop_Raise_inv path rel kind order ex :
  ignore_loop path rel kind order = Raise ex →
  kind = Raise ex
  ∧ ∃ pattern, pattern ∈ order ∧ Str.endswith pattern "/" = true.
Proof.
  induction order as [|pattern order IH]; simpl; [done|].
  destruct (ignore_step path rel kind pattern) as [[]|ex'] eqn:Hstep; [done| |].
  - intros [Hkind (pattern' & Hin & Hend)]%IH. split; [done|].
    exists pattern'. split; [by right|done].
  - intros [= ->]. apply ignore_step_Raise_inv in Hstep as [Hkind Hend].
    split; [done|]. exists pattern. split; [by left|done].
Qed.

Lemma existsb_list_to_set (f : string → bool) (order : list string) :
  existsb f (elements (list_to_set order : gset string)) = existsb f order.
Proof.
  apply eq_true_iff_eq. rewrite !existsb_exists.
  split; intros (pattern & Hin & Hf); exists pattern; (split; [|done]).
  - apply list_elem_of_In in Hin. apply elem_of_elements in Hin.
    apply elem_of_list_to_set in Hin. by apply list_elem_of_In.
  - apply list_elem_of_In in Hin. apply list_elem_of_In, elem_of_elements.
    by apply elem_of_list_to_set.
Qed.

(** When the query answers, the loop over the patterns in any order is
    [should_ignore] on the set. *)
Lemma should_ignore_asking_Ok path root_path dir order :
  should_ignore_asking path root_path (Ok dir) order
  = should_ignore path root_path dir (list_to_set order).
Proof.
  unfold should_ignore_asking, should_ignore.
  destruct (relative_to path root_path) as [rel|ex]; simpl; [|done].
  by rewrite ignore_loop_Ok, existsb_list_to_set.
Qed.

(** X2: [should_ignore] fails in two ways only.  For a path that does not
    lie at or below the scan root it raises [ValueError], whatever the
    patterns and the entry are, and [scan_directory] started at such a path
    fails the same way before it lists anything.  For a path at or below
    the root it raises exactly what its query [path.is_dir()] raises, and
    only when some pattern ends with [/]: it answers whenever the query
    answers, and when no pattern ends with [/] it never asks, so that the
    answer is the same whatever the query would do. *)
Theorem X2_should_ignore_failures (path root_path : Path) (kind : res bool)
    (order : list string) (patterns : gset string) (e : Entry) :
  (¬ root_path `prefix_of` path →
   should_ignore_asking path root_path kind order = Raise ValueError
   ∧ scan_directory e path root_path patterns = Raise ValueError)
  ∧ (root_path `prefix_of` path → ∀ dir, kind = Ok dir →
     ∃ answer, should_ignore_asking path root_path kind order = Ok answer)
  ∧ (root_path `prefix_of` path →
     Forall (λ pattern, Str.endswith pattern "/" = false) order →
     ∃ answer, ∀ kind',
       should_ignore_asking path root_path kind' order = Ok answer)
  ∧ (∀ ex, should_ignore_asking path root_path kind order = Raise ex →
       (ex = ValueError ∧ ¬ root_path `prefix_of` path)
       ∨ (root_path `prefix_of` path ∧ kind = Raise ex
          ∧ ∃ pattern, pattern ∈ order ∧ Str.endswith pattern "/" = true)).
Proof.
  split_and!.
  - intros Hpre.
    assert (relative_to path root_path = Raise ValueError) as Hrel.
    { destruct (relative_to path root_path) as [rel|ex] eqn:Hrel.
      - apply relative_to_Ok in Hrel. destruct Hpre. by exists rel.
      - by apply relative_to_Raise in Hrel as [-> _]. }
    unfold should_ignore_asking. destruct e; simpl; by rewrite Hrel.
  - intros [rel ->] dir ->. unfold should_ignore_asking.
    rewrite relative_to_app. simpl. rewrite ignore_loop_Ok. by eexists.
  - intros [rel ->] Hall.
    exists (existsb (pattern_ignores (root_path ++ rel) rel false) order).
    intros kind'. unfold should_ignore_asking. rewrite relative_to_app. simpl.
    by apply ignore_loop_no_slash.
  - intros ex. unfold should_ignore_asking.
    destruct (relative_to path root_path) as [rel|ex'] eqn:Hrel; simpl.
    + intros [Hkind Hpattern]%ignore_loop_Raise_inv. right.
      apply relative_to_Ok in Hrel. split_and!; [by exists rel|done..].
    + intros [= <-]. left. by apply relative_to_Raise in Hrel.
Qed.

Lemma X2_should_ignore_failures_witness :
  should_ignore_asking ["home"; "eve"; "x"] ["home"; "bob"]
    (Raise PermissionError) ["*"; "out/"] = Raise ValueError
  ∧ ∃ answer, ∀ kind',
      should_ignore_asking ["home"; "bob"; "x"] ["home"; "bob"] kind'
        ["*.o"; "tmp"] = Ok answer.
Proof.
  destruct (X2_should_ignore_failures ["home"; "eve"; "x"] ["home"; "bob"]
              (Raise PermissionError) ["*"; "out/"] ∅ (EDir []))
    as (Hout & _ & _ & _).
  destruct (X2_should_ignore_failures ["home"; "bob"; "x"] ["home"; "bob"]
              (Raise PermissionError) ["*.o"; "tmp"] ∅ (EDir []))
    as (_ & _ & Hin & _).
  split.
  - apply Hout. by intros [k [=]].
  - apply Hin; [by exists ["x"]|by repeat constructor].
Defined.

(** X3: when the query [path.is_dir()] answers, [should_ignore] does not
    depend on the order in which the set yields its patterns: the loop is
    the function of the set that the walk is modelled with, two orders with
    the same patterns give the same answer, and the answer is [True]
    exactly when one of the patterns, taken alone, gives [True].  When the
    query raises, the order decides: for the entry [s] and the patterns [s]
    and [x/], the call returns [True] if [s] comes first and raises if [x/]
    does. *)
Theorem X3_should_ignore_and_the_order (path root_path : Path) (dir : bool)
    (order order' : list string) :
  should_ignore_asking path root_path (Ok dir) order
  = should_ignore path root_path dir (list_to_set order)
  ∧ ((∀ pattern, pattern ∈ order ↔ pattern ∈ order') →
     should_ignore_asking path root_path (Ok dir) order
     = should_ignore_asking path root_path (Ok dir) order')
  ∧ (should_ignore_asking path root_path (Ok dir) order = Ok true
     ↔ ∃ pattern, pattern ∈ order
                  ∧ should_ignore_asking path root_path (Ok dir) [pattern]
                    = Ok true)
  ∧ should_ignore_asking (root_path ++ ["s"]) root_path (Raise PermissionError)
      ["s"; "x/"] = Ok true
  ∧ should_ignore_asking (root_path ++ ["s"]) root_path (Raise PermissionError)
      ["x/"; "s"] = Raise PermissionError.
Proof.
  split_and!.
  - apply should_ignore_asking_Ok.
  - intros Hsame. rewrite !should_ignore_asking_Ok. f_equal.
    apply set_eq. intros pattern. by rewrite !elem_of_list_to_set.
  - assert (∀ o, should_ignore_asking path root_path (Ok dir) o
                 = (rel ← relative_to path root_path;
                    Ok (existsb (pattern_ignores path rel dir) o))) as Hloop.
    { intros o. unfold should_ignore_asking.
      destruct (relative_to path root_path) as [rel|ex]; simpl; [|done].
      apply ignore_loop_Ok. }
    rewrite Hloop. setoid_rewrite Hloop.
    destruct (relative_to path root_path) as [rel|ex]; simpl.
    + split.
      * intros [= (pattern & Hin%list_elem_of_In & Hpat)%existsb_exists].
        exists pattern. split; [done|]. by rewrite Hpat.
      * intros (pattern & Hin & Hpat).
        injection Hpat as Hpat. rewrite orb_false_r in Hpat.
        f_equal. apply existsb_exists. exists pattern.
        split; [by apply list_elem_of_In|done].
    + split; [done|by intros (? & _ & ?)].
  - by rewrite should_ignore_asking_below.
  - by rewrite should_ignore_asking_below.
Qed.

Lemma X3_should_ignore_and_the_order_witness :
  should_ignore_asking ["w"; "out"; "a.log"] ["w"] (Ok false) ["tmp/"; "*.log"]
  = should_ignore_asking ["w"; "out"; "a.log"] ["w"] (Ok false)
      ["*.log"; "tmp/"; "*.log"].
Proof.
  refine (proj1 (proj2 (X3_should_ignore_and_the_order
                          ["w"; "out"; "a.log"] ["w"] false
                          ["tmp/"; "*.log"] ["*.log"; "tmp/"; "*.log"])) _).
  intros pattern. rewrite !elem_of_cons, !elem_of_nil. tauto.
Defined.

(** ** [load_dirignore] *)

Lemma rstrip_cons c s :
  Str.rstrip (String c s)
  = match Str.rstrip s with
    | EmptyString => if Str.is_space c then EmptyString else String c EmptyString
    | r => String c r
    end.
Proof. done. Qed.

Lemma rstrip_idemp s : Str.rstrip (Str.rstrip s) = Str.rstrip s.
Proof.
  induction s as [|c s IH]; [done|]. rewrite rstrip_cons.
  destruct (Str.rstrip s) as [|c' r] eqn:Hr.
  - destruct (Str.is_space c) eqn:Hc; [done|]. rewrite rstrip_cons. simpl.
    by rewrite Hc.
  - by rewrite rstrip_cons, IH.
Qed.

Lemma rstrip_head c s :
  Str.is_space c = false → ∃ r, Str.rstrip (String c s) = String c r.
Proof.
  intros Hc. rewrite rstrip_cons. destruct (Str.rstrip s); [rewrite Hc|]; eauto.
Qed.

Lemma lstrip_head s :
  Str.lstrip s = "" ∨ ∃ c r, Str.lstrip s = String c r ∧ Str.is_space c = false.
Proof.
  induction s as [|c s IH]; [by left|]. simpl.
  destruct (Str.is_space c) eqn:Hc; [done|]. right. eauto.
Qed.

Lemma strip_idemp s : Str.strip (Str.strip s) = Str.strip s.
Proof.
  unfold Str.strip. destruct (lstrip_head s) as [->|(c & r & -> & Hc)]; [done|].
  destruct (rstrip_head c r Hc) as [r' Hr]. rewrite Hr.
  cbn [Str.lstrip]. rewrite Hc, <- Hr. apply rstrip_idemp.
Qed.

Lemma elem_of_load_dirignore lines pattern :
  pattern ∈ load_dirignore (Some lines)
  ↔ ∃ line, line ∈ lines ∧ pattern = Str.strip line
            ∧ pattern ≠ "" ∧ Str.startswith pattern "#" = false.
Proof.
  unfold load_dirignore.
  assert (∀ acc : gset string,
            pattern ∈ foldl (λ (patterns : gset string) line,
                               let line := Str.strip line in
                               if bool_decide (line ≠ "")
                                  && negb (Str.startswith line "#")
                               then patterns ∪ {[ line ]} else patterns)
                            acc lines
            ↔ pattern ∈ acc
              ∨ ∃ line, line ∈ lines ∧ pattern = Str.strip line
                        ∧ pattern ≠ "" ∧ Str.startswith pattern "#" = false)
    as Hfold.
  { induction lines as [|l lines IH]; intros acc; simpl.
    - split; [by left|]. intros [?|(line & Hin & _)]; [done|].
      by apply elem_of_nil in Hin.
    - rewrite IH. clear IH. split.
      + intros [Hacc|(line & Hin & Hrest)].
        * destruct (bool_decide _ && negb _) eqn:Hkeep; [|by left].
          apply elem_of_union in Hacc as [?|Heq]; [by left|].
          apply elem_of_singleton in Heq as ->.
          right. exists l. apply andb_true_iff in Hkeep as [H1 H2].
          apply bool_decide_eq_true in H1. apply negb_true_iff in H2.
          split; [left|done].
        * right. exists line. split; [by right|done].
      + intros [Hacc|(line & Hin & Hrest)].
        * left. destruct (bool_decide _ && negb _); [|done].
          apply elem_of_union. by left.
        * apply elem_of_cons in Hin as [->|Hin]; [|right; by exists line].
          left. destruct Hrest as (-> & Hne & Hc).
          rewrite bool_decide_eq_true_2, Hc by done. simpl.
          apply elem_of_union. right. by apply elem_of_singleton. }
  rewrite Hfold. split; [|by right]. by intros [?%not_elem_of_empty|?].
Qed.

(** X4: the loaded set holds exactly the stripped lines of the file that
    are neither empty nor comments.  Every pattern in it is therefore free
    of surrounding white space, not empty and not starting with [#]; the
    set does not depend on the order or the repetition of the lines; and a
    missing file gives the empty set, under which nothing is ignored. *)
Theorem X4_load_dirignore_keeps_pattern_lines
    (dirignore : option (list string)) (lines lines' : list string)
    (pattern : string) :
  (pattern ∈ load_dirignore (Some lines)
   ↔ ∃ line, line ∈ lines ∧ pattern = Str.strip line
             ∧ pattern ≠ "" ∧ Str.startswith pattern "#" = false)
  ∧ (pattern ∈ load_dirignore dirignore →
     Str.strip pattern = pattern ∧ pattern ≠ ""
     ∧ Str.startswith pattern "#" = false)
  ∧ ((∀ line, line ∈ lines ↔ line ∈ lines') →
     load_dirignore (Some lines) = load_dirignore (Some lines'))
  ∧ (∀ path root_path dir,
       should_ignore path root_path dir (load_dirignore None) ≠ Ok true).
Proof.
  split_and!.
  - apply elem_of_load_dirignore.
  - destruct dirignore as [ls|]; [|by intros ?%not_elem_of_empty].
    intros (line & _ & -> & Hne & Hc)%elem_of_load_dirignore.
    by rewrite strip_idemp.
  - intros Hsame. apply set_eq. intros p. rewrite !elem_of_load_dirignore.
    split; intros (line & Hin & Hrest); exists line; (split; [|done]);
      by apply Hsame.
  - intros path root_path dir. unfold should_ignore, load_dirignore.
    rewrite elements_empty. by destruct (relative_to path root_path).
Qed.

Lemma X4_load_dirignore_keeps_pattern_lines_witness :
  Str.strip "*.log" = "*.log"
  ∧ load_dirignore (Some ["  *.log "; "# logs"; "*.log"])
    = load_dirignore (Some ["*.log"; "  *.log "; "# logs"; "# logs"]).
Proof.
  destruct (X4_load_dirignore_keeps_pattern_lines
              (Some ["# logs"; "  *.log "; ""])
              ["  *.log "; "# logs"; "*.log"]
              ["*.log"; "  *.log "; "# logs"; "# logs"] "*.log")
    as (_ & Hstrip & Hsame & _).
  split.
  - apply Hstrip. apply elem_of_load_dirignore. exists "  *.log ".
    split; [|done]. apply list_elem_of_lookup. by exists 1%nat.
  - apply Hsame. intros line. rewrite !elem_of_cons, !elem_of_nil. tauto.
Defined.

(** ** The two dictionaries of [get_stats] *)

(** What the visits do to one of the dictionaries, seen as a fold over the
    keys and amounts of the file nodes. *)
Local Abbreviation tally :=
  (foldl (λ (m : gmap string Z) (ka : string * Z),
            if decide (ka.1 = "") then m
            else <[ ka.1 := default 0 (m !! ka.1) + ka.2 ]> m)).

Lemma tally_lookup l : ∀ (m : gmap string Z) key,
  key ≠ "" →
  tally m l !! key
  = match with_key key l with
    | [] => m !! key
    | found => Some (default 0 (m !! key) + sum_sizes found)
    end.
Proof.
  unfold with_key.
  induction l as [|[k a] l IH]; intros m key Hkey; [done|].
  cbn [foldl fst snd]. rewrite IH by done. clear IH.
  destruct (decide (k = key)) as [->|Hne].
  - rewrite filter_cons_True by done. rewrite decide_False by done.
    rewrite lookup_insert_eq. simpl.
    destruct (filter _ l) as [|kv found]; [f_equal; simpl; lia|].
    f_equal. unfold sum_sizes. simpl. lia.
  - rewrite filter_cons_False by done.
    destruct (decide (k = "")); [done|]. by rewrite lookup_insert_ne.
Qed.

Lemma tally_lookup_empty_key l : ∀ (m : gmap string Z),
  tally m l !! "" = m !! "".
Proof.
  induction l as [|[k a] l IH]; intros m; [done|].
  cbn [foldl fst snd]. rewrite IH. destruct (decide (k = "")); [done|].
  by rewrite lookup_insert_ne.
Qed.

Lemma foldl_visit_extensions nodes : ∀ stats,
  extensions (foldl visit stats nodes)
  = tally (extensions stats)
      ((λ es : string * Z, (es.1, 1)) <$>
       (nodes ≫= λ n, match n with
                      | File name _ size => [(ext_of name, size)]
                      | Directory _ _ _ _ => []
                      end))
  ∧ size_by_ext (foldl visit stats nodes)
    = tally (size_by_ext stats)
        (nodes ≫= λ n, match n with
                       | File name _ size => [(ext_of name, size)]
                       | Directory _ _ _ _ => []
                       end).
Proof.
  induction nodes as [|n nodes IH]; intros stats; [done|].
  rewrite bind_cons, fmap_app. cbn [foldl]. rewrite !foldl_app.
  destruct (IH (visit stats n)) as [-> ->].
  by destruct n as [name path size|name path children error].
Qed.

Lemma with_key_fmap key (l : list (string * Z)) :
  with_key key ((λ es : string * Z, (es.1, 1)) <$> l)
  = (λ es : string * Z, (es.1, 1)) <$> with_key key l.
Proof.
  unfold with_key. induction l as [|[k a] l IH]; [done|].
  rewrite fmap_cons. destruct (decide (k = key)) as [->|Hne].
  - rewrite !filter_cons_True by done. by rewrite fmap_cons, IH.
  - by rewrite !filter_cons_False.
Qed.

Lemma sum_sizes_ones (l : list (string * Z)) :
  sum_sizes ((λ es : string * Z, (es.1, 1)) <$> l) = Z.of_nat (length l).
Proof.
  induction l as [|x l IH]; [done|].
  rewrite fmap_cons. unfold sum_sizes in *. cbn [foldr snd length].
  rewrite IH. lia.
Qed.

(** X5: after the aggregation of any tree, an extension is a key of
    [extensions] exactly when some file node has it, the empty extension
    never; its count is the number of those file nodes and its entry in
    [size_by_ext] is the sum of their sizes.  Both dictionaries have the
    same keys, so the lookup of [size_by_ext] under a key of [extensions],
    as the report does it, finds an entry. *)
Theorem X5_extension_dictionaries (tree : Node) (ext : string) :
  let found := with_key ext (file_exts tree) in
  (extensions (get_stats tree) !! ext
   = if decide (ext = "" ∨ found = []) then None
     else Some (Z.of_nat (length found)))
  ∧ (size_by_ext (get_stats tree) !! ext
     = if decide (ext = "" ∨ found = []) then None
       else Some (sum_sizes found))
  ∧ dom (extensions (get_stats tree)) = dom (size_by_ext (get_stats tree)).
Proof.
  intros found.
  assert (extensions (get_stats tree) !! ext
          = (if decide (ext = "" ∨ found = []) then None
             else Some (Z.of_nat (length found)))
          ∧ size_by_ext (get_stats tree) !! ext
            = (if decide (ext = "" ∨ found = []) then None
               else Some (sum_sizes found))) as Hboth.
  { unfold get_stats. rewrite count_items_preorder.
    destruct (foldl_visit_extensions (preorder tree) initial_stats) as [-> ->].
    fold (file_exts tree). simpl extensions. simpl size_by_ext.
    destruct (decide (ext = "")) as [->|Hext].
    { rewrite !tally_lookup_empty_key, lookup_empty.
      split; case_decide as Hd; try done; exfalso; apply Hd; by left. }
    rewrite !tally_lookup, with_key_fmap by done. fold found.
    destruct found as [|kv found'] eqn:Hfound.
    - rewrite fmap_nil, lookup_empty.
      split; case_decide as Hd; try done; exfalso; apply Hd; by right.
    - rewrite fmap_cons, !lookup_empty. simpl default.
      split; (case_decide as Hd; [by destruct Hd|]); f_equal.
      pose proof (sum_sizes_ones (kv :: found')) as Hs.
      rewrite fmap_cons in Hs. cbn beta in Hs. lia. }
  split_and!; [apply Hboth..|].
  apply set_eq. intros key. rewrite !elem_of_dom.
  clear Hboth found.
  assert (∀ key,
            is_Some (extensions (get_stats tree) !! key)
            ↔ key ≠ "" ∧ with_key key (file_exts tree) ≠ []) as Hext.
  { intros k. unfold get_stats. rewrite count_items_preorder.
    destruct (foldl_visit_extensions (preorder tree) initial_stats) as [-> _].
    fold (file_exts tree). simpl extensions.
    destruct (decide (k = "")) as [->|Hk].
    { rewrite tally_lookup_empty_key, lookup_empty.
      split; [by intros []|by intros []]. }
    rewrite tally_lookup, with_key_fmap by done.
    destruct (with_key k (file_exts tree)); simpl.
    - rewrite lookup_empty. split; [by intros []|by intros []].
    - split; [done|eauto]. }
  assert (∀ key,
            is_Some (size_by_ext (get_stats tree) !! key)
            ↔ key ≠ "" ∧ with_key key (file_exts tree) ≠ []) as Hsize.
  { intros k. unfold get_stats. rewrite count_items_preorder.
    destruct (foldl_visit_extensions (preorder tree) initial_stats) as [_ ->].
    fold (file_exts tree). simpl size_by_ext.
    destruct (decide (k = "")) as [->|Hk].
    { rewrite tally_lookup_empty_key, lookup_empty.
      split; [by intros []|by intros []]. }
    rewrite tally_lookup by done.
    destruct (with_key k (file_exts tree)); simpl.
    - rewrite lookup_empty. split; [by intros []|by intros []].
    - split; [done|eauto]. }
  by rewrite Hext, Hsize.
Qed.

(** ** [largest_files] at the end of the aggregation *)

Lemma insert_by_insert_behind x e s :
  insert_by size_ge x (insert_behind e s)
  = insert_behind e (insert_by size_ge x s).
Proof.
  induction s as [|y s IH]; cbn [insert_by insert_behind].
  - by destruct (size_ge x e).
  - destruct (size_ge y e) eqn:H1, (size_ge x y) eqn:H2, (size_ge x e) eqn:H3;
      cbn [insert_by insert_behind]; rewrite ?H1, ?H2, ?H3, ?IH; try done;
      unfold size_ge in *; lia.
Qed.

Lemma sorted_by_snoc_any l e :
  sorted_by size_ge (l ++ [e]) = insert_behind e (sorted_by size_ge l).
Proof.
  induction l as [|x l IH]; simpl; [done|].
  by rewrite IH, insert_by_insert_behind.
Qed.

Lemma take_insert_behind n e : ∀ s,
  take n (insert_behind e (take n s)) = take n (insert_behind e s).
Proof.
  induction n as [|n IH]; intros [|y s]; simpl; try done.
  destruct (size_ge y e); simpl; [by rewrite IH|].
  f_equal. destruct n; [done|]. simpl. by rewrite take_take, Nat.min_l by lia.
Qed.

Lemma sorted_by_sorted_id s :
  StronglySorted (λ x y, size_ge x y = true) s → sorted_by size_ge s = s.
Proof.
  induction 1 as [|x s Hs IH Hx]; simpl; [done|].
  rewrite IH. apply insert_by_head. destruct s as [|y s]; [done|].
  by apply Forall_cons in Hx as [? _].
Qed.

Lemma tree_files_preorder n :
  tree_files n
  = preorder n ≫= λ n, match n with
                       | File _ path size => [(path, size)]
                       | Directory _ _ _ _ => []
                       end.
Proof.
  induction n as [name path size | name path children error IH] using Node_ind;
    [done|].
  cbn [tree_files preorder]. rewrite bind_cons. cbn [app].
  induction IH as [|c l Hc _ IHl]; [done|].
  cbn [foldr]. by rewrite bind_cons, bind_app, Hc, IHl.
Qed.

Lemma foldl_visit_largest nodes :
  largest_files (foldl visit initial_stats nodes)
  = take 10 (sorted_by size_ge
               (nodes ≫= λ n, match n with
                              | File _ path size => [(path, size)]
                              | Directory _ _ _ _ => []
                              end)).
Proof.
  induction nodes as [|n nodes IH] using rev_ind; [done|].
  rewrite foldl_app, bind_app. cbn [foldl mbind list_bind].
  destruct n as [name path size|name path children error];
    cbn [visit count_file count_dir largest_files app].
  - rewrite IH, !sorted_by_snoc_any.
    rewrite sorted_by_sorted_id, take_insert_behind; [done|].
    apply StronglySorted_take, sorted_by_sorted.
    + apply size_ge_total.
    + apply size_ge_trans.
  - by rewrite IH, app_nil_r.
Qed.

(** X6: at the end of the aggregation [largest_files] is the first 10
    entries of the list of all file nodes, in the order of the traversal,
    sorted by descending size with a stable sort; re-sorting and cutting
    after every file loses nothing.  It holds every file when the tree has
    at most 10. *)
Theorem X6_largest_files_is_the_top_ten (tree : Node) :
  largest_files (get_stats tree)
  = take 10 (sorted_by size_ge (tree_files tree))
  ∧ sorted_by size_ge (tree_files tree) ≡ₚ tree_files tree
  ∧ size_sorted (sorted_by size_ge (tree_files tree))
  ∧ ((file_nodes tree ≤ 10)%nat →
     largest_files (get_stats tree) ≡ₚ tree_files tree).
Proof.
  assert (largest_files (get_stats tree)
          = take 10 (sorted_by size_ge (tree_files tree))) as Htop.
  { unfold get_stats.
    by rewrite count_items_preorder, foldl_visit_largest, tree_files_preorder. }
  split_and!.
  - exact Htop.
  - apply sorted_by_Permutation.
  - apply size_sorted_alt, sorted_by_sorted.
    + apply size_ge_total.
    + apply size_ge_trans.
  - intros Hfew. rewrite Htop, take_ge; [apply sorted_by_Permutation|].
    rewrite sorted_by_Permutation.
    assert (length (tree_files tree) = file_nodes tree) as ->; [|done].
    clear. induction tree as [name path size | name path children error IH]
      using Node_ind; [done|].
    simpl. induction IH as [|c l Hc _ IHl]; [done|].
    by rewrite bind_cons, length_app, Hc, IHl.
Qed.

Lemma X6_largest_files_is_the_top_ten_witness :
  let tree := Directory "r" "." [File "a" "a" 3; File "b" "b" 5; File "c" "c" 3]
                None in
  largest_files (get_stats tree) ≡ₚ tree_files tree
  ∧ largest_files (get_stats tree) = [("b", 5); ("a", 3); ("c", 3)].
Proof.
  intros tree. split; [|by vm_compute].
  apply (X6_largest_files_is_the_top_ten tree). vm_compute. lia.
Defined.

(** ** Every node is the image of an entry *)

Lemma image_of_below root patterns listing rel name c pn :
  (name, c) ∈ listing →
  ignored (rel ++ [name]) (is_dir c) patterns = false →
  image_of root patterns c (rel ++ [name]) pn →
  image_of root patterns (EDir listing) rel pn.
Proof.
  intros Hin Hkeep (sub & e' & Hpos & Hat & Hname & Hpath & Hkind & Hign).
  exists (name :: sub), e'. split_and!; try done.
  - by rewrite Hpos, <- app_assoc.
  - by econstructor.
  - intros _. destruct sub as [|s sub]; [|by apply Hign].
    inversion Hat; subst. by rewrite Hpos, app_nil_r.
Qed.

Lemma scan_items_images root rel patterns listing sl : ∀ children,
  Forall (λ it : string * Entry,
            it ∈ listing
            ∧ ∀ node,
                scan_directory it.2 (root ++ rel ++ [it.1]) root patterns
                = Ok node →
                Forall (image_of root patterns it.2 (rel ++ [it.1]))
                       (node_positions (rel ++ [it.1]) node)) sl →
  let r := scan_items (root ++ rel) root patterns
             (items_of root rel patterns sl) children in
  (∃ k, node_name <$> r.1 = (node_name <$> children) ++ k
        ∧ k `sublist_of` sl.*1)
  ∧ (Forall (λ c, Forall (image_of root patterns (EDir listing) rel)
                         (node_positions (rel ++ [node_name c]) c)) children →
     Forall (λ c, Forall (image_of root patterns (EDir listing) rel)
                         (node_positions (rel ++ [node_name c]) c)) r.1).
Proof.
  induction sl as [|[name e] sl IH]; intros children Hall.
  { simpl. split; [|done]. exists []. by rewrite app_nil_r. }
  apply Forall_cons in Hall as [[Hin Hsub] Hall]. cbn [fst snd] in Hin, Hsub.
  rewrite items_of_cons, scan_items_cons. cbn zeta.
  assert (∀ r : list Node * option exn,
            (∃ k, node_name <$> r.1 = (node_name <$> children) ++ k
                  ∧ k `sublist_of` sl.*1) →
            ∃ k, node_name <$> r.1 = (node_name <$> children) ++ k
                 ∧ k `sublist_of` ((name, e) :: sl).*1) as Hskip.
  { intros r (k & Hk & Hsl). exists k. split; [done|]. by constructor. }
  assert (∀ (node : Node) (r : list Node * option exn),
            node_name node = name →
            (∃ k, node_name <$> r.1 = (node_name <$> (children ++ [node])) ++ k
                  ∧ k `sublist_of` sl.*1) →
            ∃ k, node_name <$> r.1 = (node_name <$> children) ++ k
                 ∧ k `sublist_of` ((name, e) :: sl).*1) as Htake.
  { intros node r Hnode (k & Hk & Hsl). exists (name :: k).
    rewrite Hk, fmap_app, <- app_assoc. simpl. rewrite Hnode.
    split; [done|]. by constructor. }
  destruct (ignored _ _ _) eqn:Hkeep.
  { destruct (IH children Hall) as [Hnames Himages]. split; [|done].
    by apply Hskip. }
  assert (∀ node,
            Forall (image_of root patterns (EDir listing) rel)
                   (node_positions (rel ++ [node_name node]) node) →
            Forall (λ c, Forall (image_of root patterns (EDir listing) rel)
                           (node_positions (rel ++ [node_name c]) c)) children →
            Forall (λ c, Forall (image_of root patterns (EDir listing) rel)
                           (node_positions (rel ++ [node_name c]) c))
                   (children ++ [node])) as Hsnoc.
  { intros node Hnode Hch. apply Forall_app. split; [done|]. by constructor. }
  assert (∀ node,
            is_dir e = true →
            scan_directory e (root ++ rel ++ [name]) root patterns = Ok node →
            node_name node = name
            ∧ Forall (image_of root patterns (EDir listing) rel)
                     (node_positions (rel ++ [node_name node]) node)) as Hdir.
  { intros node Hd Hnode.
    destruct (scan_directory_shape _ _ _ _ _ Hnode) as (ch & err & Heq).
    assert (node_name node = name) as Hname.
    { rewrite Heq. simpl. by rewrite app_assoc, Path_name_snoc. }
    split; [done|]. rewrite Hname.
    eapply Forall_impl; [by apply Hsub|].
    intros pn. by apply image_of_below. }
  destruct e as [[size|ex]|sub_listing|ex].
  - destruct (IH (children ++ [File name (Path_str (rel ++ [name])) size]) Hall)
      as [Hnames Himages].
    split; [by apply (Htake (File name (Path_str (rel ++ [name])) size))|].
    intros Hch. apply Himages, Hsnoc; [|done].
    simpl. constructor; [|done].
    exists [name], (EFile (Ok size)). cbn [fst snd].
    split_and!; try done.
    + econstructor; [done|constructor].
    + by rewrite app_assoc, Path_name_snoc.
  - simpl. split; [|done]. exists []. rewrite app_nil_r. split; [done|].
    apply sublist_nil_l.
  - destruct (scan_directory (EDir sub_listing) _ _ _) as [node|ex] eqn:Hscan.
    + destruct (Hdir node eq_refl eq_refl) as [Hname Hnode].
      destruct (IH (children ++ [node]) Hall) as [Hnames Himages].
      split; [by apply (Htake node)|]. intros Hch. by apply Himages, Hsnoc.
    + simpl. split; [|done]. exists []. rewrite app_nil_r. split; [done|].
      apply sublist_nil_l.
  - destruct (scan_directory (EDirErr ex) _ _ _) as [node|ex'] eqn:Hscan.
    + destruct (Hdir node eq_refl eq_refl) as [Hname Hnode].
      destruct (IH (children ++ [node]) Hall) as [Hnames Himages].
      split; [by apply (Htake node)|]. intros Hch. by apply Himages, Hsnoc.
    + simpl. split; [|done]. exists []. rewrite app_nil_r. split; [done|].
      apply sublist_nil_l.
Qed.

Lemma scan_directory_images e : ∀ root rel patterns tree,
  scan_directory e (root ++ rel) root patterns = Ok tree →
  Forall (image_of root patterns e rel) (node_positions rel tree).
Proof.
  induction e as [st|listing IH|ex] using Entry_ind;
    intros root rel patterns tree.
  - by rewrite scan_directory_EFile.
  - rewrite scan_directory_EDir.
    pose proof (scan_items_images root rel patterns listing
                  (sorted_by entry_le listing) []) as H.
    cbv zeta in H. destruct H as [(k & Hk & Hsl) Himages].
    { rewrite sorted_by_Permutation. apply Forall_forall. intros it Hin.
      split; [done|]. intros node. eapply Forall_forall in IH; [|exact Hin].
      apply IH. }
    specialize (Himages (Forall_nil_2 _)). simpl in Hk. subst k.
    intros Htree.
    assert (∃ error,
              tree = Directory (Path_name (root ++ rel)) (Path_str rel)
                       ((scan_items (root ++ rel) root patterns
                           (items_of root rel patterns
                              (sorted_by entry_le listing)) []).1) error)
      as [error ->].
    { destruct (scan_items _ _ _ _ _) as [children [[]|]];
        simplify_eq/=; eauto. }
    cbn [node_positions]. constructor.
    + exists [], (EDir listing). cbn [fst snd node_name node_path kind_ok].
      rewrite app_nil_r. split_and!; try done. constructor.
    + clear -Himages. induction Himages as [|c l Hc _ IHl]; [done|].
      rewrite bind_cons. by apply Forall_app.
  - rewrite scan_directory_EDirErr. case_decide; [|done].
    intros [= <-]. cbn [node_positions]. constructor; [|done].
    exists [], (EDirErr ex). cbn [fst snd node_name node_path kind_ok].
    rewrite app_nil_r.
    split_and!; first [done | constructor | apply sublist_nil_l].
Qed.

Lemma node_positions_preorder n : ∀ pos, (node_positions pos n).*2 = preorder n.
Proof.
  induction n as [name path size | name path children error IH] using Node_ind;
    intros pos; [done|].
  cbn [node_positions preorder]. rewrite fmap_cons. f_equal.
  induction IH as [|c l Hc _ IHl]; [done|].
  by rewrite bind_cons, fmap_app, Hc, IHl.
Qed.

(** X7: every node of the tree of a scan stands for an entry of the
    filesystem at the same root-relative place: a file node for a file,
    with the size the filesystem reports, a directory node for a directory;
    its [name] is the last segment of its place and its [path] the joined
    segments; and no node but the root is matched by the patterns, so
    nothing that they match, and nothing below a matched directory, is in
    the tree. *)
Theorem X7_every_node_is_an_entry (fs : Entry) (root_path : Path)
    (patterns : gset string) (tree : Node) :
  scan_directory fs root_path root_path patterns = Ok tree →
  ∀ pos n, (pos, n) ∈ node_positions [] tree →
    ∃ e, entry_at fs pos e
         ∧ node_name n = Path_name (root_path ++ pos)
         ∧ node_path n = Path_str pos
         ∧ match n with
           | File _ _ size => e = EFile (Ok size)
           | Directory _ _ _ _ => is_dir e = true
           end
         ∧ (pos ≠ [] → ignored pos (is_dir e) patterns = false).
Proof.
  intros Htree pos n Hin.
  pose proof (scan_directory_images fs root_path [] patterns tree) as H.
  rewrite app_nil_r in H. specialize (H Htree).
  eapply Forall_forall in H; [|exact Hin].
  destruct H as (sub & e & Hpos & Hat & Hname & Hpath & Hkind & Hign).
  simpl in Hpos, Hname, Hpath, Hkind, Hign. subst sub.
  exists e. split_and!; try done.
  destruct n; [done|]. by destruct Hkind.
Qed.

Lemma X7_every_node_is_an_entry_witness :
  let fs := EDir [("src", EDir [("main.py", EFile (Ok 30))]);
                  ("tmp", EDir [("x", EFile (Ok 1))])] in
  ∃ e, entry_at fs ["src"; "main.py"] e
       ∧ e = EFile (Ok 30)
       ∧ ignored ["src"; "main.py"] (is_dir e) {[ "tmp/" ]} = false.
Proof.
  intros fs.
  destruct (X7_every_node_is_an_entry fs ["w"] {[ "tmp/" ]}
              (Directory "w" "."
                 [Directory "src" "src" [File "main.py" "src/main.py" 30] None]
                 None))
    with (pos := ["src"; "main.py"]) (n := File "main.py" "src/main.py" 30)
    as (e & Hat & _ & _ & Hkind & Hign).
  - by vm_compute.
  - apply list_elem_of_lookup. by exists 2%nat.
  - exists e. split; [done|]. split; [done|]. by apply Hign.
Defined.

Lemma StronglySorted_sublist {A} (R : relation A) l1 l2 :
  l1 `sublist_of` l2 → StronglySorted R l2 → StronglySorted R l1.
Proof.
  induction 1 as [|x l1 l2 Hsub IH|x l1 l2 Hsub IH]; intros Hsorted;
    [done| |].
  - apply StronglySorted_inv in Hsorted as [Hl2 Hx].
    constructor; [by apply IH|].
    apply Forall_forall. intros y Hy. eapply Forall_forall in Hx; [done|].
    by eapply elem_of_sublist.
  - apply StronglySorted_inv in Hsorted as [Hl2 _]. by apply IH.
Qed.

Lemma sorted_names_sorted (l : list (string * Entry)) :
  StronglySorted (λ a b, String.leb a b = true) (sorted_by entry_le l).*1.
Proof.
  assert (StronglySorted (λ x y, entry_le x y = true) (sorted_by entry_le l))
    as Hsorted.
  { apply sorted_by_sorted; unfold entry_le.
    - intros x y. apply string_leb_total.
    - intros x y z. apply string_leb_trans. }
  induction Hsorted as [|x s Hs IH Hx]; [constructor|].
  rewrite fmap_cons. constructor; [done|].
  apply Forall_fmap. eapply Forall_impl; [exact Hx|]. done.
Qed.

Lemma entry_at_unique_names e sub e' :
  entry_at e sub e' → unique_names e = true → unique_names e' = true.
Proof.
  induction 1 as [e|listing name c sub e' Hin _ IH]; [done|].
  simpl. intros [_ Hall]%andb_true_iff. rewrite forallb_forall in Hall.
  by apply IH, (Hall (name, c)), list_elem_of_In.
Qed.

(** X8: in the tree of a scan the children of every directory node stand
    in ascending order of their names, whatever the order in which the
    host lists the directory; when the names of every listing are distinct,
    so are the names of the children of every node. *)
Theorem X8_children_are_sorted_by_name (fs : Entry) (root_path : Path)
    (patterns : gset string) (tree : Node) :
  scan_directory fs root_path root_path patterns = Ok tree →
  Forall children_sorted (preorder tree)
  ∧ (unique_names fs = true → Forall children_distinct (preorder tree)).
Proof.
  intros Htree.
  pose proof (scan_directory_images fs root_path [] patterns tree) as H.
  rewrite app_nil_r in H. specialize (H Htree).
  rewrite <- (node_positions_preorder tree []). split.
  - apply Forall_fmap. eapply Forall_impl; [exact H|].
    intros [pos n] (sub & e & _ & _ & _ & _ & Hkind & _). simpl in *.
    destruct n as [|name path children error]; [done|].
    destruct Hkind as [_ Hsub]. simpl.
    eapply StronglySorted_sublist; [exact Hsub|apply sorted_names_sorted].
  - intros Hunique. apply Forall_fmap. eapply Forall_impl; [exact H|].
    intros [pos n] (sub & e & _ & Hat & _ & _ & Hkind & _). simpl in *.
    destruct n as [|name path children error]; [done|].
    destruct Hkind as [_ Hsub]. simpl.
    eapply sublist_NoDup; [|exact Hsub].
    rewrite sorted_by_Permutation.
    apply entry_at_unique_names in Hat; [|done].
    destruct e as [|listing|]; simpl in *; [constructor| |constructor].
    apply andb_true_iff in Hat as [Hnd _]. by apply bool_decide_eq_true in Hnd.
Qed.

Lemma X8_children_are_sorted_by_name_witness :
  let fs := EDir [("zeta", EFile (Ok 1)); ("Makefile", EFile (Ok 2));
                  ("alpha", EDir [])] in
  ∃ tree,
    scan_directory fs ["w"] ["w"] ∅ = Ok tree
    ∧ node_name <$> match tree with
                    | Directory _ _ children _ => children
                    | File _ _ _ => []
                    end = ["Makefile"; "alpha"; "zeta"]
    ∧ Forall children_sorted (preorder tree)
    ∧ Forall children_distinct (preorder tree).
Proof.
  intros fs. eexists. split; [by vm_compute|]. split; [by vm_compute|].
  edestruct (X8_children_are_sorted_by_name fs ["w"] ∅) as [Hsorted Hdistinct];
    [by vm_compute|].
  split; [exact Hsorted|]. by apply Hdistinct.
Defined.

(** ** Paths are unique *)

Lemma NoDup_fmap_unique {A B} (f : A → B) l x y :
  NoDup (f <$> l) → x ∈ l → y ∈ l → f x = f y → x = y.
Proof.
  induction l as [|z l IH]; intros Hnd Hx Hy Heq; [by apply elem_of_nil in Hx|].
  rewrite fmap_cons in Hnd. apply NoDup_cons in Hnd as [Hz Hnd].
  apply elem_of_cons in Hx as [->|Hx]; apply elem_of_cons in Hy as [->|Hy];
    try done.
  - exfalso. apply Hz. rewrite Heq. by apply list_elem_of_fmap_2.
  - exfalso. apply Hz. rewrite <- Heq. by apply list_elem_of_fmap_2.
  - by apply IH.
Qed.

Lemma node_positions_prefix n : ∀ pos q,
  q ∈ (node_positions pos n).*1 → ∃ s, q = pos ++ s.
Proof.
  induction n as [name path size | name path children error IH] using Node_ind;
    intros pos q; cbn [node_positions]; rewrite fmap_cons, elem_of_cons.
  - intros [->|Hq]; [exists []; by rewrite app_nil_r|by apply elem_of_nil in Hq].
  - intros [->|Hq]; [exists []; by rewrite app_nil_r|].
    rewrite fmap_bind_list in Hq.
    apply list_elem_of_bind in Hq as (c & Hq & Hc).
    eapply Forall_forall in IH; [|exact Hc].
    destruct (IH _ _ Hq) as [s ->]. exists (node_name c :: s).
    by rewrite <- app_assoc.
Qed.

Lemma node_positions_NoDup n : ∀ pos,
  Forall children_distinct (preorder n) → NoDup (node_positions pos n).*1.
Proof.
  induction n as [name path size | name path children error IH] using Node_ind;
    intros pos Hdistinct; cbn [node_positions]; rewrite fmap_cons.
  { repeat constructor. by intros ?%elem_of_nil. }
  simpl in Hdistinct. apply Forall_cons in Hdistinct as [Hnames Hbelow].
  simpl in Hnames. apply Forall_preorder_children in Hbelow.
  rewrite fmap_bind_list. constructor.
  - intros (c & Hq & _)%list_elem_of_bind.
    apply node_positions_prefix in Hq as [s Hs].
    apply (f_equal length) in Hs. rewrite !length_app in Hs. simpl in Hs. lia.
  - apply NoDup_bind.
    + intros c1 c2 q Hc1 Hc2 [s1 ->]%node_positions_prefix
        [s2 Heq]%node_positions_prefix.
      rewrite <- !app_assoc in Heq. apply app_inv_head in Heq.
      injection Heq as Hname _. by eapply NoDup_fmap_unique.
    + intros c Hc. eapply Forall_forall in IH; [|exact Hc].
      apply IH. by eapply Forall_forall in Hbelow.
    + by eapply NoDup_fmap_1.
Qed.

Lemma entry_at_valid e sub e' :
  entry_at e sub e' → wf_names e = true →
  Forall (λ name, valid_name name = true) sub.
Proof.
  induction 1 as [e|listing name c sub e' Hin _ IH]; [constructor|].
  simpl. rewrite forallb_forall. intros Hwf.
  apply list_elem_of_In, Hwf, andb_true_iff in Hin as [Hname Hc].
  constructor; [done|]. by apply IH.
Qed.

(** X9: in the tree of a scan, over a filesystem whose listings yield valid
    and distinct names, no two nodes have the same [path]: the path of a
    node tells it apart from every other node, directories and files
    alike. *)
Theorem X9_paths_are_unique (fs : Entry) (root_path : Path)
    (patterns : gset string) (tree : Node) :
  wf_names fs = true → unique_names fs = true →
  scan_directory fs root_path root_path patterns = Ok tree →
  NoDup (node_path <$> preorder tree).
Proof.
  intros Hwf Hunique Htree.
  pose proof (scan_directory_images fs root_path [] patterns tree) as H.
  rewrite app_nil_r in H. specialize (H Htree).
  assert (Forall children_distinct (preorder tree)) as Hdistinct.
  { rewrite <- (node_positions_preorder tree []).
    apply Forall_fmap. eapply Forall_impl; [exact H|].
    intros [pos n] (sub & e & _ & Hat & _ & _ & Hkind & _). simpl in *.
    destruct n as [|name path children error]; [done|].
    destruct Hkind as [_ Hsub]. simpl.
    eapply sublist_NoDup; [|exact Hsub].
    rewrite sorted_by_Permutation.
    apply entry_at_unique_names in Hat; [|done].
    destruct e as [|listing|]; simpl in *; [constructor| |constructor].
    apply andb_true_iff in Hat as [Hnd _]. by apply bool_decide_eq_true in Hnd. }
  rewrite <- (node_positions_preorder tree []), <- list_fmap_compose.
  assert ((node_path ∘ snd) <$> node_positions [] tree
          = Path_str <$> (node_positions [] tree).*1) as ->.
  { rewrite <- list_fmap_compose. apply Forall_fmap_ext_1.
    eapply Forall_impl; [exact H|].
    by intros [pos n] (sub & e & _ & _ & _ & Hpath & _). }
  apply NoDup_fmap_2_strong; [|by apply node_positions_NoDup].
  assert (∀ p, p ∈ (node_positions [] tree).*1 →
            Forall (λ name, valid_name name = true) p) as Hvalid.
  { intros p ([pos n] & -> & Hin)%list_elem_of_fmap.
    eapply Forall_forall in H; [|exact Hin].
    destruct H as (sub & e & Hpos & Hat & _). simpl in *. subst sub.
    by eapply entry_at_valid. }
  intros p q Hp Hq. apply Path_str_inj; by apply Hvalid.
Qed.

Lemma X9_paths_are_unique_witness :
  let fs := EDir [("a", EDir [("b", EFile (Ok 1))]); ("b", EFile (Ok 2))] in
  ∃ tree,
    scan_directory fs ["w"] ["w"] ∅ = Ok tree
    ∧ node_path <$> preorder tree = ["."; "a"; "a/b"; "b"]
    ∧ NoDup (node_path <$> preorder tree).
Proof.
  intros fs. eexists. split; [by vm_compute|]. split; [by vm_compute|].
  apply (X9_paths_are_unique fs ["w"] ∅); [reflexivity..|by vm_compute].
Defined.

(** ** The order of the listings *)

Lemma insert_by_Forall2 {A} (R : A → A → Prop) (le : A → A → bool) x y s s' :
  (∀ a b c d, R a b → R c d → le a c = le b d) →
  R x y → Forall2 R s s' →
  Forall2 R (insert_by le x s) (insert_by le y s').
Proof.
  intros Hle Hxy. induction 1 as [|a b s s' Hab Hs IH]; simpl.
  - by repeat constructor.
  - rewrite (Hle x y a b) by done.
    destruct (le y b); by repeat constructor.
Qed.

Lemma sorted_by_Forall2 {A} (R : A → A → Prop) (le : A → A → bool) l l' :
  (∀ a b c d, R a b → R c d → le a c = le b d) →
  Forall2 R l l' → Forall2 R (sorted_by le l) (sorted_by le l').
Proof.
  intros Hle. induction 1 as [|a b l l' Hab Hl IH]; simpl; [constructor|].
  by apply insert_by_Forall2.
Qed.

Lemma scan_items_Forall2 root rel patterns sl sl' : ∀ children,
  Forall2 (λ a b : string * Entry,
             a.1 = b.1
             ∧ ((∃ size, a.2 = EFile size ∧ b.2 = EFile size)
                ∨ (is_dir a.2 = true ∧ is_dir b.2 = true
                   ∧ scan_directory a.2 (root ++ rel ++ [a.1]) root patterns
                     = scan_directory b.2 (root ++ rel ++ [b.1]) root
                         patterns))) sl sl' →
  scan_items (root ++ rel) root patterns (items_of root rel patterns sl) children
  = scan_items (root ++ rel) root patterns (items_of root rel patterns sl')
      children.
Proof.
  intros children Hall. revert children.
  induction Hall as [|[n e] [n' e'] sl sl' [Hn Hsame] _ IH]; intros children;
    [done|].
  simpl in Hn, Hsame. subst n'.
  rewrite !items_of_cons, !scan_items_cons.
  destruct Hsame as [(size & -> & ->)|(Hd & Hd' & Hscan)].
  - simpl. destruct (ignored _ _ _); [done|]. by destruct size; [apply IH|].
  - rewrite Hd, Hd', Hscan. clear Hscan. destruct (ignored _ _ _); [done|].
    destruct e as [| |], e' as [| |]; try done;
      by destruct (scan_directory _ _ _ _); [apply IH|].
Qed.

Lemma reordered_is_dir e e' : reordered e e' → is_dir e = is_dir e'.
Proof. by inversion 1. Qed.

Lemma scan_directory_reordered e : ∀ e' root rel patterns,
  reordered e e' → unique_names e = true →
  scan_directory e (root ++ rel) root patterns
  = scan_directory e' (root ++ rel) root patterns.
Proof.
  induction e as [st|l1 IH|ex] using Entry_ind;
    intros e' root rel patterns Hre Hunique; inversion Hre as [| |? l l2 Hall Hperm];
    subst; [done| |done].
  rewrite !scan_directory_EDir.
  simpl in Hunique. apply andb_true_iff in Hunique as [Hnd Hsub].
  apply bool_decide_eq_true in Hnd. rewrite forallb_forall in Hsub.
  assert (l1.*1 = l.*1) as Hnames.
  { clear -Hall. induction Hall as [|a b l1 l [Hab _] _ IHl]; [done|].
    by rewrite !fmap_cons, Hab, IHl. }
  rewrite <- (sorted_by_entry_le_Permutation l l2)
    by (done || by rewrite <- Hnames).
  assert (Forall2 (λ a b : string * Entry,
                     a.1 = b.1 ∧ a ∈ l1 ∧ reordered a.2 b.2) l1 l) as Hall'.
  { clear -Hall. induction Hall as [|a b l1 l [Hab Hr] _ IHl]; [constructor|].
    constructor; [split_and!; [done|left|done]|].
    eapply Forall2_impl; [exact IHl|]. intros x y (? & ? & ?).
    split_and!; [done|by right|done]. }
  apply (sorted_by_Forall2 _ entry_le) in Hall'.
  2:{ intros a b c d (Hab & _) (Hcd & _). unfold entry_le. by rewrite Hab, Hcd. }
  rewrite (scan_items_Forall2 root rel patterns (sorted_by entry_le l1)
             (sorted_by entry_le l)); [done|].
  eapply Forall2_impl; [exact Hall'|].
  intros [n e] [n' e'] (Hn & Hin & Hr). simpl in *. subst n'.
  split; [done|].
  destruct e as [size| |].
  - left. inversion Hr; subst. eauto.
  - right. pose proof (reordered_is_dir _ _ Hr) as Hd. simpl in Hd.
    split_and!; [done..|].
    eapply Forall_forall in IH; [|exact Hin]. apply IH; [done|].
    by apply (Hsub (n, EDir _)), list_elem_of_In.
  - right. pose proof (reordered_is_dir _ _ Hr) as Hd. simpl in Hd.
    split_and!; [done..|]. by inversion Hr.
Qed.

(** X10: the tree of a scan, and with it the statistics, do not depend on
    the order in which the host lists the directories: two filesystems that
    differ only by the order of their listings, at every level, give the
    same result, provided the names of every listing are distinct. *)
Theorem X10_scan_ignores_listing_order (fs fs' : Entry) (root_path : Path)
    (patterns : gset string) :
  reordered fs fs' → unique_names fs = true →
  scan_directory fs root_path root_path patterns
  = scan_directory fs' root_path root_path patterns
  ∧ get_stats <$> scan_directory fs root_path root_path patterns
    = get_stats <$> scan_directory fs' root_path root_path patterns.
Proof.
  intros Hre Hunique.
  pose proof (scan_directory_reordered fs fs' root_path [] patterns Hre Hunique)
    as H.
  rewrite app_nil_r in H. by rewrite H.
Qed.

Lemma X10_scan_ignores_listing_order_witness :
  scan_directory
    (EDir [("b", EFile (Ok 2)); ("a", EDir [("y", EFile (Ok 1)); ("x", EDir [])])])
    ["w"] ["w"] {[ "*.o" ]}
  = scan_directory
      (EDir [("a", EDir [("x", EDir []); ("y", EFile (Ok 1))]); ("b", EFile (Ok 2))])
      ["w"] ["w"] {[ "*.o" ]}.
Proof.
  apply X10_scan_ignores_listing_order; [|reflexivity].
  apply reordered_dir
    with (l := [("b", EFile (Ok 2));
                ("a", EDir [("x", EDir []); ("y", EFile (Ok 1))])]).
  - repeat constructor; simpl.
    apply reordered_dir with (l := [("y", EFile (Ok 1)); ("x", EDir [])]).
    + repeat constructor; simpl.
      by apply reordered_dir with (l := []).
    + apply perm_swap.
  - apply perm_swap.
Defined.

(** ** The printed tree *)

Lemma append_assoc (s1 s2 s3 : string) : (s1 +:+ s2) +:+ s3 = s1 +:+ s2 +:+ s3.
Proof.
  induction s1 as [|c s1 IH]; [done|].
  change (String c ((s1 +:+ s2) +:+ s3) = String c (s1 +:+ s2 +:+ s3)).
  by f_equal.
Qed.

Lemma append_empty_r (s : string) : s +:+ "" = s.
Proof.
  induction s as [|c s IH]; [done|].
  change (String c (s +:+ "") = String c s). by f_equal.
Qed.

Lemma indent_snoc lasts is_last :
  indent (lasts ++ [is_last]) = indent lasts +:+ extension is_last.
Proof.
  induction lasts as [|b lasts IH].
  - cbn [app indent foldr]. by rewrite append_empty_r.
  - change (indent ((b :: lasts) ++ [is_last]))
      with (extension b +:+ indent (lasts ++ [is_last])).
    change (indent (b :: lasts)) with (extension b +:+ indent lasts).
    by rewrite IH, append_assoc.
Qed.

Lemma print_tree_Directory name path children error prefix is_last :
  print_tree (Directory name path children error) prefix is_last
  = line_of prefix [] is_last (Directory name path children error)
    :: print_children (prefix +:+ extension is_last) children.
Proof.
  unfold line_of. cbn [print_tree indent foldr]. rewrite append_assoc.
  f_equal. induction children as [|c rest IH]; [done|].
  cbn [print_children]. by rewrite IH.
Qed.

Lemma print_tree_lines tree : ∀ prefix outer is_last pos,
  Forall2 (λ line (pn : Path * Node),
             ∃ lasts is_last',
               length pn.1 = (length pos + length lasts)%nat
               ∧ line = line_of prefix (outer ++ lasts) is_last' pn.2)
          (print_tree tree (prefix +:+ indent outer) is_last)
          (node_positions pos tree).
Proof.
  induction tree as [name path size | name path children error IH]
    using Node_ind; intros prefix outer is_last pos.
  - constructor; [|constructor]. exists [], is_last. simpl. split; [lia|].
    unfold line_of. by rewrite app_nil_r, !append_assoc.
  - rewrite print_tree_Directory. cbn [node_positions]. constructor.
    { exists [], is_last. simpl. split; [lia|].
      unfold line_of. by rewrite app_nil_r, !append_assoc. }
    rewrite append_assoc, <- indent_snoc.
    induction IH as [|c rest Hc _ IHrest]; [constructor|].
    cbn [print_children]. rewrite bind_cons. apply Forall2_app; [|done].
    eapply Forall2_impl; [apply Hc|].
    intros line pn (lasts & is_last' & Hlen & ->).
    exists (is_last :: lasts), is_last'. split.
    + rewrite Hlen, length_app. simpl. lia.
    + by rewrite <- app_assoc.
Qed.

Lemma count_char_app c s t :
  count_char c (s +:+ t) = (count_char c s + count_char c t)%nat.
Proof.
  induction s as [|a s IH]; [done|].
  change (String a s +:+ t) with (String a (s +:+ t)).
  cbn [count_char]. rewrite IH. lia.
Qed.

Lemma count_char_indent lasts : count_char newline (indent lasts) = 0%nat.
Proof.
  induction lasts as [|b lasts IH]; [done|].
  change (indent (b :: lasts)) with (extension b +:+ indent lasts).
  rewrite count_char_app, IH. by destruct b.
Qed.

Lemma count_char_line_of prefix lasts is_last n :
  count_char newline prefix = 0%nat →
  count_char newline (node_name n) = 0%nat →
  count_char newline (line_of prefix lasts is_last n) = 0%nat.
Proof.
  intros Hprefix Hname. unfold line_of.
  rewrite !count_char_app, count_char_indent, Hprefix, Hname.
  by destruct is_last.
Qed.

(** Texts without a newline are written as one line each. *)
Lemma line_count_output texts :
  Forall (λ text, count_char newline text = 0%nat) texts →
  line_count (output texts) = length texts.
Proof.
  unfold line_count. induction 1 as [|text texts Htext _ IH]; [done|].
  change (output (text :: texts)) with (text +:+ String newline (output texts)).
  rewrite count_char_app, Htext. cbn [count_char length].
  rewrite IH. by rewrite Ascii.eqb_refl.
Qed.

(** X11: as long as [print] returns, [print_tree] calls it once per node of
    the tree, in the order of the traversal (a directory before its children, the children in
    their order); the text printed for a node that lies [d] levels below
    the printed one is the prefix, [d] indentation units (four blanks, or a
    bar and three blanks), a connector and the name of the node; the first
    text carries the connector of the call, which for the call of [main]
    (no prefix, last) is the closing one.  When neither the prefix nor the
    name of any node holds a newline, what is written has exactly one line
    per node. *)
Theorem X11_print_tree_one_text_per_node (tree : Node) (prefix : string)
    (is_last : bool) :
  length (print_tree tree prefix is_last) = all_nodes tree
  ∧ Forall2 (λ text (pn : Path * Node),
               ∃ lasts is_last',
                 length lasts = length pn.1
                 ∧ text = line_of prefix lasts is_last' pn.2)
            (print_tree tree prefix is_last)
            (node_positions [] tree)
  ∧ head (print_tree tree prefix is_last)
    = Some (line_of prefix [] is_last tree)
  ∧ head (print_tree tree "" true) = Some ("└── " +:+ node_name tree)
  ∧ (count_char newline prefix = 0%nat →
     Forall (λ n, count_char newline (node_name n) = 0%nat) (preorder tree) →
     line_count (output (print_tree tree prefix is_last)) = all_nodes tree).
Proof.
  assert (∀ p, Forall2 (λ text (pn : Path * Node),
               ∃ lasts is_last',
                 length lasts = length pn.1
                 ∧ text = line_of p lasts is_last' pn.2)
            (print_tree tree p is_last)
            (node_positions [] tree)) as Hlines.
  { intros p. pose proof (print_tree_lines tree p [] is_last []) as H.
    cbn [indent foldr app] in H. rewrite append_empty_r in H.
    eapply Forall2_impl; [exact H|].
    intros line pn (lasts & is_last' & Hlen & ->). by exists lasts, is_last'. }
  assert (length (print_tree tree prefix is_last) = all_nodes tree) as Hlength.
  { rewrite (Forall2_length _ _ _ (Hlines prefix)).
    rewrite <- (length_fmap snd), node_positions_preorder.
    clear. induction tree as [name path size | name path children error IH]
      using Node_ind; [done|].
    cbn [preorder all_nodes length]. f_equal.
    induction IH as [|c rest Hc _ IHrest]; [done|].
    cbn [foldr]. by rewrite length_app, Hc, IHrest. }
  split_and!.
  - exact Hlength.
  - apply Hlines.
  - destruct tree; [|rewrite print_tree_Directory]; simpl; [|done].
    unfold line_of. simpl. by rewrite append_assoc.
  - by destruct tree.
  - intros Hprefix Hnames. rewrite line_count_output; [done|].
    eapply Forall2_Forall_l; [apply (Hlines prefix)|].
    rewrite <- (node_positions_preorder tree []), Forall_fmap in Hnames.
    eapply Forall_impl; [exact Hnames|].
    intros pn Hname text (lasts & is_last' & _ & ->).
    by apply count_char_line_of.
Qed.

Lemma X11_print_tree_one_text_per_node_witness :
  line_count
    (output
       (print_tree
          (Directory "w" "." [File "a.txt" "a.txt" 10; Directory "d" "d" [] None]
             None) "" true)) = 3%nat.
Proof.
  refine (proj2 (proj2 (proj2 (proj2
            (X11_print_tree_one_text_per_node
               (Directory "w" "."
                  [File "a.txt" "a.txt" 10; Directory "d" "d" [] None] None)
               "" true)))) _ _).
  - reflexivity.
  - repeat constructor.
Defined.

(** ** More patterns *)

Lemma ignored_union_false rel dir patterns more :
  ignored rel dir (patterns ∪ more) = false → ignored rel dir patterns = false.
Proof.
  unfold ignored. intros Hfalse.
  destruct (existsb _ (elements patterns)) eqn:Hex; [|done].
  apply existsb_exists in Hex as (pattern & Hin & Hmatch).
  assert (existsb (pattern_ignores rel rel dir) (elements (patterns ∪ more))
          = true) as Htrue; [|congruence].
  apply existsb_exists. exists pattern. split; [|done].
  apply list_elem_of_In, elem_of_elements, elem_of_union. left.
  by apply elem_of_elements, list_elem_of_In.
Qed.

Lemma sublist_bind {A B} (f g : A → list B) (l : list A) :
  Forall (λ x, f x `sublist_of` g x) l → (l ≫= f) `sublist_of` (l ≫= g).
Proof.
  induction 1 as [|x l Hx _ IH]; [done|].
  rewrite !bind_cons. by apply sublist_app.
Qed.

Lemma kept_files_union e : ∀ patterns more base,
  kept_files (patterns ∪ more) base e `sublist_of` kept_files patterns base e.
Proof.
  induction e as [st|listing IH|ex] using Entry_ind;
    intros patterns more base; [done| |done].
  cbn [kept_files]. apply sublist_bind.
  eapply Forall_impl; [exact IH|]. intros [name e] He. cbn [fst snd] in *.
  destruct (ignored _ _ (patterns ∪ more)) eqn:Hmore; [apply sublist_nil_l|].
  rewrite (ignored_union_false _ _ _ _ Hmore).
  destruct e as [[size|ex']| |]; [done|done|apply He|apply He].
Qed.

Lemma length_tree_files n : length (tree_files n) = file_nodes n.
Proof.
  induction n as [name path size | name path children error IH] using Node_ind;
    [done|].
  cbn [tree_files file_nodes].
  induction IH as [|c rest Hc _ IHrest]; [done|].
  rewrite bind_cons, length_app, Hc, IHrest. done.
Qed.

Lemma scan_items_union root rel patterns more sl : ∀ children children',
  Forall (λ it : string * Entry,
            no_denied_size it.2 = true
            ∧ ∀ tree,
                scan_directory it.2 (root ++ rel ++ [it.1]) root patterns
                = Ok tree →
                ∃ tree',
                  scan_directory it.2 (root ++ rel ++ [it.1]) root
                    (patterns ∪ more) = Ok tree') sl →
  (let error := (scan_items (root ++ rel) root patterns
                   (items_of root rel patterns sl) children).2 in
   error = None ∨ error = Some PermissionError) →
  (scan_items (root ++ rel) root (patterns ∪ more)
     (items_of root rel (patterns ∪ more) sl) children').2 = None.
Proof.
  induction sl as [|[name e] sl IH]; intros children children' Hall Hok; [done|].
  apply Forall_cons in Hall as [[Hsize Hsub] Hall]. cbn [fst snd] in *.
  rewrite items_of_cons, scan_items_cons in Hok |- *.
  assert (ignored (rel ++ [name]) (is_dir e) patterns = false →
          ∃ children'',
            (let error := (scan_items (root ++ rel) root patterns
                             (items_of root rel patterns sl) children'').2 in
             error = None ∨ error = Some PermissionError)
            ∧ match e with
              | EFile st => ∃ size, st = Ok size
              | _ => ∃ tree,
                  scan_directory e (root ++ rel ++ [name]) root patterns
                  = Ok tree
              end) as Hpass.
  { intros Hkeep. rewrite Hkeep in Hok.
    destruct e as [[size|ex]| |].
    - eauto.
    - simpl in Hok. destruct Hok as [?|[= ->]]; done.
    - destruct (scan_directory _ _ _ _) as [tree|ex] eqn:Hscan; [eauto|].
      simpl in Hok. destruct Hok as [?|[= ->]]; [done|].
      by apply scan_directory_not_PermissionError in Hscan.
    - destruct (scan_directory _ _ _ _) as [tree|ex] eqn:Hscan; [eauto|].
      simpl in Hok. destruct Hok as [?|[= ->]]; [done|].
      by apply scan_directory_not_PermissionError in Hscan. }
  destruct (ignored _ _ (patterns ∪ more)) eqn:Hmore.
  - destruct (ignored _ _ patterns) eqn:Hkeep; [by eapply IH|].
    destruct Hpass as (children'' & Hrest & _); [done|]. by eapply IH.
  - destruct Hpass as (children'' & Hrest & He);
      [by eapply ignored_union_false|].
    destruct e as [st| |].
    + destruct He as [size ->]. by eapply IH.
    + destruct He as [tree Htree]. apply Hsub in Htree as [tree' ->].
      by eapply IH.
    + destruct He as [tree Htree]. apply Hsub in Htree as [tree' ->].
      by eapply IH.
Qed.

Lemma scan_directory_union e : ∀ root rel patterns more tree,
  no_denied_size e = true →
  scan_directory e (root ++ rel) root patterns = Ok tree →
  ∃ tree', scan_directory e (root ++ rel) root (patterns ∪ more) = Ok tree'.
Proof.
  induction e as [st|listing IH|ex] using Entry_ind;
    intros root rel patterns more tree Hsize Hscan.
  - by rewrite scan_directory_EFile in Hscan.
  - rewrite scan_directory_EDir in Hscan |- *.
    pose proof (scan_items_union root rel patterns more
                  (sorted_by entry_le listing) [] []) as Hitems.
    destruct (scan_items _ _ (patterns ∪ more) _ _) as [children' error'].
    simpl in Hitems. rewrite Hitems; [eauto| |].
    + simpl in Hsize. rewrite forallb_forall in Hsize.
      apply Forall_forall. intros [name e] Hin.
      rewrite sorted_by_Permutation in Hin. cbn [fst snd]. split.
      * by apply (Hsize (name, e)), list_elem_of_In.
      * intros sub Hsub. eapply Forall_forall in IH; [|exact Hin].
        eapply IH; [|exact Hsub].
        by apply (Hsize (name, e)), list_elem_of_In.
    + destruct (scan_items _ _ patterns _ _) as [children [[]|]];
        simpl; try done; first [by left | by right].
  - rewrite scan_directory_EDirErr in Hscan |- *. case_decide; eauto.
Qed.

Lemma sizes_answer_no_denied_size e :
  sizes_answer e = true → no_denied_size e = true.
Proof.
  induction e as [[size|ex]|listing IH|ex] using Entry_ind; try done.
  simpl. rewrite !forallb_forall. intros Hall it Hin.
  apply list_elem_of_In in Hin as Hin'.
  eapply Forall_forall in IH; [|exact Hin']. by apply IH, Hall.
Qed.

(** X12: over a filesystem in which every size query answers (so that
    [is_dir] answers for every entry, whatever the listings do), adding
    patterns never makes a scan fail that returned before, and never adds a
    file to the tree: the files of the new tree are among the files of the
    old one, with the same paths and sizes, so there are at most as
    many. *)
Theorem X12_more_patterns_fewer_files (fs : Entry) (root_path : Path)
    (patterns more : gset string) (tree : Node) :
  sizes_answer fs = true →
  scan_directory fs root_path root_path patterns = Ok tree →
  ∃ tree',
    scan_directory fs root_path root_path (patterns ∪ more) = Ok tree'
    ∧ tree_files tree' ⊆+ tree_files tree
    ∧ (file_nodes tree' ≤ file_nodes tree)%nat.
Proof.
  intros Hsize%sizes_answer_no_denied_size Hscan.
  pose proof (scan_directory_union fs root_path [] patterns more tree Hsize)
    as Hunion.
  pose proof (scan_directory_files fs root_path [] patterns tree Hsize) as Hold.
  rewrite app_nil_r in Hunion, Hold.
  destruct (Hunion Hscan) as [tree' Hscan']. exists tree'.
  pose proof (scan_directory_files fs root_path [] (patterns ∪ more) tree' Hsize)
    as Hnew.
  rewrite app_nil_r in Hnew.
  assert (tree_files tree' ⊆+ tree_files tree) as Hsub.
  { rewrite (Hold Hscan), (Hnew Hscan').
    apply sublist_submseteq, fmap_sublist, kept_files_union. }
  split_and!; [done..|].
  rewrite <- !length_tree_files. by apply submseteq_length.
Qed.

Lemma X12_more_patterns_fewer_files_witness :
  ∃ tree',
    scan_directory (EDir scenario_listing) ["w"] ["w"] ({[ "b/" ]} ∪ {[ "*.txt" ]})
    = Ok tree'
    ∧ tree_files tree' ⊆+ [("a.txt", 10)]
    ∧ (file_nodes tree' ≤ 1)%nat.
Proof.
  apply (X12_more_patterns_fewer_files (EDir scenario_listing) ["w"] {[ "b/" ]}
           {[ "*.txt" ]}
           (Directory "w" "."
              [File "a.txt" "a.txt" 10; Directory "d" "d" [] None] None));
    [reflexivity|by vm_compute].
Defined.

(** ** No patterns *)

Lemma ignored_empty rel dir : ignored rel dir ∅ = false.
Proof. unfold ignored. by rewrite elements_empty. Qed.

Lemma foldr_plus_Permutation {A} (f : A → nat) (l1 l2 : list A) :
  l1 ≡ₚ l2 →
  foldr (λ x k, f x + k)%nat 0%nat l1 = foldr (λ x k, f x + k)%nat 0%nat l2.
Proof. induction 1; simpl; lia. Qed.

Lemma foldr_Zplus_Permutation {A} (f : A → Z) (l1 l2 : list A) :
  l1 ≡ₚ l2 → foldr (λ x k, f x + k) 0 l1 = foldr (λ x k, f x + k) 0 l2.
Proof. induction 1; simpl; lia. Qed.

(** A tree that holds what the entry holds. *)
Local Abbreviation mirrors tree e :=
  (file_nodes tree = fs_files e
   ∧ dir_nodes tree = fs_dirs e
   ∧ sum_sizes (tree_files tree) = fs_size e).

Lemma scan_items_mirror root rel sl : ∀ children,
  Forall (λ it : string * Entry,
            match it.2 with
            | EFile st => ∃ size, st = Ok size
            | _ => ∃ tree,
                scan_directory it.2 (root ++ rel ++ [it.1]) root ∅ = Ok tree
                ∧ mirrors tree it.2
            end) sl →
  ∃ new,
    scan_items (root ++ rel) root ∅ (items_of root rel ∅ sl) children
    = (children ++ new, None)
    ∧ foldr (λ c k, file_nodes c + k)%nat 0%nat new
      = foldr (λ it k, fs_files it.2 + k)%nat 0%nat sl
    ∧ foldr (λ c k, dir_nodes c + k)%nat 0%nat new
      = foldr (λ it k, fs_dirs it.2 + k)%nat 0%nat sl
    ∧ sum_sizes (new ≫= tree_files)
      = foldr (λ it k, fs_size it.2 + k) 0 sl.
Proof.
  induction sl as [|[name e] sl IH]; intros children Hall.
  { exists []. by rewrite app_nil_r. }
  apply Forall_cons in Hall as [He Hall]. cbn [fst snd] in He.
  rewrite items_of_cons, scan_items_cons, ignored_empty.
  assert (∀ node, mirrors node e →
            ∃ new,
              scan_items (root ++ rel) root ∅ (items_of root rel ∅ sl)
                (children ++ [node]) = (children ++ new, None)
              ∧ foldr (λ c k, file_nodes c + k)%nat 0%nat new
                = foldr (λ it k, fs_files it.2 + k)%nat 0%nat ((name, e) :: sl)
              ∧ foldr (λ c k, dir_nodes c + k)%nat 0%nat new
                = foldr (λ it k, fs_dirs it.2 + k)%nat 0%nat ((name, e) :: sl)
              ∧ sum_sizes (new ≫= tree_files)
                = foldr (λ it k, fs_size it.2 + k) 0 ((name, e) :: sl))
    as Hstep.
  { intros node (Hf & Hd & Hs).
    destruct (IH (children ++ [node]) Hall) as (new & -> & Hf' & Hd' & Hs').
    exists (node :: new). rewrite <- app_assoc. split; [done|].
    rewrite bind_cons, sum_sizes_app. cbn [foldr fst snd]. lia. }
  destruct e as [st| |].
  - destruct He as [size ->]. apply Hstep. split_and!; simpl; lia.
  - destruct He as (tree & -> & Htree). by apply Hstep.
  - destruct He as (tree & -> & Htree). by apply Hstep.
Qed.

Lemma scan_directory_mirror e : ∀ root rel,
  is_dir e = true → recoverable e = true → no_denied_size e = true →
  ∃ tree,
    scan_directory e (root ++ rel) root ∅ = Ok tree ∧ mirrors tree e.
Proof.
  induction e as [st|listing IH|ex] using Entry_ind;
    intros root rel Hdir Hrec Hsize; [done| |].
  - rewrite scan_directory_EDir.
    destruct (scan_items_mirror root rel (sorted_by entry_le listing) [])
      as (new & -> & Hf & Hd & Hs).
    + simpl in Hrec, Hsize. rewrite forallb_forall in Hrec, Hsize.
      apply Forall_forall. intros [name e] Hin.
      rewrite sorted_by_Permutation in Hin. cbn [fst snd].
      eapply Forall_forall in IH; [|exact Hin]. cbn [snd] in IH.
      pose proof (Hrec (name, e) (proj1 (list_elem_of_In _ _) Hin)) as Hrec'.
      pose proof (Hsize (name, e) (proj1 (list_elem_of_In _ _) Hin)) as Hsize'.
      cbn [snd] in Hrec', Hsize'.
      destruct e as [[size|ex]| |]; [by eauto| |by apply IH..].
      simpl in Hrec', Hsize'. apply bool_decide_eq_true in Hrec' as ->. done.
    + eexists. split; [done|]. cbn [app file_nodes dir_nodes tree_files fs_files
                                       fs_dirs fs_size].
      rewrite Hf, Hd, Hs.
      by rewrite (foldr_plus_Permutation _ _ _ (sorted_by_Permutation _ listing)),
        (foldr_plus_Permutation (λ it : string * Entry, fs_dirs it.2) _ _
           (sorted_by_Permutation _ listing)),
        (foldr_Zplus_Permutation _ _ _ (sorted_by_Permutation _ listing)).
  - simpl in Hrec. apply bool_decide_eq_true in Hrec as ->.
    rewrite scan_directory_EDirErr. by eexists.
Qed.

(** X13: without a [.dirignore] file, and provided every size query answers
    and every listing answers or is denied, the scan returns a tree that
    holds the whole filesystem: as many file nodes as there are files below
    the root, as many directory nodes as there are directories (the root
    and the unlistable ones included), and the statistics report these
    numbers and the sum of all file sizes. *)
Theorem X13_without_patterns_everything_is_scanned (fs : Entry)
    (root_path : Path) :
  is_dir fs = true → recoverable fs = true → no_denied_size fs = true →
  ∃ tree,
    scan fs root_path None = Ok tree
    ∧ file_nodes tree = fs_files fs
    ∧ dir_nodes tree = fs_dirs fs
    ∧ files (get_stats tree) = Z.of_nat (fs_files fs)
    ∧ directories (get_stats tree) = Z.of_nat (fs_dirs fs)
    ∧ total_size (get_stats tree) = fs_size fs.
Proof.
  intros Hdir Hrec Hsize.
  destruct (scan_directory_mirror fs root_path [] Hdir Hrec Hsize)
    as (tree & Hscan & Hf & Hd & Hs).
  rewrite app_nil_r in Hscan. exists tree.
  unfold scan, get_stats.
  rewrite count_items_files, count_items_directories, count_items_total_size.
  cbn [load_dirignore]. rewrite Hf, Hd, Hs. split_and!; [done..| | |]; simpl; lia.
Qed.

Lemma X13_without_patterns_everything_is_scanned_witness :
  ∃ tree,
    scan (EDir (("e", EDirErr PermissionError) :: scenario_listing)) ["w"] None
    = Ok tree
    ∧ file_nodes tree = 2%nat
    ∧ dir_nodes tree = 4%nat
    ∧ files (get_stats tree) = 2
    ∧ directories (get_stats tree) = 4
    ∧ total_size (get_stats tree) = 30.
Proof.
  apply (X13_without_patterns_everything_is_scanned
           (EDir (("e", EDirErr PermissionError) :: scenario_listing)) ["w"]);
    reflexivity.
Defined.

(** ** A failure inside the loop *)

Lemma sorted_by_fixed {A} (le : A → A → bool) (s : list A) :
  StronglySorted (λ x y, le x y = true) s → sorted_by le s = s.
Proof.
  induction 1 as [|x s Hs IH Hx]; simpl; [done|].
  rewrite IH. apply insert_by_head. destruct s as [|y s]; [done|].
  by apply Forall_cons in Hx as [? _].
Qed.

Lemma items_of_app root rel patterns l1 l2 :
  items_of root rel patterns (l1 ++ l2)
  = items_of root rel patterns l1 ++ items_of root rel patterns l2.
Proof. unfold items_of. apply map_app. Qed.

Lemma scan_directory_stops listing before name e after root rel patterns
    dir_name dir_path children :
  sorted_by entry_le listing = before ++ (name, e) :: after →
  scan_directory (EDir before) (root ++ rel) root patterns
  = Ok (Directory dir_name dir_path children None) →
  scan_directory (EDir listing) (root ++ rel) root patterns
  = match scan_items (root ++ rel) root patterns
            (items_of root rel patterns [(name, e)]) children with
    | (children', None) =>
        match scan_items (root ++ rel) root patterns
                (items_of root rel patterns after) children' with
        | (children'', None) => Ok (Directory dir_name dir_path children'' None)
        | (children'', Some PermissionError) =>
            Ok (Directory dir_name dir_path children'' (Some permission_denied))
        | (_, Some ex) => Raise ex
        end
    | (children', Some PermissionError) =>
        Ok (Directory dir_name dir_path children' (Some permission_denied))
    | (_, Some ex) => Raise ex
    end.
Proof.
  intros Hsorted Hbefore.
  assert (sorted_by entry_le before = before) as Hfixed.
  { apply sorted_by_fixed.
    apply (StronglySorted_app_1_l _ _ ((name, e) :: after)).
    rewrite <- Hsorted. apply sorted_by_sorted; unfold entry_le.
    - intros x y. apply string_leb_total.
    - intros x y z. apply string_leb_trans. }
  rewrite scan_directory_EDir in Hbefore |- *.
  rewrite Hfixed in Hbefore. rewrite Hsorted.
  change ((name, e) :: after) with ([(name, e)] ++ after).
  rewrite !items_of_app, !scan_items_app.
  destruct (scan_items _ _ _ (items_of _ _ _ before) _) as [children0 [[]|]];
    simplify_eq.
  rewrite scan_items_app.
  by destruct (scan_items _ _ _ (items_of _ _ _ [_]) _) as [children' [[]|]].
Qed.

(** X14: a failure inside the loop over a listing ends the loop.  When the
    size query of a file that no pattern matches fails, the nodes appended
    for the entries sorted before it stay, and the entries sorted after it
    are never looked at, whatever they are: if the failure is a denial the
    directory is returned with those children and the access-denied
    marker, otherwise the scan of the directory fails with that error.
    When the scan of a subdirectory that no pattern matches fails, the scan
    of the directory fails with the same error. *)
Theorem X14_a_failure_ends_the_loop (listing before after : list (string * Entry))
    (name : string) (e : Entry) (root_path rel : Path) (patterns : gset string)
    (dir_name dir_path : string) (children : list Node) :
  sorted_by entry_le listing = before ++ (name, e) :: after →
  ignored (rel ++ [name]) (is_dir e) patterns = false →
  scan_directory (EDir before) (root_path ++ rel) root_path patterns
  = Ok (Directory dir_name dir_path children None) →
  (∀ ex, e = EFile (Raise ex) →
     scan_directory (EDir listing) (root_path ++ rel) root_path patterns
     = if decide (ex = PermissionError)
       then Ok (Directory dir_name dir_path children (Some permission_denied))
       else Raise ex)
  ∧ (∀ ex, is_dir e = true →
       scan_directory e (root_path ++ rel ++ [name]) root_path patterns
       = Raise ex →
       scan_directory (EDir listing) (root_path ++ rel) root_path patterns
       = Raise ex).
Proof.
  intros Hsorted Hkeep Hbefore.
  pose proof (scan_directory_stops _ _ _ _ _ _ _ _ _ _ _ Hsorted Hbefore)
    as Hstops.
  rewrite items_of_cons, scan_items_cons, Hkeep in Hstops.
  split.
  - intros ex ->. rewrite Hstops. by destruct ex.
  - intros ex Hdir Hsub. rewrite Hstops, Hsub.
    pose proof (scan_directory_not_PermissionError e root_path (rel ++ [name])
                  patterns) as Hex.
    rewrite Hsub in Hex.
    destruct e as [| |]; [done| |]; by destruct ex.
Qed.

Lemma X14_a_failure_ends_the_loop_witness :
  scan_directory
    (EDir [("c", EDirErr OSError); ("b", EFile (Raise PermissionError));
           ("a", EFile (Ok 1))]) ["w"] ["w"] ∅
  = Ok (Directory "w" "." [File "a" "a" 1] (Some permission_denied)).
Proof.
  refine (proj1 (X14_a_failure_ends_the_loop
                   [("c", EDirErr OSError); ("b", EFile (Raise PermissionError));
                    ("a", EFile (Ok 1))]
                   [("a", EFile (Ok 1))] [("c", EDirErr OSError)]
                   "b" (EFile (Raise PermissionError)) ["w"] [] ∅
                   "w" "." [File "a" "a" 1] _ _ _) PermissionError _);
    reflexivity.
Defined.

(** ** When the scan returns *)

Lemma scan_items_pass root rel patterns sl : ∀ children,
  Forall (λ it : string * Entry, no_denied_size it.2 = true) sl →
  (let error := (scan_items (root ++ rel) root patterns
                   (items_of root rel patterns sl) children).2 in
   error = None ∨ error = Some PermissionError) →
  Forall (λ it : string * Entry,
            ignored (rel ++ [it.1]) (is_dir it.2) patterns = false →
            match it.2 with
            | EFile st => ∃ size, st = Ok size
            | _ => ∃ tree,
                scan_directory it.2 (root ++ rel ++ [it.1]) root patterns
                = Ok tree
            end) sl.
Proof.
  induction sl as [|[name e] sl IH]; intros children Hall Hok; [constructor|].
  apply Forall_cons in Hall as [Hsize Hall]. cbn [fst snd] in *.
  rewrite items_of_cons, scan_items_cons in Hok.
  destruct (ignored _ _ _) eqn:Hkeep.
  { constructor; [cbn [fst snd]; by rewrite Hkeep|by eapply IH]. }
  destruct e as [[size|ex]| |].
  - constructor; [cbn [fst snd]; by eauto|by eapply IH].
  - simpl in Hok. destruct Hok as [?|[= ->]]; done.
  - destruct (scan_directory _ _ _ _) as [tree|ex] eqn:Hscan.
    + constructor; [cbn [fst snd]; by eauto|by eapply IH].
    + simpl in Hok. destruct Hok as [?|[= ->]]; [done|].
      by apply scan_directory_not_PermissionError in Hscan.
  - destruct (scan_directory _ _ _ _) as [tree|ex] eqn:Hscan.
    + constructor; [cbn [fst snd]; by eauto|by eapply IH].
    + simpl in Hok. destruct Hok as [?|[= ->]]; [done|].
      by apply scan_directory_not_PermissionError in Hscan.
Qed.

Lemma scan_directory_Ok_recoverable e : ∀ root rel tree,
  no_denied_size e = true →
  scan_directory e (root ++ rel) root ∅ = Ok tree →
  recoverable e = true.
Proof.
  induction e as [st|listing IH|ex] using Entry_ind;
    intros root rel tree Hsize Hscan.
  - by rewrite scan_directory_EFile in Hscan.
  - rewrite scan_directory_EDir in Hscan.
    simpl in Hsize |- *. rewrite forallb_forall in Hsize.
    apply forallb_forall. intros [name e] Hin%list_elem_of_In.
    assert (Forall (λ it : string * Entry,
                      ignored (rel ++ [it.1]) (is_dir it.2) ∅ = false →
                      match it.2 with
                      | EFile st => ∃ size, st = Ok size
                      | _ => ∃ tree,
                          scan_directory it.2 (root ++ rel ++ [it.1]) root ∅
                          = Ok tree
                      end) (sorted_by entry_le listing)) as Hpass.
    { apply (scan_items_pass root rel ∅ (sorted_by entry_le listing) []).
      - apply Forall_forall. intros it Hit.
        rewrite sorted_by_Permutation in Hit. by apply Hsize, list_elem_of_In.
      - destruct (scan_items _ _ _ _ _) as [children [[]|]];
          simpl; try done; first [by left | by right]. }
    rewrite Forall_forall in Hpass.
    specialize (Hpass (name, e)). rewrite sorted_by_Permutation in Hpass.
    specialize (Hpass Hin (ignored_empty _ _)). cbn [fst snd] in Hpass.
    eapply Forall_forall in IH; [|exact Hin]. cbn [snd] in IH.
    destruct e as [st| |].
    + by destruct Hpass as [size ->].
    + destruct Hpass as [sub Hsub]. eapply IH; [|exact Hsub].
      by apply (Hsize (name, EDir _)), list_elem_of_In.
    + destruct Hpass as [sub Hsub]. eapply IH; [|exact Hsub]. done.
  - rewrite scan_directory_EDirErr in Hscan. simpl.
    case_decide; [by apply bool_decide_eq_true|done].
Qed.

(** X15: without a [.dirignore] file, and provided no size query is denied,
    the scan of a directory returns a tree exactly when nothing at or below
    the root fails other than by denial: every size query answers and every
    listing answers or is denied.  Any other failure, at any depth, makes
    the scan fail. *)
Theorem X15_the_scan_returns_iff_recoverable (fs : Entry) (root_path : Path) :
  is_dir fs = true → no_denied_size fs = true →
  (∃ tree, scan fs root_path None = Ok tree) ↔ recoverable fs = true.
Proof.
  intros Hdir Hsize. unfold scan. cbn [load_dirignore]. split.
  - intros [tree Hscan].
    apply (scan_directory_Ok_recoverable fs root_path [] tree); [done|].
    by rewrite app_nil_r.
  - intros Hrec.
    destruct (scan_directory_recoverable fs root_path [] ∅ Hdir Hrec)
      as [tree Hscan].
    rewrite app_nil_r in Hscan. eauto.
Qed.

Lemma X15_the_scan_returns_iff_recoverable_witness :
  (∃ tree,
     scan (EDir [("a", EFile (Ok 1)); ("b", EDir [("c", EDirErr OSError)])])
       ["w"] None = Ok tree)
  ↔ recoverable
      (EDir [("a", EFile (Ok 1)); ("b", EDir [("c", EDirErr OSError)])])
    = true.
Proof.
  apply (X15_the_scan_returns_iff_recoverable
           (EDir [("a", EFile (Ok 1)); ("b", EDir [("c", EDirErr OSError)])])
           ["w"]); reflexivity.
Defined.
